(* ===== verification/_CoqProject ===== *)
-Q . S2P
Prelude.v
GoSem.v
Net.v
RegistrySpec.v
Registry.v
Snapshot.v
ClosedSignal.v
Session.v
Interrupt.v
Concurrent.v
Races.v
Wellformed.v
Progress.v
Fair.v
Trace.v
Interleave.v
SessionRace.v
SnapshotPool.v
