(* ===== verification/Prelude.v ===== *)
(** * Verification of psiphon's connection registry (src/psiphon/conn.go)

    ** The program

    [src/psiphon/conn.go] declares three things:

    - [Dialer], the type of a custom dial function (line 28);
    - [Conn], an interface: a [net.Conn] that can also arm a channel which
      is signalled when the connection closes (lines 34-43); the types that
      implement it (DirectConn, MeekConn) live outside this file;
    - [Conns], a mutex-protected set of [net.Conn] values kept as a
      [map[net.Conn]bool], with three methods (lines 48-75): [Add] (lazily
      allocates the map, then stores [true] under the connection), [Remove]
      ([delete] on the map) and [CloseAll] (ranges over the map calling
      [Close] on every key, then installs a fresh empty map).  Each method
      starts with [conns.mutex.Lock()] and [defer conns.mutex.Unlock()].

    ** Files of the development, in dependency order

    - [Prelude] (this file): the shared proof infrastructure.  The hint
      databases [go] (resolution) and [go_simpl] (rewriting), the tactics
      [destruct_match] and [list_solver], and the generic lemmas on
      folds over permuted lists, on sums over lists, on lists of lists
      updated in place ([concat_insert_perm]), on keys of finite maps
      and on [omap] that several components use.
    - [GoSem]: the fragment of Go's run-time semantics the program relies on.
      A call either returns, panics, dies with a fatal error or blocks for
      ever ([outcome]); [M St A] is the state-and-outcome monad in which the
      methods are written, [defer] is Go's deferred call (run on return and
      on panic), [range_loop] the body of a [for ... range] over a snapshot
      of keys.  [Mutex], [Lock] and [Unlock] model [sync.Mutex] as the
      program uses it: [Lock] on a held mutex blocks, [Unlock] on a free one
      is a fatal error.  Its lemmas are the monad laws, the loop as a fold
      ([range_loop_foldl], [range_loop_stops]) and [defer] on each outcome.
    - [Net]: connection values.  A [net_Conn] is the nil interface value or a
      reference to a connection object ([handle]); [Dialer] is the dial
      function type; [ConnWorld] is the interface through which the registry
      sees the connection objects (what [conn.Close()] does to the world
      outside the registry), with the law [ConnWorldComm] (closing two
      distinct connections commutes).  Two instances: a call counter
      ([counts_world]) and a call log ([log_world]).
    - [RegistrySpec]: the abstract contract of the registry: a finite set of
      connections with insert, delete and close-all ([spec_step],
      [spec_run]), the interface an implementation discharges
      ([RegistryImpl], [RegistryCorrect]) and the client theorems proved
      against the interface alone ([calls_refine], [impl_member_after],
      [impl_distinct_adds]).
    - [Registry]: the [Conns] struct and its methods.  The state is the
      record [Conns] (fields [mutex] and [conns]) paired with the world of
      connection objects; one definition per statement ([mutex_Lock],
      [mutex_Unlock], [conns_is_nil], [conns_make], [conns_assign],
      [conns_delete], [conns_range], [call_Close]) and [Add], [Remove],
      [CloseAll] composed from them as in the source.  Theorems: the
      contract of each method on a free registry ([Add_returns],
      [Remove_returns], [CloseAll_returns]), the panic of [CloseAll] on a nil
      member ([CloseAll_nil_panics]), blocking on a held mutex
      ([run_call_blocks]), the deadlock when [Close] re-enters the registry
      ([CloseAll_reentrant_deadlock]), the invariant [Conns_wf]
      ([run_calls_preserve_wf]), exactly-once closing
      ([CloseAll_closes_each_once]), independence of the iteration order
      ([CloseAll_order_irrelevant]) and of the errors [Close] returns,
      which line 72 discards ([CloseAll_proper],
      [CloseAll_discards_error]), and the refinement of [RegistrySpec]
      ([Conns_refines], [Conns_calls_refine]) with its consequences
      ([Conns_member_after], [Conns_added_minus_removed],
      [Conns_distinct_adds]).  Two theorems mark the limits of the
      contract: [Conns_readd] (a connection added again after its removal
      is a member, so the members are not "added minus removed") and
      [CloseAll_nil_order_matters] (with the nil interface among the
      members, what [CloseAll] has closed when it panics depends on the
      order of the [range]).
    - [Snapshot]: [CloseAll] as the specification describes it
      ([CloseAll_snapshot]: capture the members and clear the registry
      under the lock, release it, then close what was captured), written
      with the statements of [Registry].  It is a second implementation
      of the interface of [RegistrySpec] ([Snapshot_impl],
      [Snapshot_refines]).  Theorems: it has the outcome of the methods
      of [conn.go] on well-behaved connections, call by call
      ([CloseAll_snapshot_equiv]) and on sequences of calls
      ([Snapshot_calls_equiv]); it returns where the method deadlocks
      ([CloseAll_snapshot_reentrant]); and on a nil member it panics with
      the registry emptied, where the method leaves every member in place
      ([CloseAll_snapshot_nil]).
    - [ClosedSignal]: the [Conn] interface as a type class ([Conn]) with the
      contract its comment states ([ConnContract]), client theorems that
      hold for every implementation of the contract
      ([closed_after_calls], [SetClosedSignal_after_Close],
      [CloseAll_closes_members]), and the closeable connection of the
      specification (an Open/Closed state machine with a one-shot,
      non-blocking close signal: [closeable_Close],
      [closeable_SetClosedSignal]), shown to meet the contract
      ([closeable_contract]) and to signal exactly once
      ([Close_signals_once], [Close_signal_dropped]).  [later] is the
      preorder in which the worlds of closeable connections only move
      forward (connections close and never reopen, channels keep their
      capacity and their signals), and [signals_bounded] the accounting
      it gives: over any sequence of calls a channel stays within its
      capacity and receives at most one signal for each connection
      closed.  [signals_close_each_once] is the exact count: closing a
      list of connections of which one open connection is armed with a
      channel that has room, and no other, buffers one signal.
      [arm_shut_comm] and [arm_close_each]: arming a connection commutes
      with closing others.  The implementing types are not in
      [conn.go]; this part follows the specification.
    - [Session]: the flow the specification describes around the
      registry.  [dial_tracked] obtains a connection from a [Dialer],
      registers it with [Add] and arms a channel with [SetClosedSignal];
      [tracked_session_run] is the run of the flow followed by
      [CloseAll], and [tracked_connection_signalled] shows that after
      [CloseAll] the connection is closed, the registry is empty and the
      channel holds the signal.  It composes [Net], [Registry] and
      [ClosedSignal].
    - [Interrupt]: the goroutines the registry is there to interrupt
      (comment of [Conns], lines 45-47).  [blocked_io] is a read or write
      on a connection whose peer is silent (it blocks while the
      connection is Open and fails once it is Closed), [chan_recv] the
      receive from the channel armed with [SetClosedSignal]; both follow
      the specification.  [CloseAll_interrupts]: after [CloseAll],
      blocked I/O fails on exactly the connections that were members or
      were closed before.  [observer_woken_once]: the caller of
      [Session] waiting on its channel is blocked until [CloseAll] and
      woken exactly once by it.
    - [Concurrent]: goroutines.  Each method is split at its statement
      boundaries into atomic steps over a program counter ([pc],
      [thread_step]), built from the same statement definitions as the
      methods of [Registry]; a pool of goroutines interleaves them
      ([pool_step], [pool_steps]), and [sched_run] executes a schedule.
      [thread_step_rest] ties the steps to the methods; [view_steps] is the
      invariant of a pool.  Theorems: [mutual_exclusion], [solo_run] (a
      goroutine alone computes the method), [serializable],
      [concurrent_calls_refine] (the final state is the sequential one for
      the order in which the calls took the lock, and refines
      [RegistrySpec]), [concurrent_adds_size], [deadlock_free].  The
      invariant, [mutual_exclusion] and [serializable] are proved for
      every closer of the class [KeepsMutex] (a [Close] that leaves the
      mutex as it found it), which has the well-behaved and the
      re-entrant closer as instances; [lock_waits] shows that while a
      goroutine is inside the critical section no other goroutine has a
      step, and [reentrant_deadlock] that in any pool a [CloseAll] that
      has reached a re-entrant connection holds the lock for ever
      ([reentrant_pool_deadlock] is an instance).  The tactic
      [thread_step_cases] is the case analysis on a statement and the
      shape of the state that the files on goroutines share.
    - [Races]: the shared memory.  [accesses] lists, for each statement
      of the three methods, its reads and writes of the field [conns]
      and of the map the field refers to; [thread_step_writes] and
      [thread_step_no_access] show that the list says what the
      statements of [Registry] do (a statement that is not listed as
      writing leaves the field or the map as it was, one with no access
      does not depend on them).  [accesses_in_critical] is the lock
      discipline (every access stands between [Lock] and the deferred
      [Unlock]) and [race_free] its consequence: in no configuration a
      pool reaches are two goroutines about to make conflicting
      accesses, for every closer of the class [KeepsMutex].
    - [Wellformed]: the configurations a pool reaches.  [pc_ok] states
      what the statement a goroutine stands at relies on (no nil interface
      in an [Add] or among the keys [CloseAll] has left to visit, the map
      allocated before the assignment of line 59, no panic under way);
      [pool_ok] extends it to configurations.  [pool_step_ok] shows that
      every step preserves it, [pool_ok_preserved] that executions do and
      that no goroutine of a well-formed configuration is panicking.
    - [Progress]: termination.  [steps_bound] is a measure on the
      configurations of a pool that every step lowers
      ([pool_step_bound]); [executions_end] bounds the length of every
      execution by [calls_bound] and shows that an execution which cannot
      be extended has finished every goroutine; [members_bounded] bounds
      the size of the registry along every execution; [run_to_end] is an
      executable scheduler, [run_to_end_finished] shows it reaches that
      end, and [run_to_end_refines] that on a ready registry it ends with
      every goroutine returned, in the state of the abstract registry
      after the calls in some order.
    - [Fair]: fair schedules.  A schedule is a list of rounds; it is
      [fair] when every goroutine has a turn in every round.
      [sched_run_round] shows that a round in which nothing steps finds
      every goroutine unable to step, and lowers [steps_bound]
      otherwise; [fair_schedule_returns] that a fair schedule with more
      rounds than [calls_bound] brings every goroutine to return from
      all its calls, in the state of the sequential run in lock order.
    - [Trace]: executions that record the goroutine taking each step
      ([pool_exec], with the executable [sched_trace]); they are exactly
      the executions of [Concurrent] ([pool_exec_steps],
      [pool_steps_exec]).  [program_order]: a goroutine takes the lock
      for its calls in the order of its program.  [pool_exec_interval]: a
      call takes the lock between its invocation and its return
      ([invoked], [returned_from]), and [real_time_order]: a call that
      returned before another was made precedes it in the lock order
      ([lock_index] is the position of a call in a trace).
      [pool_linearizable]: the final state is that of the sequential run
      in lock order, it refines [RegistrySpec], and lock order is an
      interleaving of the programs.  [CloseAll_races_Add]: the two
      outcomes of [CloseAll] racing with an [Add].
    - [Interleave]: the lock orders of complete executions are exactly
      the interleavings of the programs of the goroutines
      ([interleaved], [lock_orders_interleavings]): every execution
      yields one ([pool_exec_interleaved]), and every interleaving is
      realised by the execution that runs each call to its end in turn
      ([solo_call_exec], [interleaved_exec]); in particular both outcomes
      of the race of [CloseAll] with an [Add] occur
      ([race_orders_possible]).  Interleavings are defined for lists of
      any type; [interleavings] enumerates them and [interleavings_spec]
      shows that it lists exactly the interleavings, which makes
      [interleaved] decidable.
    - [SessionRace]: the flow of [Session] racing with [CloseAll].  The
      caller's two calls, [Add] and [SetClosedSignal], and the [CloseAll]
      of another goroutine are operations ([op], [run_ops]) that occur
      in one of three orders.  [arm_between_closes] shows that a
      [SetClosedSignal] made while [CloseAll] is closing the members has
      the effect it has before the first or after the last [Close], so
      the three orders are all there is; [session_races_CloseAll] gives
      the outcome of each: the connection survives open, tracked and
      armed, or it is closed and [SetClosedSignal] has failed, or it is
      closed and the channel signalled.  It composes [Registry],
      [ClosedSignal], [Session] and [Interleave].
    - [SnapshotPool]: concurrent callers of the design of [Snapshot].  A
      [worker] holds the connections its [CloseAll] has captured and the
      calls it has left; [worker_step] is a critical section ([Add],
      [Remove] or [take_all]) or the [Close] of one captured connection,
      so closes interleave with the calls of the other workers
      ([snap_step], [snap_steps], and the executable [snap_sched_run]
      and [snap_run_to_end]).  [snap_steps_abs]: a configuration stands
      for the abstract registry after the calls made so far, once the
      captured connections are closed.  [snapshot_pool_refines]: when
      all workers are done the registry is the abstract one after the
      calls in the order of their critical sections, which is what the
      methods of [conn.go] leave.  [snapshot_never_waits]: every worker
      that is not done can step at once, for every closer of the class
      [ReturnsReady] (the well-behaved and the re-entrant closer are
      instances); compare [lock_waits].  [snapshot_pool_terminates] and
      [snap_run_to_end_idle]: every step lowers [potential], so
      executions are finite and the scheduler ends with every worker
      done.  [snapshot_orders_interleavings]: the orders of the critical
      sections are the interleavings of the programs, and
      [designs_agree]: complete executions of the two designs leave the
      same registries in the same orders of calls.

    ** Modelling decisions

    - Identity.  A map keyed by an interface compares dynamic type and
      value; the connection types are pointers, so a key is the nil
      interface or an object identity.  [handle] is [positive].  An
      interface value that holds a nil pointer is not the nil interface:
      it is an object like any other.  Connection types that cannot be
      hashed (assigning such a key panics) are not considered.
    - The map field is [option (gmap net_Conn bool)]: [None] is Go's nil
      map, on which [delete] and [range] are no-ops and assignment panics.
      That is why the nil check of [Add] (line 56) is modelled and matters.
    - [range] iterates in an unspecified order.  [CloseAll] takes the order
      as a [range_order] (any function that lists the keys of the map it is
      given, each once); theorems quantify over it, and
      [CloseAll_order_irrelevant] shows the result does not depend on it when
      closes commute.  The map is not mutated while it is ranged over (the
      mutex is held and [Close] of a well-behaved connection does not call
      back), so ranging over a snapshot of the keys is faithful.
    - [conn.Close()] is a dynamic call.  The registry is parameterised by a
      [closer] (what the call does to the whole state); [world_closer] is the
      well-behaved one that only touches the connection world.
      [reentrant_closer] calls back into the registry and is used to show
      the re-entrancy deadlock.  Both leave the mutex as they find it
      ([KeepsMutex]).  [failing_closer] is a [Close] that reports an
      error.  Calling [Close] through the nil interface panics.
    - A goroutine's step is one statement; statements of different
      goroutines interleave arbitrarily.  A goroutine that would block in
      [Lock] has no step until the mutex is free.  The point at which a
      call takes effect is its [Lock], and calls are ordered by it
      ([lock_order] in [Trace]).
    - The shared data of a [Conns] are two locations: the field [conns]
      (a reference to a map) and the contents of the map.  A statement
      is atomic in [Concurrent]; [Races] justifies it by showing that two
      goroutines never stand at statements whose accesses conflict.  The
      [range] of line 71 is listed as reading the map until the loop is
      over, since Go advances the iteration between the calls of the
      body.
    - A goroutine blocked in I/O on a connection is represented by the
      operation it retries ([blocked_io]: [Blocks] while the connection
      is Open), not by a goroutine of the pool: whether it proceeds
      depends on the connection alone, so the theorems of [Interrupt]
      are stated on the world before and after [CloseAll].
    - [Close] and [SetClosedSignal] of a closeable connection are atomic
      (the connection synchronises them internally), so an interleaving
      of such calls by several goroutines is a sequence of calls, and the
      theorems over sequences ([closed_after_calls], [signals_bounded])
      cover every interleaving.
    - In [SessionRace] a call of a method of [Conns] is one operation:
      [serializable] shows that concurrent calls act as if made one
      after the other, and [arm_between_closes] that the one operation
      of the flow which is not under the mutex, [SetClosedSignal],
      cannot tell whether it runs inside or beside a [CloseAll].
    - In [SnapshotPool] a critical section is one step: the statements
      inside it are those of [Registry], and [mutual_exclusion] shows
      for the same statements that no other goroutine acts between
      [Lock] and the deferred [Unlock].  The closes are outside the
      critical section and each is a step.
    - The receiver [conns *Conns] is assumed non-nil, and one registry is
      modelled (methods only touch their receiver).

    ** Bounds and fuel

    The methods are structurally recursive programs (the loop runs over the
    finite list of keys), so they are total by construction and their
    theorems are unconditional on termination.  Two definitions take a
    bound: [thread_run n] makes at most [n] steps of one goroutine, and
    [solo_run] shows that [5 + number of keys] steps reach the end of any
    call; [sched_run] executes a finite schedule, and [sched_run_sound]
    shows that whatever it computes is an execution of the pool;
    [run_to_end fuel] makes at most [fuel] steps of a pool, and
    [run_to_end_finished] and [run_to_end_refines] show that more than
    [calls_bound] steps (for each call one step plus its statements, a
    [range] finding at most the initial members and the connections the
    calls add) are enough to finish every goroutine; [sched_trace]
    executes a finite schedule like [sched_run] and [sched_trace_sound]
    shows that what it records is an execution; [solo_call_exec] runs a
    call for [steps_left] statements, which [thread_run_exits] shows to
    be enough to reach its end; a fair schedule needs more rounds than
    [calls_bound], since each round makes at least one of the steps the
    bound counts ([sched_run_round]); [interleavings] recurses on the
    number of elements of the lists, one of which each step takes;
    [snap_run_to_end fuel] makes at most [fuel] steps of a pool of
    workers, and [snap_run_to_end_idle] shows that [potential] steps
    (one for each captured connection and each member, one for each
    call to come and one more for each [Add], whose connection a later
    [CloseAll] has to close) are enough.  Sizes are natural
    numbers: the registry has no counter that could overflow, and
    [members_bounded] and [signals_bounded] bound the two quantities that
    grow (the members, by the [Add] calls made; the signals buffered in a
    channel, by its capacity and by the connections closed).

    ** What is not modelled

    The dial functions behind [Dialer] and the data the read, write,
    address and deadline methods of [net.Conn] move (pure I/O, no code in
    this file; of reads and writes only the fact that they block on a
    silent peer and fail once the connection is closed is modelled, in
    [Interrupt]); the transport types that implement [Conn]; the
    scheduler of Go and the fairness of [sync.Mutex] (only its safety is
    used), so no theorem says that a given waiting goroutine gets the
    lock next, only that the pool can always step ([deadlock_free]),
    that every execution ends with all goroutines finished
    ([executions_end]) and that every fair schedule of enough rounds
    returns from every call ([fair_schedule_returns]); the memory model
    below the statements (an access is a read or a write of a whole
    location; [Races] shows that conflicting statements never meet, not
    how the hardware orders the accesses inside one statement); the
    statements inside the critical sections of the design of
    [Snapshot] as steps of their own (they are in [Concurrent], for the
    methods of [conn.go]; [SnapshotPool] interleaves whole critical
    sections and closes); panics in a pool of workers (a worker of
    [SnapshotPool] that would close the nil interface has no step; the
    theorems start from a ready registry, where none is captured).  Of
    [conn.go] itself every
    declaration and every statement is modelled; the lines no definition
    translates are the licence header (lines 1-19), the [package] clause
    and the [import] block (lines 20-25) and the blank lines between
    declarations. *)

From stdpp Require Export prelude gmap.

(** ** Hint databases *)

(** [go] collects the resolution hints of the development, [go_simpl] the
    rewriting rules that evaluate monadic programs. *)
Create HintDb go discriminated.
Create Rewrite HintDb go_simpl.

(** ** Tactics *)

(** Case analysis on the scrutinee of a [match] in the goal or a hypothesis. *)
Ltac destruct_match :=
  match goal with
  | |- context [match ?e with _ => _ end] => destruct e eqn:?
  | H : context [match ?e with _ => _ end] |- _ => destruct e eqn:?
  end.

(** Close list-membership and duplicate-freedom side conditions. *)
Ltac list_solver :=
  repeat match goal with
  | H : NoDup (_ :: _) |- _ => apply NoDup_cons in H; destruct H
  | H : _ ∈ _ :: _ |- _ => apply elem_of_cons in H
  end; set_solver.

(** ** Folds over permuted lists *)

Section fold.
Context {A B : Type}.
Implicit Types (f : B → A → B) (l : list A) (b : B).

(** [comm_on f l]: the steps of [f] at two distinct elements of [l]
    commute. *)
Definition comm_on f l : Prop :=
  ∀ a1 a2 b, a1 ∈ l → a2 ∈ l → a1 ≠ a2 → f (f b a1) a2 = f (f b a2) a1.

Lemma comm_on_perm f l1 l2 : l1 ≡ₚ l2 → comm_on f l1 → comm_on f l2.
Proof. intros Hp Hc a1 a2 b ???. apply Hc; by rewrite ?Hp. Qed.

Lemma comm_on_cons f a l : comm_on f (a :: l) → comm_on f l.
Proof. intros Hc a1 a2 b ???. apply Hc; set_solver. Qed.

(** A left fold over a duplicate-free list does not depend on the order of
    the list when its steps commute. *)
Lemma foldl_comm_perm f l1 l2 :
  l1 ≡ₚ l2 → NoDup l1 → comm_on f l1 → ∀ b, foldl f b l1 = foldl f b l2.
Proof.
  induction 1 as [|a l1 l2 Hp IH|a1 a2 l|l1 l2 l3 Hp1 IH1 Hp2 IH2];
    intros Hnd Hc b; simpl.
  - done.
  - apply IH; [by inv Hnd | by eapply comm_on_cons].
  - f_equal. apply Hc; list_solver.
  - rewrite IH1, IH2; eauto using comm_on_perm. by rewrite <-Hp1.
Qed.

End fold.

(** ** Sums over lists *)

Section sums.
Context {A : Type}.
Implicit Types (f g : A → nat) (l : list A).

Lemma sum_list_with_mono f g l :
  (∀ x, g x ≤ f x) → sum_list_with g l ≤ sum_list_with f l.
Proof.
  intros Hgf. induction l as [|x l IH]; simpl; [done|]. specialize (Hgf x). lia.
Qed.

(** Replacing an element changes the sum by the difference of the two
    summands. *)
Lemma sum_list_with_insert f l i x y :
  l !! i = Some x →
  sum_list_with f (<[i := y]> l) + f x = sum_list_with f l + f y.
Proof.
  revert i. induction l as [|z l IH]; intros [|i] Hi; simplify_eq/=; [lia|].
  specialize (IH i Hi). lia.
Qed.

(** A sum decreases when one summand decreases and the others do not
    increase. *)
Lemma sum_list_with_insert_lt f g l i x y :
  l !! i = Some x → (∀ z, g z ≤ f z) → g y < f x →
  sum_list_with g (<[i := y]> l) < sum_list_with f l.
Proof.
  intros Hi Hgf Hy. revert i Hi.
  induction l as [|z l IH]; intros [|i] Hi; simplify_eq/=.
  - pose proof (sum_list_with_mono f g l Hgf). lia.
  - specialize (IH i Hi). specialize (Hgf z). lia.
Qed.

Lemma sum_list_with_fmap {B} f (h : B → A) (k : list B) :
  sum_list_with f (h <$> k) = sum_list_with (f ∘ h) k.
Proof. induction k as [|x k IH]; csimpl; [done|]. by rewrite IH. Qed.

Lemma sum_list_with_concat f (ls : list (list A)) :
  sum_list_with f (concat ls) = sum_list_with (sum_list_with f) ls.
Proof.
  induction ls as [|l ls IH]; simpl; [done|]. by rewrite sum_list_with_app, IH.
Qed.

End sums.

(** ** Lists of lists updated in place *)

Section concat_insert.
Context {A : Type}.
Implicit Types (ls : list (list A)) (xs ys : list A).

(** Replacing one of the lists exchanges its elements for those of the
    new list. *)
Lemma concat_insert_perm ls i xs ys :
  ls !! i = Some xs → xs ++ concat (<[i := ys]> ls) ≡ₚ ys ++ concat ls.
Proof.
  intros Hi. rewrite insert_take_drop by by eapply lookup_lt_Some.
  rewrite <-(take_drop_middle ls i xs) at 3 by done.
  rewrite !concat_app, !concat_cons. solve_Permutation.
Qed.

(** Taking the first element off one of the lists. *)
Lemma concat_insert_tail ls i x xs :
  ls !! i = Some (x :: xs) → concat ls ≡ₚ x :: concat (<[i := xs]> ls).
Proof.
  intros Hi. apply (inj (app xs)). rewrite <-(concat_insert_perm ls i (x :: xs) xs Hi).
  solve_Permutation.
Qed.

End concat_insert.

(** ** Permutations of images *)

Section fmap_perm.
Context {A B : Type} (f : A → B).

(** A permutation of the image of a list is the image of a permutation of
    the list. *)
Lemma Permutation_fmap_inv (l : list B) (l2 : list A) :
  l ≡ₚ f <$> l2 → ∃ l1, l = f <$> l1 ∧ l1 ≡ₚ l2.
Proof.
  intros Hp. destruct (Permutation_map_inv f l2 Hp) as (l1 & -> & Hl1).
  by exists l1.
Qed.

Lemma concat_fmap_singleton (l : list A) : concat ((λ x, [f x]) <$> l) = f <$> l.
Proof. induction l as [|x l IH]; [done|]. by rewrite !fmap_cons, <-IH. Qed.

End fmap_perm.

(** [omap] keeps the order of the elements it keeps. *)
Lemma omap_sublist {A B} (f : A → option B) (l1 l2 : list A) :
  l1 `sublist_of` l2 → omap f l1 `sublist_of` omap f l2.
Proof.
  induction 1 as [|x l1 l2 _ IH|x l1 l2 _ IH]; simpl; [done|..];
    destruct (f x); by try constructor.
Qed.

(** ** Keys of a finite map *)

Section keys.
Context `{Countable K} {V : Type}.
Implicit Types (m : gmap K V) (k : K).

(** The keys of a map, in the canonical order of its domain. *)
Definition keys m : list K := elements (dom m : gset K).

Lemma elem_of_keys m k : k ∈ keys m ↔ is_Some (m !! k).
Proof. unfold keys. by rewrite elem_of_elements, elem_of_dom. Qed.

Lemma NoDup_keys m : NoDup (keys m).
Proof. unfold keys. apply NoDup_elements. Qed.

Lemma keys_empty : keys (∅ : gmap K V) = [].
Proof. unfold keys. by rewrite dom_empty_L, elements_empty. Qed.

Lemma length_keys m : length (keys m) = size (dom m : gset K).
Proof. done. Qed.

(** The size of a map after an insertion and after a deletion. *)
Lemma map_size_insert_le m k v : size (<[k:=v]> m) ≤ S (size m).
Proof. rewrite map_size_insert. destruct (m !! k); simpl; lia. Qed.

Lemma map_size_delete_le m k : size (delete k m) ≤ size m.
Proof. rewrite map_size_delete. destruct (m !! k); simpl; lia. Qed.

End keys.

#[export] Hint Resolve NoDup_keys : go.
#[export] Hint Rewrite @keys_empty : go_simpl.
