(* ===== verification/GoSem.v ===== *)
(** * GoSem: the fragment of Go's run-time semantics the registry relies on

    How a call ends ([outcome]), the monad [M] in which the methods of
    [src/psiphon/conn.go] are written, Go's [defer], the [for ... range]
    loop over a snapshot of keys, and [sync.Mutex]. *)

From S2P Require Import Prelude.

(** ** Outcomes of a call *)

(** The run-time panics the program can raise. *)
Inductive panic : Type :=
| nil_dereference         (* method call through the nil interface value *)
| nil_map_assignment.     (* assignment to an entry of a nil map *)

(** Fatal errors are not panics: no deferred call runs, the process dies. *)
Inductive fatal : Type :=
| unlock_of_unlocked_mutex.

#[export] Instance panic_eq_dec : EqDecision panic.
Proof. solve_decision. Defined.
#[export] Instance fatal_eq_dec : EqDecision fatal.
Proof. solve_decision. Defined.

(** A call started in some state returns a value, panics, dies, or blocks
    for ever; each outcome carries the state reached. *)
Inductive outcome (St A : Type) : Type :=
| Returns (a : A) (s : St)
| Panics (p : panic) (s : St)
| Fatal (f : fatal) (s : St)
| Blocks (s : St).
Arguments Returns {St A} a s.
Arguments Panics {St A} p s.
Arguments Fatal {St A} f s.
Arguments Blocks {St A} s.

Definition outcome_state {St A} (o : outcome St A) : St :=
  match o with Returns _ s | Panics _ s | Fatal _ s | Blocks s => s end.

Definition returned {St A} (o : outcome St A) : option A :=
  match o with Returns a _ => Some a | _ => None end.

Definition is_Returns {St A} (o : outcome St A) : bool :=
  match o with Returns _ _ => true | _ => false end.

(** Change the state component (used to run a program on a part of the
    state). *)
Definition outcome_map {St Sub A} (g : St → Sub) (o : outcome St A) : outcome Sub A :=
  match o with
  | Returns a s => Returns a (g s)
  | Panics p s => Panics p (g s)
  | Fatal f s => Fatal f (g s)
  | Blocks s => Blocks (g s)
  end.

#[export] Instance outcome_eq_dec `{EqDecision St, EqDecision A} :
  EqDecision (outcome St A).
Proof. solve_decision. Defined.

(** ** The monad *)

Definition M (St A : Type) : Type := St → outcome St A.

#[export] Instance M_ret {St} : MRet (M St) := λ A a s, Returns a s.

#[export] Instance M_bind {St} : MBind (M St) := λ A B f m s,
  match m s with
  | Returns a s' => f a s'
  | Panics p s' => Panics p s'
  | Fatal e s' => Fatal e s'
  | Blocks s' => Blocks s'
  end.

Definition get {St} : M St St := λ s, Returns s s.
Definition put {St} (s : St) : M St () := λ _, Returns () s.
Definition modify {St} (g : St → St) : M St () := λ s, Returns () (g s).
Definition raise {St A} (p : panic) : M St A := λ s, Panics p s.
Definition die {St A} (e : fatal) : M St A := λ s, Fatal e s.
Definition park {St A} : M St A := λ s, Blocks s.

(** Run a program over a component [Sub] of the state [St]. *)
Definition zoom {St Sub A} (proj : St → Sub) (upd : Sub → St → St) (m : M Sub A) : M St A :=
  λ s, outcome_map (λ t, upd t s) (m (proj s)).

(** [defer d body]: Go's [defer d()] as the first statement of a function
    whose remaining statements are [body].  The deferred call runs when the
    body returns and when it panics, not when it blocks or dies; a panic of
    the deferred call replaces the body's. *)
Definition defer {St A} (d : M St ()) (body : M St A) : M St A := λ s,
  match body s with
  | Returns a s' => (d ;; mret a) s'
  | Panics p s' => (d ;; raise p) s'
  | Fatal e s' => Fatal e s'
  | Blocks s' => Blocks s'
  end.

(** [for k := range ks { body k }] over the keys [ks] listed beforehand. *)
Fixpoint range_loop {St K} (ks : list K) (body : K → M St ()) : M St () :=
  match ks with
  | [] => mret ()
  | k :: ks => body k ;; range_loop ks body
  end.

(** Programs are compared pointwise. *)
#[export] Instance M_equiv {St A} : Equiv (M St A) := pointwise_relation St (=).

(** ** sync.Mutex *)

(** The zero value of a [sync.Mutex] is an unlocked mutex. *)
Inductive Mutex : Type := Unlocked | Locked.

#[export] Instance Mutex_eq_dec : EqDecision Mutex.
Proof. solve_decision. Defined.
#[export] Instance Mutex_inhabited : Inhabited Mutex := populate Unlocked.

(** [Lock] blocks while the mutex is held. *)
Definition Lock : M Mutex () :=
  mu ← get; match mu with Unlocked => put Locked | Locked => park end.

(** [Unlock] of a mutex that is not held is a fatal error. *)
Definition Unlock : M Mutex () :=
  mu ← get;
  match mu with Locked => put Unlocked | Unlocked => die unlock_of_unlocked_mutex end.

(** ** Laws *)

Section laws.
Context {St : Type}.

#[export] Instance M_equivalence {A} : Equivalence (≡@{M St A}).
Proof. unfold equiv, M_equiv. apply _. Qed.

#[export] Instance mbind_proper {A B} :
  Proper (pointwise_relation A (≡) ==> (≡) ==> (≡)) (mbind (M := M St) (A := A) (B := B)).
Proof.
  intros f g Hfg m1 m2 Hm s. unfold mbind, M_bind. rewrite Hm.
  destruct (m2 s); [apply Hfg|done..].
Qed.

#[export] Instance defer_proper {A} :
  Proper ((≡) ==> (≡) ==> (≡)) (defer (St := St) (A := A)).
Proof.
  intros d1 d2 Hd b1 b2 Hb s. unfold defer. rewrite Hb.
  destruct (b2 s); unfold mbind, M_bind; by rewrite ?Hd.
Qed.

#[export] Instance range_loop_proper {K} (ks : list K) :
  Proper (pointwise_relation K (≡) ==> (≡)) (range_loop (St := St) ks).
Proof.
  intros b1 b2 Hb. induction ks as [|k ks IH]; [done|]. simpl.
  apply mbind_proper; [by intros []|apply Hb].
Qed.

Lemma mbind_ret_l {A B} (a : A) (f : A → M St B) : mret a ≫= f ≡ f a.
Proof. done. Qed.

Lemma mbind_ret_r {A} (m : M St A) : m ≫= mret ≡ m.
Proof. intros s. unfold mbind, M_bind. by destruct (m s). Qed.

Lemma mbind_assoc {A B C} (m : M St A) (f : A → M St B) (g : B → M St C) :
  (m ≫= f) ≫= g ≡ m ≫= (λ a, f a ≫= g).
Proof. intros s. unfold mbind, M_bind. by destruct (m s). Qed.

(** A loop over a concatenation is the sequence of the two loops. *)
Lemma range_loop_app {K} (ks1 ks2 : list K) (body : K → M St ()) :
  range_loop (ks1 ++ ks2) body ≡ (range_loop ks1 body ;; range_loop ks2 body).
Proof.
  induction ks1 as [|k ks1 IH]; simpl; [done|].
  rewrite mbind_assoc. by setoid_rewrite IH.
Qed.

(** A body that always returns and acts on the state by [step] makes the
    loop a left fold of [step]. *)
Lemma range_loop_foldl {K} (ks : list K) (body : K → M St ()) (step : St → K → St) s :
  (∀ k s, k ∈ ks → body k s = Returns () (step s k)) →
  range_loop ks body s = Returns () (foldl step s ks).
Proof.
  revert s. induction ks as [|k ks IH]; intros s Hb; simpl; [done|].
  unfold mbind, M_bind. rewrite Hb by set_solver. apply IH.
  intros; apply Hb; set_solver.
Qed.

(** The first key whose body does not return ends the loop with that
    outcome; the keys before it act by [step]. *)
Lemma range_loop_stops {K} (ks1 ks2 : list K) k (body : K → M St ())
    (step : St → K → St) s :
  (∀ k s, k ∈ ks1 → body k s = Returns () (step s k)) →
  is_Returns (body k (foldl step s ks1)) = false →
  range_loop (ks1 ++ k :: ks2) body s = body k (foldl step s ks1).
Proof.
  intros Hb Hk. rewrite (range_loop_app ks1 (k :: ks2) body s).
  unfold mbind at 1, M_bind at 1. rewrite (range_loop_foldl _ _ step) by done.
  simpl. unfold mbind, M_bind. by destruct (body k _).
Qed.

(** A property of the state that every iteration maintains, whatever its
    outcome, holds in the state the loop ends in. *)
Lemma range_loop_outcome_inv {K} (I : St → Prop) (ks : list K) (body : K → M St ()) :
  (∀ k s, k ∈ ks → I s → I (outcome_state (body k s))) →
  ∀ s, I s → I (outcome_state (range_loop ks body s)).
Proof.
  induction ks as [|k ks IH]; intros Hb s Hs; simpl; [done|].
  unfold mbind, M_bind. specialize (Hb k s) as Hk.
  destruct (body k s); try (apply Hk; set_solver).
  apply IH; [|apply Hk; set_solver]. intros; apply Hb; set_solver.
Qed.

(** [defer] when body and deferred call both return. *)
Lemma defer_returns {A} (d : M St ()) (body : M St A) s a s' s'' :
  body s = Returns a s' → d s' = Returns () s'' →
  defer d body s = Returns a s''.
Proof. intros Hb Hd. unfold defer, mbind, M_bind. by rewrite Hb, Hd. Qed.

(** [defer] when the body panics: the deferred call still runs. *)
Lemma defer_panics {A} (d : M St ()) (body : M St A) s p s' s'' :
  body s = Panics p s' → d s' = Returns () s'' →
  defer d body s = Panics p s''.
Proof. intros Hb Hd. unfold defer, mbind, M_bind. by rewrite Hb, Hd. Qed.

(** [defer] when the body blocks: the deferred call never runs. *)
Lemma defer_blocks {A} (d : M St ()) (body : M St A) s s' :
  body s = Blocks s' → defer d body s = Blocks s'.
Proof. intros Hb. unfold defer. by rewrite Hb. Qed.

End laws.

(** ** Mutex facts *)

Lemma Lock_Unlock : (Lock ;; Unlock) ≡ (λ mu, match mu with
                                          | Unlocked => Returns () Unlocked
                                          | Locked => Blocks Locked
                                          end).
Proof. by intros []. Qed.

#[export] Hint Rewrite @range_loop_app : go_simpl.
#[export] Hint Resolve defer_returns defer_panics defer_blocks : go.
