(* ===== verification/Net.v ===== *)
(** * Net: connection values and the world of connection objects

    The values the registry of [src/psiphon/conn.go] stores ([net_Conn]),
    the [Dialer] type, and the interface through which the registry acts on
    the connection objects themselves ([ConnWorld]), with two instances that
    record the calls made. *)

From stdpp Require Import strings.
From S2P Require Import Prelude GoSem.

(** ** Connection values *)

(** The identity of a connection object (the pointer an interface value
    holds). *)
Definition handle : Type := positive.

(** A value of interface type [net.Conn]: the nil interface, or a reference
    to a connection object.  Map keys of this type compare by identity. *)
Inductive net_Conn : Type :=
| nil_Conn
| conn_ref (h : handle).

#[export] Instance net_Conn_eq_dec : EqDecision net_Conn.
Proof. solve_decision. Defined.

#[export] Instance net_Conn_countable : Countable net_Conn.
Proof.
  refine (inj_countable'
    (λ c, match c with nil_Conn => None | conn_ref h => Some h end)
    (λ o, match o with None => nil_Conn | Some h => conn_ref h end) _).
  by intros [].
Defined.

#[export] Instance net_Conn_inhabited : Inhabited net_Conn := populate nil_Conn.

(** The object behind a connection value, if any. *)
Definition conn_handle (c : net_Conn) : option handle :=
  match c with nil_Conn => None | conn_ref h => Some h end.

(** The objects behind a list of connection values. *)
Definition handles (cs : list net_Conn) : list handle := omap conn_handle cs.

(** Go's [error]: an interface value carrying a message; the nil error is
    [None] of [option error]. *)
Definition error : Type := string.

(** [type Dialer func(string, string) (net.Conn, error)]: a dial function
    takes a network and an address, acts on the world of connections [W] and
    returns a connection value and an error. *)
Definition Dialer (W : Type) : Type :=
  string → string → M W (net_Conn * option error).

(** ** The world of connection objects *)

(** What [Close] on the object [h] does to the world outside the registry,
    and the error it returns. *)
Class ConnWorld (W : Type) := world_Close : handle → W → option error * W.
#[global] Hint Mode ConnWorld ! : typeclass_instances.

(** The state of the world after [Close] on [h]. *)
Definition closed `{ConnWorld W} (w : W) (h : handle) : W := (world_Close h w).2.

(** The state of the world after [Close] on each of [hs] in turn. *)
Definition close_each `{ConnWorld W} (hs : list handle) (w : W) : W :=
  foldl closed w hs.

(** Closing two distinct connections commutes. *)
Class ConnWorldComm (W : Type) `{ConnWorld W} :=
  closed_comm : ∀ (h1 h2 : handle) (w : W),
    h1 ≠ h2 → closed (closed w h1) h2 = closed (closed w h2) h1.

(** *** Instance: counting the calls *)

(** The world is the number of [Close] calls each object has received. *)
Definition count_of (w : gmap handle nat) (h : handle) : nat := default 0 (w !! h).

#[export] Instance counts_world : ConnWorld (gmap handle nat) :=
  λ h w, (None, <[h := S (count_of w h)]> w).

(** *** Instance: logging the calls *)

(** The world is the list of objects [Close] was called on, oldest first. *)
#[export] Instance log_world : ConnWorld (list handle) :=
  λ h w, (None, w ++ [h]).

(** ** Facts *)

Lemma handles_cons_ref h cs : handles (conn_ref h :: cs) = h :: handles cs.
Proof. done. Qed.

Lemma handles_cons_nil cs : handles (nil_Conn :: cs) = handles cs.
Proof. done. Qed.

Lemma elem_of_handles h cs : h ∈ handles cs ↔ conn_ref h ∈ cs.
Proof.
  unfold handles. rewrite list_elem_of_omap. split.
  - by intros ([|h'] & ? & ?); simplify_eq/=.
  - intros ?. by exists (conn_ref h).
Qed.

(** Without the nil interface, the objects are the values. *)
Lemma handles_fmap_ref cs : nil_Conn ∉ cs → conn_ref <$> handles cs = cs.
Proof.
  induction cs as [|[|h] cs IH]; intros Hnil; [done|set_solver|].
  rewrite handles_cons_ref, fmap_cons, IH; [done|set_solver].
Qed.

Lemma NoDup_handles cs : NoDup cs → NoDup (handles cs).
Proof.
  induction 1 as [|[|h] cs Hx Hnd IH]; [constructor|done|].
  rewrite handles_cons_ref. constructor; [by rewrite elem_of_handles|done].
Qed.

Lemma handles_perm cs1 cs2 : cs1 ≡ₚ cs2 → handles cs1 ≡ₚ handles cs2.
Proof. intros Hp. unfold handles. by rewrite Hp. Qed.

#[export] Instance handles_proper : Proper ((≡ₚ) ==> (≡ₚ)) handles.
Proof. intros ??. apply handles_perm. Qed.

Section world.
Context `{ConnWorld W}.

Lemma close_each_cons h hs (w : W) :
  close_each (h :: hs) w = close_each hs (closed w h).
Proof. done. Qed.

Lemma close_each_app hs1 hs2 (w : W) :
  close_each (hs1 ++ hs2) w = close_each hs2 (close_each hs1 w).
Proof. apply foldl_app. Qed.

(** With commuting closes, the order of a duplicate-free list of closes is
    irrelevant. *)
Lemma close_each_perm `{!ConnWorldComm W} hs1 hs2 (w : W) :
  NoDup hs1 → hs1 ≡ₚ hs2 → close_each hs1 w = close_each hs2 w.
Proof.
  intros Hnd Hp. apply foldl_comm_perm; [done..|].
  intros h1 h2 w' _ _ ?. by apply closed_comm.
Qed.

(** It is irrelevant also when a connection is closed more than once. *)
Lemma close_each_Permutation `{!ConnWorldComm W} hs1 hs2 (w : W) :
  hs1 ≡ₚ hs2 → close_each hs1 w = close_each hs2 w.
Proof.
  intros Hp. revert w.
  induction Hp as [|h hs1 hs2 _ IH|h1 h2 hs|hs1 hs2 hs3 _ IH1 _ IH2]; intros w.
  - done.
  - apply IH.
  - rewrite !close_each_cons. destruct (decide (h2 = h1)) as [->|Hne]; [done|].
    by rewrite (closed_comm h2 h1).
  - by rewrite IH1.
Qed.

#[export] Instance close_each_proper `{!ConnWorldComm W} :
  Proper ((≡ₚ) ==> (=) ==> (=)) (close_each (W := W)).
Proof. intros hs1 hs2 Hp w ? <-. by apply close_each_Permutation. Qed.

End world.

#[export] Instance counts_world_comm : ConnWorldComm (gmap handle nat).
Proof.
  intros h1 h2 w Hne. unfold closed, world_Close, counts_world, count_of; simpl.
  rewrite !lookup_insert_ne by done. by apply insert_insert_ne.
Qed.

(** In the counting world, [close_each] adds to the count of an object the
    number of times it occurs in the list. *)
Lemma count_of_closed (w : gmap handle nat) h h' :
  count_of (closed w h) h' = count_of w h' + (if decide (h = h') then 1 else 0).
Proof.
  unfold closed, world_Close, counts_world, count_of; simpl.
  rewrite lookup_insert. case_decide; subst; simpl; lia.
Qed.

Lemma count_of_close_each hs (w : gmap handle nat) h :
  count_of (close_each hs w) h = count_of w h + length (filter (h =.) hs).
Proof.
  revert w. induction hs as [|h' hs IH]; intros w; simpl; [lia|].
  fold (close_each hs (closed w h')). rewrite IH, count_of_closed, filter_cons.
  repeat case_decide; simplify_eq/=; lia.
Qed.

(** A duplicate-free list of closes raises the count of its elements by
    exactly one and leaves the others alone. *)
Lemma count_of_close_each_NoDup hs (w : gmap handle nat) h :
  NoDup hs →
  count_of (close_each hs w) h = count_of w h + (if decide (h ∈ hs) then 1 else 0).
Proof.
  intros Hnd. rewrite count_of_close_each. f_equal.
  induction Hnd as [|h' hs Hx Hnd IH]; [done|].
  rewrite filter_cons. destruct (decide (h = h')) as [->|Hne].
  - rewrite decide_True by set_solver. simpl.
    rewrite decide_False in IH by done. by rewrite IH.
  - rewrite IH. repeat case_decide; set_solver.
Qed.

Lemma log_close_each hs (w : list handle) : close_each hs w = w ++ hs.
Proof.
  revert w. induction hs as [|h hs IH]; intros w; simpl.
  - by rewrite app_nil_r.
  - fold (close_each hs (closed w h)). rewrite IH.
    unfold closed; simpl. by rewrite <-app_assoc.
Qed.

Arguments handles : simpl never.
Arguments close_each : simpl never.

#[export] Hint Rewrite handles_cons_ref handles_cons_nil : go_simpl.
#[export] Hint Rewrite @close_each_cons @close_each_app @log_close_each : go_simpl.
#[export] Hint Resolve NoDup_handles : go.
