(* ===== verification/RegistrySpec.v ===== *)
(** * RegistrySpec: the contract of the connection registry

    The abstract registry is a finite set of connections next to the world
    of connection objects.  [spec_step] says what each method of [Conns]
    promises on it; [RegistryImpl] and [RegistryCorrect] are the interface
    an implementation discharges; the theorems of this file are proved
    against the interface only. *)

From S2P Require Import Prelude GoSem Net.

(** ** Calls *)

(** A call of one of the three methods of [Conns]. *)
Inductive call : Type :=
| call_Add (conn : net_Conn)
| call_Remove (conn : net_Conn)
| call_CloseAll.

#[export] Instance call_eq_dec : EqDecision call.
Proof. solve_decision. Defined.

(** The registry is meant to hold connections: the nil interface is never
    added. *)
Definition call_ok (k : call) : Prop := k ≠ call_Add nil_Conn.

#[export] Instance call_ok_dec k : Decision (call_ok k).
Proof. unfold call_ok. apply _. Defined.

(** ** The abstract registry *)

Section spec.
Context `{ConnWorld W}.

(** What a call does to the set of members and to the world: [Add] inserts,
    [Remove] deletes, [CloseAll] closes every member once and empties the
    set. *)
Definition spec_step (k : call) (a : gset net_Conn * W) : gset net_Conn * W :=
  match k with
  | call_Add conn => ({[conn]} ∪ a.1, a.2)
  | call_Remove conn => (a.1 ∖ {[conn]}, a.2)
  | call_CloseAll => (∅, close_each (handles (elements a.1)) a.2)
  end.

Definition spec_run (ks : list call) (a : gset net_Conn * W) : gset net_Conn * W :=
  foldl (λ a k, spec_step k a) a ks.

(** Whether [conn] is a member after the calls [ks], given whether it was
    one before: the last call that concerns it decides. *)
Fixpoint member_after (conn : net_Conn) (ks : list call) (b : bool) : bool :=
  match ks with
  | [] => b
  | call_Add c :: ks => member_after conn ks (if decide (c = conn) then true else b)
  | call_Remove c :: ks => member_after conn ks (if decide (c = conn) then false else b)
  | call_CloseAll :: ks => member_after conn ks false
  end.

(** The connections some call of [ks] adds, and those some call removes. *)
Definition added (ks : list call) : gset net_Conn :=
  list_to_set (omap (λ k, match k with call_Add c => Some c | _ => None end) ks).

Definition removed (ks : list call) : gset net_Conn :=
  list_to_set (omap (λ k, match k with call_Remove c => Some c | _ => None end) ks).

(** No connection is added again after it has been removed or after a
    [CloseAll]. *)
Fixpoint no_readd (ks : list call) : Prop :=
  match ks with
  | [] => True
  | call_Add _ :: ks => no_readd ks
  | call_Remove c :: ks => (c ∉ added ks) ∧ no_readd ks
  | call_CloseAll :: ks => added ks = ∅ ∧ no_readd ks
  end.

(** ** The interface *)

(** An implementation of the registry over states [St]: its methods, the
    states in which a method may be called, and the abstract registry a
    state stands for. *)
Class RegistryImpl (St : Type) : Type := {
  impl_run : call → M St ();
  impl_ready : St → Prop;
  impl_abs : St → gset net_Conn * W;
}.

(** The contract: called in a ready state, a method returns in a ready
    state, and has done to the abstract registry what [spec_step] says. *)
Class RegistryCorrect (St : Type) `{!RegistryImpl St} : Prop :=
  impl_refines : ∀ k s,
    call_ok k → impl_ready s →
    ∃ s', impl_run k s = Returns () s' ∧ impl_ready s' ∧
          impl_abs s' = spec_step k (impl_abs s).

End spec.

Arguments RegistryImpl : clear implicits.
Arguments RegistryCorrect W {_} St {_}.
#[global] Hint Mode RegistryImpl - ! : typeclass_instances.

(** ** The abstract registry: consequences *)

Section spec_facts.
Context `{ConnWorld W}.
Implicit Types (a : gset net_Conn * W) (ks : list call) (c conn : net_Conn).

Lemma spec_run_cons k ks a : spec_run (k :: ks) a = spec_run ks (spec_step k a).
Proof. done. Qed.

Lemma spec_run_app ks1 ks2 a : spec_run (ks1 ++ ks2) a = spec_run ks2 (spec_run ks1 a).
Proof. apply foldl_app. Qed.

(** Membership after a sequence of calls is decided connection by
    connection: by the last call that concerns the connection, or by the
    initial membership when there is none. *)
Theorem spec_run_member conn ks a :
  conn ∈ (spec_run ks a).1 ↔ member_after conn ks (bool_decide (conn ∈ a.1)) = true.
Proof.
  revert a. induction ks as [|k ks IH]; intros a.
  { simpl. by rewrite bool_decide_eq_true. }
  rewrite spec_run_cons, IH.
  assert (member_after conn (k :: ks) (bool_decide (conn ∈ a.1)) =
          member_after conn ks (bool_decide (conn ∈ (spec_step k a).1))) as ->; [|done].
  destruct k as [c|c|]; simpl; f_equal; repeat case_decide; subst;
    symmetry; first [apply bool_decide_eq_true|apply bool_decide_eq_false|apply bool_decide_ext];
    set_solver.
Qed.

Lemma added_cons_Add c ks : added (call_Add c :: ks) = {[c]} ∪ added ks.
Proof. done. Qed.

Lemma removed_cons_Remove c ks : removed (call_Remove c :: ks) = {[c]} ∪ removed ks.
Proof. done. Qed.

(** When no connection is added again after it was removed, and no
    [CloseAll] is called, the members in the end are the initial and the
    added ones minus the removed ones. *)
Theorem spec_run_added_minus_removed ks a :
  call_CloseAll ∉ ks → no_readd ks →
  (spec_run ks a).1 = (a.1 ∪ added ks) ∖ removed ks.
Proof.
  revert a. induction ks as [|[c|c|] ks IH]; intros a Hca Hre;
    rewrite ?spec_run_cons; simpl in *.
  - set_solver.
  - rewrite IH by set_solver. rewrite added_cons_Add. simpl.
    change (removed (call_Add c :: ks)) with (removed ks). set_solver.
  - destruct Hre as [Hc Hre]. rewrite IH by set_solver.
    rewrite removed_cons_Remove. simpl.
    change (added (call_Remove c :: ks)) with (added ks). set_solver.
  - set_solver.
Qed.

(** Adding pairwise distinct connections to the empty registry yields as
    many members as there were calls. *)
Theorem spec_run_distinct_adds (cs : list net_Conn) (w : W) :
  NoDup cs → size (spec_run (call_Add <$> cs) (∅, w)).1 = length cs.
Proof.
  intros Hnd.
  assert (∀ X, (spec_run (call_Add <$> cs) (X, w)).1 = list_to_set cs ∪ X) as ->.
  { induction cs as [|c cs IH]; intros X; [set_solver|].
    rewrite fmap_cons, spec_run_cons. simpl. inv Hnd. rewrite IH by done. set_solver. }
  rewrite (right_id_L ∅ (∪)). by apply size_list_to_set.
Qed.

End spec_facts.

(** ** Clients of the interface *)

Section clients.
Context `{ConnWorld W} `{!RegistryImpl W St} `{!RegistryCorrect W St}.
Implicit Types (s : St) (ks : list call).

(** Any sequence of calls none of which adds the nil interface returns, and
    the implementation has done what the abstract registry does. *)
Theorem calls_refine ks s :
  Forall call_ok ks → impl_ready s →
  ∃ s', range_loop ks impl_run s = Returns () s' ∧ impl_ready s' ∧
        impl_abs s' = spec_run ks (impl_abs s).
Proof.
  intros Hks. revert s. induction Hks as [|k ks Hk Hks IH]; intros s Hs; [by exists s|].
  destruct (impl_refines k s Hk Hs) as (s1 & Hrun & Hs1 & Habs).
  destruct (IH s1 Hs1) as (s' & Hrun' & Hs' & Habs').
  exists s'. simpl. unfold mbind, M_bind. rewrite Hrun, Hrun'.
  by rewrite Habs', Habs.
Qed.

(** After any sequence of calls, a connection is a member exactly when the
    last call that concerns it was an [Add], or none concerned it and it was
    a member before. *)
Theorem impl_member_after conn ks s :
  Forall call_ok ks → impl_ready s →
  ∃ s', range_loop ks impl_run s = Returns () s' ∧
        (conn ∈ (impl_abs s').1 ↔
         member_after conn ks (bool_decide (conn ∈ (impl_abs s).1)) = true).
Proof.
  intros Hks Hs. destruct (calls_refine ks s Hks Hs) as (s' & Hrun & _ & Habs).
  exists s'. split; [done|]. rewrite Habs. apply spec_run_member.
Qed.

(** Adding [n] pairwise distinct connections to an empty registry yields
    exactly [n] members. *)
Theorem impl_distinct_adds (cs : list net_Conn) s :
  NoDup cs → nil_Conn ∉ cs → impl_ready s → (impl_abs s).1 = ∅ →
  ∃ s', range_loop (call_Add <$> cs) impl_run s = Returns () s' ∧
        size (impl_abs s').1 = length cs.
Proof.
  intros Hnd Hnil Hs Hemp.
  destruct (calls_refine (call_Add <$> cs) s) as (s' & Hrun & _ & Habs); [|done|].
  { apply Forall_fmap, Forall_forall. intros c Hc ?. unfold call_ok in *. set_solver. }
  exists s'. split; [done|]. rewrite Habs.
  destruct (impl_abs s) as [X w]; simpl in *; subst. by apply spec_run_distinct_adds.
Qed.

End clients.
