(* ===== verification/Registry.v ===== *)
(** * Registry: the [Conns] struct and its methods

    [Conns] of [src/psiphon/conn.go] (lines 45-75): the struct, the
    statements its methods are made of, and [Add], [Remove] and [CloseAll]
    composed from them as the source composes them. *)

From stdpp Require Import strings.
From S2P Require Import Prelude GoSem Net RegistrySpec.

(** ** State *)

(** [type Conns struct { mutex sync.Mutex; conns map[net.Conn]bool }].
    A map value is a reference: [None] is the nil map. *)
Record Conns : Type := mkConns {
  mutex : Mutex;
  conns : option (gmap net_Conn bool);
}.

(** The zero value of the struct, as a caller declares it. *)
Definition zero_Conns : Conns := mkConns Unlocked None.

(** The registry together with the world of connection objects its methods
    act on. *)
Record state (W : Type) : Type := mkState {
  reg : Conns;
  world : W;
}.
Arguments mkState {W} reg world.
Arguments reg {W} s.
Arguments world {W} s.

Definition set_mutex {W} (mu : Mutex) (s : state W) : state W :=
  mkState (mkConns mu (conns (reg s))) (world s).

Definition set_conns {W} (m : option (gmap net_Conn bool)) (s : state W) : state W :=
  mkState (mkConns (mutex (reg s)) m) (world s).

Definition set_world {W} (w : W) (s : state W) : state W :=
  mkState (reg s) w.

(** The connections the registry holds. *)
Definition members (c : Conns) : gset net_Conn :=
  match conns c with None => ∅ | Some m => dom m end.

(** ** Iteration order of [range] *)

(** Go leaves the order in which [range] visits a map unspecified.  An order
    is any function that lists the keys of a map, each once. *)
Record range_order : Type := mkOrder {
  order :> gmap net_Conn bool → list net_Conn;
  order_perm : ∀ m, order m ≡ₚ keys m;
}.

Definition canonical_order : range_order := mkOrder keys (λ m, reflexivity _).

Definition reverse_order : range_order :=
  mkOrder (λ m, reverse (keys m)) (λ m, reverse_Permutation _).

(** The keys a [range] over the map field visits, in the order [ord]; none
    for the nil map. *)
Definition range_keys (ord : range_order) (c : Conns) : list net_Conn :=
  from_option ord [] (conns c).

(** ** Statements *)

Section registry.
Context {W : Type}.

(** What the dynamic call [conn.Close()] does when [conn] holds the object
    [h]: a program over the whole state. *)
Definition closer : Type := handle → M (state W) (option error).

(** The closer of well-behaved connections: it acts on the world of
    connection objects only. *)
Definition world_closer `{ConnWorld W} : closer := λ h s,
  let '(e, w) := world_Close h (world s) in Returns e (set_world w s).

(** [conns.mutex.Lock()] *)
Definition mutex_Lock : M (state W) () := zoom (mutex ∘ reg) set_mutex Lock.

(** [conns.mutex.Unlock()] *)
Definition mutex_Unlock : M (state W) () := zoom (mutex ∘ reg) set_mutex Unlock.

(** [conns.conns == nil] *)
Definition conns_is_nil : M (state W) bool :=
  s ← get; mret (match conns (reg s) with None => true | Some _ => false end).

(** [conns.conns = make(map[net.Conn]bool)] *)
Definition conns_make : M (state W) () := modify (set_conns (Some ∅)).

(** [conns.conns[conn] = b]; assignment to an entry of the nil map panics. *)
Definition conns_assign (conn : net_Conn) (b : bool) : M (state W) () := λ s,
  match conns (reg s) with
  | None => Panics nil_map_assignment s
  | Some m => Returns () (set_conns (Some (<[conn := b]> m)) s)
  end.

(** [delete(conns.conns, conn)]; a no-op on the nil map and on an absent
    key. *)
Definition conns_delete (conn : net_Conn) : M (state W) () :=
  modify (λ s, set_conns (delete conn <$> conns (reg s)) s).

(** [range conns.conns]: the keys the loop is going to visit. *)
Definition conns_range (ord : range_order) : M (state W) (list net_Conn) :=
  s ← get; mret (range_keys ord (reg s)).

(** [conn.Close()]: a method call through the nil interface panics,
    otherwise the call is dispatched to the object. *)
Definition call_Close (close : closer) (conn : net_Conn) : M (state W) (option error) :=
  match conn with
  | nil_Conn => raise nil_dereference
  | conn_ref h => close h
  end.

(** ** Methods *)

(** [func (conns *Conns) Add(conn net.Conn)] *)
Definition Add (conn : net_Conn) : M (state W) () :=
  mutex_Lock ;;
  defer mutex_Unlock (
    isnil ← conns_is_nil;
    (if isnil : bool then conns_make else mret ()) ;;
    conns_assign conn true).

(** [func (conns *Conns) Remove(conn net.Conn)] *)
Definition Remove (conn : net_Conn) : M (state W) () :=
  mutex_Lock ;;
  defer mutex_Unlock (conns_delete conn).

(** [func (conns *Conns) CloseAll()]; the error [Close] returns is
    discarded. *)
Definition CloseAll (close : closer) (ord : range_order) : M (state W) () :=
  mutex_Lock ;;
  defer mutex_Unlock (
    ks ← conns_range ord;
    range_loop ks (λ conn, call_Close close conn ;; mret ()) ;;
    conns_make).

(** ** Closers used in the theorems *)

(** One iteration of the loop of [CloseAll] over well-behaved connections,
    as a function of the state. *)
Definition close_step `{ConnWorld W} (s : state W) (conn : net_Conn) : state W :=
  from_option (λ h, set_world (closed (world s) h) s) s (conn_handle conn).

(** A connection whose [Close] removes itself from the registry it is
    tracked in. *)
Definition reentrant_closer : closer := λ h,
  Remove (conn_ref h) ;; mret None.

(** A connection whose [Close] does what [close] does and then reports
    the error [e], whatever [close] returned. *)
Definition failing_closer (close : closer) (e : error) : closer := λ h,
  close h ;; mret (Some e).

(** ** Calls *)

(** The method a [call] names, applied to its argument. *)
Definition run_call (close : closer) (ord : range_order) (k : call) : M (state W) () :=
  match k with
  | call_Add conn => Add conn
  | call_Remove conn => Remove conn
  | call_CloseAll => CloseAll close ord
  end.

(** Calls made one after the other by one goroutine. *)
Definition run_calls (close : closer) (ord : range_order) (ks : list call) : M (state W) () :=
  range_loop ks (run_call close ord).

(** ** Invariant *)

(** Between calls the mutex is free and every entry of the map holds
    [true]. *)
Definition Conns_wf (c : Conns) : Prop :=
  mutex c = Unlocked ∧ from_option (map_Forall (λ _ v, v = true)) True (conns c).

(** A closer that leaves the registry alone, whatever its outcome. *)
Definition closer_frame (close : closer) : Prop :=
  ∀ h s, reg (outcome_state (close h s)) = reg s.

(** A closer that leaves the mutex as it found it, whatever it does to the
    members: what the caller of [conn.Close()] on line 72 relies on to
    hold the lock still when the call is over. *)
Class KeepsMutex (close : closer) : Prop :=
  keeps_mutex h s : mutex (reg (outcome_state (close h s))) = mutex (reg s).

End registry.

(** ** Fixtures *)

(** Two connection values, a registry holding both, and one that also holds
    the nil interface. *)
Definition conn_a : net_Conn := conn_ref 1%positive.
Definition conn_b : net_Conn := conn_ref 2%positive.

Definition two_conns : Conns :=
  mkConns Unlocked (Some {[conn_a := true; conn_b := true]}).

Definition with_nil : Conns :=
  mkConns Unlocked (Some {[conn_a := true; nil_Conn := true; conn_b := true]}).

(** An error a failing [Close] reports. *)
Definition reset_by_peer : error := "connection reset by peer"%string.

(** A connection added again after it was removed. *)
Definition readd_calls : list call :=
  [call_Add conn_a; call_Remove conn_a; call_Add conn_a].

(** ** The registry as an implementation of [RegistrySpec] *)

(** The states in which a method may be called: the invariant holds and the
    nil interface is not a member. *)
Definition Conns_ready {W} (s : state W) : Prop :=
  Conns_wf (reg s) ∧ nil_Conn ∉ members (reg s).

(** The abstract registry a state stands for. *)
Definition Conns_abs {W} (s : state W) : gset net_Conn * W :=
  (members (reg s), world s).

Definition Conns_impl `{ConnWorld W} (ord : range_order) : RegistryImpl W (state W) :=
  {| impl_run := run_call world_closer ord;
     impl_ready := Conns_ready;
     impl_abs := Conns_abs |}.

#[export] Instance Conns_wf_dec c : Decision (Conns_wf c).
Proof. unfold Conns_wf. destruct (conns c); apply _. Defined.

(** ** Proof infrastructure *)

(** Split a state into its fields and evaluate the hypotheses on them. *)
Ltac destruct_state s :=
  let mu := fresh "mu" in let m := fresh "m" in let w := fresh "w" in
  destruct s as [[mu m] w]; simplify_eq/=.

Section range_keys.
Implicit Types (ord : range_order) (c : Conns) (k : net_Conn).

Lemma order_empty ord : ord ∅ = [].
Proof. apply Permutation_nil_r. by rewrite (order_perm ord ∅), keys_empty. Qed.

Lemma elem_of_range_keys ord c k : k ∈ range_keys ord c ↔ k ∈ members c.
Proof.
  unfold range_keys, members. destruct (conns c) as [m|]; simpl; [|set_solver].
  by rewrite (order_perm ord m), elem_of_keys, elem_of_dom.
Qed.

Lemma NoDup_range_keys ord c : NoDup (range_keys ord c).
Proof.
  unfold range_keys. destruct (conns c) as [m|]; simpl; [|constructor].
  rewrite (order_perm ord m). apply NoDup_keys.
Qed.

Lemma range_keys_perm ord1 ord2 c : range_keys ord1 c ≡ₚ range_keys ord2 c.
Proof.
  unfold range_keys. destruct (conns c) as [m|]; simpl; [|done].
  by rewrite !order_perm.
Qed.

Lemma range_keys_elements ord c : range_keys ord c ≡ₚ elements (members c).
Proof.
  unfold range_keys, members. destruct (conns c) as [m|]; simpl.
  - apply order_perm.
  - by rewrite elements_empty.
Qed.

Lemma length_range_keys ord c : length (range_keys ord c) = size (members c).
Proof.
  unfold range_keys, members. destruct (conns c) as [m|]; simpl; [|done].
  by rewrite (order_perm ord m), length_keys.
Qed.

End range_keys.

#[export] Hint Resolve NoDup_range_keys : go.
#[export] Hint Rewrite order_empty : go_simpl.

Section facts.
Context {W : Type}.
Implicit Types (s : state W) (c conn : net_Conn) (ord : range_order).

(** *** The mutex *)

Lemma mutex_Lock_free s :
  mutex (reg s) = Unlocked → mutex_Lock s = Returns () (set_mutex Locked s).
Proof. intros. by destruct_state s. Qed.

Lemma mutex_Lock_held s : mutex (reg s) = Locked → mutex_Lock s = Blocks s.
Proof. intros. by destruct_state s. Qed.

#[export] Instance world_closer_keeps_mutex `{!ConnWorld W} :
  KeepsMutex (W := W) world_closer.
Proof. intros h s. unfold world_closer. by destruct (world_Close _ _). Qed.

(** A method body [body] run between [Lock] and the deferred [Unlock] by a
    caller that finds the mutex held: the caller blocks, the state is
    untouched. *)
Lemma locked_method_blocks (body : M (state W) ()) s :
  mutex (reg s) = Locked → (mutex_Lock ;; defer mutex_Unlock body) s = Blocks s.
Proof. intros Hmu. unfold mbind, M_bind. by rewrite mutex_Lock_held. Qed.

End facts.

(** ** Add and Remove *)

Section add_remove.
Context {W : Type}.
Implicit Types (s : state W) (c conn : net_Conn).

(** On a free registry [Add] returns, having stored [true] under the
    connection in the map, which it allocates first when it is nil; the
    mutex is free again and the world untouched. *)
Lemma Add_run conn s :
  mutex (reg s) = Unlocked →
  Add conn s =
    Returns () (set_conns (Some (<[conn := true]> (default ∅ (conns (reg s))))) s).
Proof. intros. destruct_state s. by destruct m. Qed.

(** [Add] makes the connection a member and keeps the others. *)
Lemma Add_members conn s :
  mutex (reg s) = Unlocked →
  members (reg (outcome_state (Add conn s))) = {[conn]} ∪ members (reg s).
Proof.
  intros. rewrite Add_run by done. destruct_state s. unfold members; simpl.
  rewrite dom_insert_L. destruct m; simpl; [done|]. by rewrite dom_empty_L.
Qed.

(** Adding a member again changes nothing: the second call returns the
    state the first one left. *)
Theorem Add_idempotent conn s :
  mutex (reg s) = Unlocked → (Add conn ;; Add conn) s = Add conn s.
Proof.
  intros. unfold mbind, M_bind. rewrite (Add_run conn s) by done.
  rewrite Add_run by by destruct_state s.
  destruct_state s. by rewrite insert_insert_eq.
Qed.

(** On a free registry [Remove] returns, having deleted the connection from
    the map; the nil map stays nil. *)
Lemma Remove_run conn s :
  mutex (reg s) = Unlocked →
  Remove conn s = Returns () (set_conns (delete conn <$> conns (reg s)) s).
Proof. intros. destruct_state s. by destruct m. Qed.

Lemma Remove_members conn s :
  mutex (reg s) = Unlocked →
  members (reg (outcome_state (Remove conn s))) = members (reg s) ∖ {[conn]}.
Proof.
  intros. rewrite Remove_run by done. destruct_state s. unfold members; simpl.
  destruct m; simpl; [by rewrite dom_delete_L|set_solver].
Qed.

(** Removing a connection that is not a member is a no-op: the call returns
    and the state is the one it started in. *)
Theorem Remove_absent_noop conn s :
  mutex (reg s) = Unlocked → conn ∉ members (reg s) →
  Remove conn s = Returns () s.
Proof.
  intros Hmu Hc. rewrite Remove_run by done. destruct_state s. f_equal.
  unfold members in Hc; simpl in Hc. destruct m as [m|]; simpl; [|done].
  by rewrite delete_id by by apply not_elem_of_dom.
Qed.

(** C32. [Remove] undoes [Add] of a connection that was not a member, up to the
    allocation of the map. *)
Theorem Add_Remove_members conn s :
  mutex (reg s) = Unlocked → conn ∉ members (reg s) →
  members (reg (outcome_state ((Add conn ;; Remove conn) s))) = members (reg s).
Proof.
  intros Hmu Hc. unfold mbind, M_bind. rewrite Add_run by done.
  rewrite Remove_members by by destruct_state s.
  change (set_conns ?m s) with (outcome_state (Returns () (set_conns m s))).
  rewrite <-Add_run, Add_members by done. set_solver.
Qed.

(** A caller that finds the mutex held blocks in [Lock]; nothing has been
    changed. *)
Lemma Add_blocks conn s : mutex (reg s) = Locked → Add conn s = Blocks s.
Proof. apply locked_method_blocks. Qed.

Lemma Remove_blocks conn s : mutex (reg s) = Locked → Remove conn s = Blocks s.
Proof. apply locked_method_blocks. Qed.

(** [Add] never panics and never dies, in any state: the nil check protects
    the map assignment and the deferred [Unlock] finds the mutex held. *)
Theorem Add_no_panic conn s :
  match Add conn s with Returns _ _ | Blocks _ => True | _ => False end.
Proof.
  destruct (mutex (reg s)) eqn:Hmu; [by rewrite Add_run|by rewrite Add_blocks].
Qed.

End add_remove.

(** ** CloseAll *)

Section close_all.
Context `{ConnWorld W}.
Implicit Types (s : state W) (c conn : net_Conn) (ord : range_order).

Lemma close_body_ref h s :
  (call_Close world_closer (conn_ref h) ;; mret ()) s = Returns () (close_step s (conn_ref h)).
Proof.
  unfold mbind, M_bind, call_Close, world_closer, close_step, closed; simpl.
  by destruct (world_Close h (world s)).
Qed.

Lemma foldl_close_step ks s :
  foldl close_step s ks = set_world (close_each (handles ks) (world s)) s.
Proof.
  revert s. induction ks as [|[|h] ks IH]; intros s; simpl.
  - by destruct s.
  - apply IH.
  - rewrite IH. by autorewrite with go_simpl.
Qed.

(** The loop over keys none of which is nil closes each of them in turn and
    returns. *)
Lemma close_loop_returns ks s :
  nil_Conn ∉ ks →
  range_loop ks (λ conn, call_Close world_closer conn ;; mret ()) s =
    Returns () (set_world (close_each (handles ks) (world s)) s).
Proof.
  intros Hnil. rewrite <-foldl_close_step. apply range_loop_foldl.
  intros [|h] s' Hk; [done|apply close_body_ref].
Qed.

(** The loop panics at the first nil key, having closed the keys before
    it. *)
Lemma close_loop_panics ks1 ks2 s :
  nil_Conn ∉ ks1 →
  range_loop (ks1 ++ nil_Conn :: ks2) (λ conn, call_Close world_closer conn ;; mret ()) s =
    Panics nil_dereference (set_world (close_each (handles ks1) (world s)) s).
Proof.
  intros Hnil. rewrite <-foldl_close_step.
  rewrite (range_loop_stops _ _ _ _ close_step); [done| |done].
  intros [|h] s' Hk; [done|apply close_body_ref].
Qed.

(** On a free registry that does not hold the nil interface, [CloseAll]
    returns: [Close] has been called on every member, once, in the order
    of the [range]; the map is a fresh empty map and the mutex is free. *)
Lemma CloseAll_run ord s :
  mutex (reg s) = Unlocked → nil_Conn ∉ members (reg s) →
  CloseAll world_closer ord s =
    Returns () (mkState (mkConns Unlocked (Some ∅))
                        (close_each (handles (range_keys ord (reg s))) (world s))).
Proof.
  intros Hmu Hnil. rewrite <-(elem_of_range_keys ord) in Hnil.
  unfold CloseAll, mbind at 1, M_bind at 1. rewrite mutex_Lock_free by done.
  eapply defer_returns.
  - unfold mbind, M_bind; simpl. by rewrite close_loop_returns.
  - by destruct_state s.
Qed.

(** When the registry holds the nil interface, [CloseAll] panics with a nil
    dereference when the [range] reaches it: the members visited before
    have been closed, the others have not, the deferred [Unlock] has
    released the mutex, and the map has not been replaced. *)
Lemma CloseAll_stops_at_nil ord s ks1 ks2 :
  mutex (reg s) = Unlocked →
  range_keys ord (reg s) = ks1 ++ nil_Conn :: ks2 →
  CloseAll world_closer ord s =
    Panics nil_dereference (set_world (close_each (handles ks1) (world s)) s).
Proof.
  intros Hmu Hks. pose proof (NoDup_range_keys ord (reg s)) as Hnd.
  rewrite Hks in Hnd. apply NoDup_app in Hnd as (_ & Hnil & _).
  unfold CloseAll, mbind at 1, M_bind at 1. rewrite mutex_Lock_free by done.
  eapply defer_panics.
  - unfold mbind, M_bind; simpl. unfold range_keys in *; simpl.
    rewrite Hks, close_loop_panics; [done|].
    intros ?. eapply Hnil; [done|set_solver].
  - by destruct_state s.
Qed.

(** ... which happens whenever the nil interface is a member. *)
Lemma CloseAll_nil_member ord s :
  mutex (reg s) = Unlocked → nil_Conn ∈ members (reg s) →
  ∃ s', CloseAll world_closer ord s = Panics nil_dereference s' ∧
        reg s' = reg s.
Proof.
  intros Hmu Hnil. apply elem_of_range_keys with (ord := ord) in Hnil.
  apply list_elem_of_split in Hnil as (ks1 & ks2 & Hks).
  eexists. split; [by eapply CloseAll_stops_at_nil|done].
Qed.

(** The outcome of [CloseAll] does not depend on the order in which the
    [range] visits the map, when closing distinct connections commutes. *)
Theorem CloseAll_order_irrelevant `{!ConnWorldComm W} ord1 ord2 s :
  mutex (reg s) = Unlocked → nil_Conn ∉ members (reg s) →
  CloseAll world_closer ord1 s = CloseAll world_closer ord2 s.
Proof.
  intros. rewrite !CloseAll_run by done. do 2 f_equal.
  apply close_each_perm; [auto with go|].
  apply handles_perm, range_keys_perm.
Qed.

(** A second [CloseAll] finds nothing to close. *)
Theorem CloseAll_twice ord s :
  mutex (reg s) = Unlocked → nil_Conn ∉ members (reg s) →
  (CloseAll world_closer ord ;; CloseAll world_closer ord) s = CloseAll world_closer ord s.
Proof.
  intros. unfold mbind, M_bind. rewrite (CloseAll_run ord s) by done.
  rewrite CloseAll_run by (simpl; set_solver). simpl.
  unfold range_keys at 1; simpl. by autorewrite with go_simpl.
Qed.

End close_all.

(** ** The contracts of the methods *)

Section contracts.
Context `{ConnWorld W}.
Implicit Types (s : state W) (c conn : net_Conn) (ord : range_order).

(** C2. On a free registry [Add] returns with the mutex free again and the
    world untouched.  The map is allocated; it holds [true] under the
    connection and, under every other key, what it held before; so the
    connection has joined the members. *)
Theorem Add_returns conn s :
  mutex (reg s) = Unlocked →
  ∃ m, Add conn s = Returns () (mkState (mkConns Unlocked (Some m)) (world s)) ∧
       m !! conn = Some true ∧
       (∀ c, c ≠ conn → m !! c = conns (reg s) ≫= (.!! c)) ∧
       dom m = {[conn]} ∪ members (reg s).
Proof.
  intros Hmu. exists (<[conn := true]> (default ∅ (conns (reg s)))).
  rewrite Add_run by done. destruct_state s. split_and!.
  - done.
  - apply lookup_insert_eq.
  - intros c Hc. rewrite lookup_insert_ne by done. by destruct m.
  - rewrite dom_insert_L. unfold members; simpl. destruct m; simpl; [done|].
    by rewrite dom_empty_L.
Qed.

(** C3. On a free registry [Remove] returns with the mutex free again and the
    world untouched.  The map is nil if it was nil; it has no entry for the
    connection and, under every other key, what it held before; so the
    connection has left the members. *)
Theorem Remove_returns conn s :
  mutex (reg s) = Unlocked →
  ∃ m, Remove conn s = Returns () (mkState (mkConns Unlocked m) (world s)) ∧
       (m = None ↔ conns (reg s) = None) ∧
       m ≫= (.!! conn) = None ∧
       (∀ c, c ≠ conn → m ≫= (.!! c) = conns (reg s) ≫= (.!! c)) ∧
       members (mkConns Unlocked m) = members (reg s) ∖ {[conn]}.
Proof.
  intros Hmu. exists (delete conn <$> conns (reg s)).
  rewrite Remove_run by done. pose proof (Remove_members conn s Hmu) as Hmem.
  rewrite Remove_run in Hmem by done. destruct_state s. split_and!.
  - done.
  - by destruct m.
  - destruct m; simpl; [apply lookup_delete_eq|done].
  - intros c Hc. destruct m; simpl; [by apply lookup_delete_ne|done].
  - done.
Qed.

(** C1. On a free registry that does not hold the nil interface [CloseAll]
    returns with the mutex free and a fresh empty map, and [Close] has been
    called on the members of the registry, on each of them once, and on
    nothing else. *)
Theorem CloseAll_returns ord s :
  mutex (reg s) = Unlocked → nil_Conn ∉ members (reg s) →
  ∃ hs, CloseAll world_closer ord s =
          Returns () (mkState (mkConns Unlocked (Some ∅)) (close_each hs (world s))) ∧
        NoDup hs ∧ conn_ref <$> hs ≡ₚ elements (members (reg s)).
Proof.
  intros Hmu Hnil. exists (handles (range_keys ord (reg s))). split_and!.
  - by apply CloseAll_run.
  - auto with go.
  - rewrite handles_fmap_ref by by rewrite elem_of_range_keys.
    apply range_keys_elements.
Qed.

(** C5. When the nil interface is a member, [CloseAll] panics with a nil
    dereference when the [range] reaches it.  The members visited before
    have been closed and the others have not; the deferred [Unlock] has
    released the mutex; the map has not been replaced, so every member is
    still a member, the closed ones included. *)
Theorem CloseAll_nil_panics ord s :
  mutex (reg s) = Unlocked → nil_Conn ∈ members (reg s) →
  ∃ ks1 ks2, range_keys ord (reg s) = ks1 ++ nil_Conn :: ks2 ∧
    CloseAll world_closer ord s =
      Panics nil_dereference (set_world (close_each (handles ks1) (world s)) s).
Proof.
  intros Hmu Hnil. apply elem_of_range_keys with (ord := ord) in Hnil.
  apply list_elem_of_split in Hnil as (ks1 & ks2 & Hks).
  exists ks1, ks2. split; [done|]. by eapply CloseAll_stops_at_nil.
Qed.

(** Whatever the connections do, a method called while the mutex is held
    blocks in [Lock] and has changed nothing. *)
Theorem run_call_blocks (close : closer) ord k s :
  mutex (reg s) = Locked → run_call close ord k s = Blocks s.
Proof. intros. destruct k; by apply locked_method_blocks. Qed.

End contracts.

(** ** Exactly once *)

Section exactly_once.
Implicit Types (ord : range_order).

(** C10. In the world that counts calls: [CloseAll] raises the number of [Close]
    calls of every member by exactly one and of no other object. *)
Theorem CloseAll_closes_each_once ord (s : state (gmap handle nat)) h :
  mutex (reg s) = Unlocked → nil_Conn ∉ members (reg s) →
  count_of (world (outcome_state (CloseAll world_closer ord s))) h =
    count_of (world s) h + (if decide (conn_ref h ∈ members (reg s)) then 1 else 0).
Proof.
  intros. rewrite CloseAll_run by done. simpl.
  rewrite count_of_close_each_NoDup by auto with go.
  f_equal. apply decide_ext. by rewrite elem_of_handles, elem_of_range_keys.
Qed.

End exactly_once.

(** ** The order of the range and the nil member *)

Section nil_order.
Implicit Types (s : state (gmap handle nat)) (h : handle).

Lemma range_keys_reverse (c : Conns) :
  range_keys reverse_order c = reverse (range_keys canonical_order c).
Proof. unfold range_keys. by destruct (conns c). Qed.

(** What [CloseAll] has done to the count of [h] when it panics at the nil
    key: it has closed [h] when the [range] visits it before nil. *)
Lemma CloseAll_nil_count ord s h ks1 ks2 :
  mutex (reg s) = Unlocked → range_keys ord (reg s) = ks1 ++ nil_Conn :: ks2 →
  count_of (world (outcome_state (CloseAll world_closer ord s))) h =
    count_of (world s) h + (if decide (conn_ref h ∈ ks1) then 1 else 0).
Proof.
  intros Hmu Hks. pose proof (NoDup_range_keys ord (reg s)) as Hnd.
  rewrite Hks in Hnd. apply NoDup_app in Hnd as (Hnd & _ & _).
  rewrite (CloseAll_stops_at_nil ord s ks1 ks2) by done. simpl.
  rewrite count_of_close_each_NoDup by by apply NoDup_handles.
  f_equal. apply decide_ext, elem_of_handles.
Qed.

(** C40. Which connections [CloseAll] has closed when it panics at the nil
    key depends on the order of the [range], in every registry: a member
    is closed in exactly one of an order and its reverse. *)
Theorem CloseAll_nil_order_matters s h :
  mutex (reg s) = Unlocked →
  nil_Conn ∈ members (reg s) → conn_ref h ∈ members (reg s) →
  count_of (world (outcome_state (CloseAll world_closer canonical_order s))) h ≠
  count_of (world (outcome_state (CloseAll world_closer reverse_order s))) h.
Proof.
  intros Hmu Hnil Hh.
  apply (elem_of_range_keys canonical_order) in Hnil, Hh.
  pose proof (NoDup_range_keys canonical_order (reg s)) as Hnd.
  apply list_elem_of_split in Hnil as (ks1 & ks2 & Hks). rewrite Hks in Hh, Hnd.
  rewrite (CloseAll_nil_count canonical_order s h ks1 ks2) by done.
  rewrite (CloseAll_nil_count reverse_order s h (reverse ks2) (reverse ks1)); [|done|].
  - apply NoDup_app in Hnd as (_ & Hdisj & Hnd). apply NoDup_cons in Hnd as [_ _].
    setoid_rewrite elem_of_cons in Hdisj.
    rewrite elem_of_app, elem_of_cons in Hh. rewrite (decide_ext _ _ _ _ (elem_of_reverse _ _)).
    repeat case_decide; naive_solver lia.
  - rewrite range_keys_reverse, Hks, reverse_app, reverse_cons, <-(assoc_L (++)). done.
Qed.
End nil_order.

(** ** The invariant *)

Section invariant.
Context {W : Type}.
Implicit Types (s : state W) (close : @closer W) (ord : range_order) (k : call).

Lemma Conns_wf_insert mu m conn :
  Conns_wf (mkConns mu m) →
  Conns_wf (mkConns mu (Some (<[conn := true]> (default ∅ m)))).
Proof.
  intros [? Hm]. split; [done|]. simpl in *.
  apply map_Forall_insert_2; [done|]. destruct m; [done|apply map_Forall_empty].
Qed.

Lemma Conns_wf_delete mu m conn :
  Conns_wf (mkConns mu m) → Conns_wf (mkConns mu (delete conn <$> m)).
Proof.
  intros [? Hm]. split; [done|]. destruct m; simpl in *; [|done].
  by apply map_Forall_delete.
Qed.

(** The loop of [CloseAll] leaves the registry alone when the closer does. *)
Lemma close_loop_frame close ks s :
  closer_frame close →
  reg (outcome_state (range_loop ks (λ conn, call_Close close conn ;; mret ()) s)) = reg s.
Proof.
  intros Hf. apply (range_loop_outcome_inv (λ s', reg s' = reg s)); [|done].
  intros [|h] s' _ <-; [done|]. unfold mbind, M_bind; simpl.
  specialize (Hf h s'). by destruct (close h s').
Qed.

(** With a closer that leaves the registry alone, [CloseAll] ends with the
    mutex free when it returns or panics; it can only end with the mutex
    held when a [Close] blocks or dies. *)
Theorem CloseAll_releases_mutex close ord s :
  closer_frame close → mutex (reg s) = Unlocked →
  match CloseAll close ord s with
  | Returns _ s' => reg s' = mkConns Unlocked (Some ∅)
  | Panics _ s' => reg s' = reg s
  | Fatal _ s' | Blocks s' => reg s' = reg (set_mutex Locked s)
  end.
Proof.
  intros Hf Hmu. unfold CloseAll, mbind at 1, M_bind at 1.
  rewrite mutex_Lock_free by done. unfold defer, mbind at 1 2, M_bind at 1 2; simpl.
  pose proof (close_loop_frame close (range_keys ord (reg (set_mutex Locked s)))
                (set_mutex Locked s) Hf) as Hl.
  destruct (range_loop _ _ _) as [[] s'|p s'|e s'|s']; simpl in *; try done.
  - by destruct_state s'.
  - destruct_state s'. by destruct_state s.
Qed.

(** Every method preserves the invariant, on return and on panic, and with
    well-behaved connections no method blocks or dies when started from a
    state that satisfies it. *)
Lemma run_call_wf `{ConnWorld W} ord k s :
  Conns_wf (reg s) →
  match run_call world_closer ord k s with
  | Returns _ s' | Panics _ s' => Conns_wf (reg s')
  | Fatal _ _ | Blocks _ => False
  end.
Proof.
  intros Hwf. pose proof Hwf as [Hmu _]. destruct k as [conn|conn|]; simpl.
  - rewrite Add_run by done. destruct_state s. by apply Conns_wf_insert.
  - rewrite Remove_run by done. destruct_state s. by apply Conns_wf_delete.
  - destruct (decide (nil_Conn ∈ members (reg s))) as [Hnil|Hnil].
    + destruct (CloseAll_nil_member ord s Hmu Hnil) as (s' & -> & ->). done.
    + rewrite CloseAll_run by done. split; [done|apply map_Forall_empty].
Qed.

(** C7. The invariant holds after any sequence of calls, whether the sequence
    returns or a call of it panics, and no call of it blocks or dies. *)
Theorem run_calls_preserve_wf `{ConnWorld W} ord (ks : list call) s :
  Conns_wf (reg s) →
  match run_calls world_closer ord ks s with
  | Returns _ s' | Panics _ s' => Conns_wf (reg s')
  | Fatal _ _ | Blocks _ => False
  end.
Proof.
  revert s. induction ks as [|k ks IH]; intros s Hwf; [done|].
  unfold run_calls in *. cbn [range_loop]. unfold mbind, M_bind.
  pose proof (run_call_wf ord k s Hwf) as Hk.
  destruct (run_call world_closer ord k s); try done. by apply IH.
Qed.

End invariant.

(** ** Re-entrancy *)

Section reentrancy.
Context {W : Type}.
Implicit Types (s : state W) (ord : range_order).

Lemma reentrant_closer_blocks h s :
  mutex (reg s) = Locked → reentrant_closer h s = Blocks s.
Proof.
  intros. unfold reentrant_closer, mbind, M_bind. by rewrite Remove_blocks.
Qed.

(** Such a connection takes the mutex and releases it again, or blocks. *)
#[export] Instance reentrant_closer_keeps_mutex : KeepsMutex (@reentrant_closer W).
Proof. intros h s. destruct_state s. by destruct mu. Qed.

(** C16. [CloseAll] over such connections deadlocks at the first one: [Close]
    calls [Remove], which blocks in [Lock] on the mutex [CloseAll] holds.
    Nothing has been closed or removed, and the mutex stays held. *)
Theorem CloseAll_reentrant_deadlock ord s :
  mutex (reg s) = Unlocked → nil_Conn ∉ members (reg s) → members (reg s) ≠ ∅ →
  CloseAll reentrant_closer ord s = Blocks (set_mutex Locked s).
Proof.
  intros Hmu Hnil Hne. unfold CloseAll, mbind at 1, M_bind at 1.
  rewrite mutex_Lock_free by done. apply defer_blocks.
  unfold mbind at 1, M_bind at 1; simpl.
  destruct (range_keys ord _) as [|[|h] ks] eqn:Hks.
  - destruct Hne. apply set_eq; intros c.
    rewrite <-(elem_of_range_keys ord). unfold range_keys in *; simpl in *.
    rewrite Hks. set_solver.
  - destruct Hnil. rewrite <-(elem_of_range_keys ord).
    unfold range_keys in *; simpl in *. rewrite Hks. set_solver.
  - cbn [range_loop call_Close]. unfold mbind, M_bind.
    by rewrite reentrant_closer_blocks.
Qed.

End reentrancy.

(** ** The error of [Close] *)

Section errors.
Context {W : Type}.
Implicit Types (close : @closer W) (s : state W).

(** [CloseAll] uses of a [Close] only what it does to the state: closers
    that differ in the errors they return give the same [CloseAll]. *)
Lemma CloseAll_proper close1 close2 ord :
  (∀ h, (close1 h ;; mret ()) ≡ (close2 h ;; mret ())) →
  CloseAll close1 ord ≡ CloseAll close2 ord.
Proof.
  intros Hclose. unfold CloseAll.
  apply mbind_proper; [intros []|done]. apply defer_proper; [done|].
  apply mbind_proper; [intros ks|done].
  apply mbind_proper; [by intros []|]. apply range_loop_proper.
  intros [|h]; [done|apply Hclose].
Qed.

(** C35. The error [conn.Close()] returns is discarded (line 72): on every
    state and for every order of the [range], [CloseAll] has the same
    outcome whether the calls of [Close] report success or fail with an
    error.  A [Close] that fails does not stop the loop, and the caller
    of [CloseAll] does not learn of the failure. *)
Theorem CloseAll_discards_error close ord (e : error) :
  CloseAll (failing_closer close e) ord ≡ CloseAll close ord.
Proof.
  apply CloseAll_proper. intros h s.
  unfold failing_closer, mbind, M_bind. by destruct (close h s).
Qed.

End errors.

(** ** Ready states *)

(** The zero value of [Conns] is ready for use. *)
Lemma zero_Conns_ready {W} (w : W) : Conns_ready (mkState zero_Conns w).
Proof. split; [done|]. unfold members; simpl. set_solver. Qed.

(** ** The registry implements its contract *)

Section refinement.
Context `{ConnWorld W} `{!ConnWorldComm W} (ord : range_order).
Implicit Types (s : state W) (k : call).

(** The members after a call from a ready state are those of the abstract
    registry, and so is the world. *)
Lemma run_call_abs k s :
  call_ok k → Conns_ready s →
  run_call world_closer ord k s =
    Returns () (outcome_state (run_call world_closer ord k s)) ∧
  Conns_abs (outcome_state (run_call world_closer ord k s)) = spec_step k (Conns_abs s).
Proof.
  intros Hk [[Hmu _] Hnil]. unfold Conns_abs. destruct k as [conn|conn|]; simpl.
  - by rewrite Add_members, Add_run.
  - by rewrite Remove_members, Remove_run.
  - rewrite CloseAll_run by done. split; [done|]. simpl. f_equal.
    apply close_each_perm; [auto with go|].
    apply handles_perm, range_keys_elements.
Qed.

(** Each method, called in a ready state with a connection that is not the
    nil interface, returns in a ready state and acts on the members and on
    the world as the abstract registry does. *)
Lemma Conns_refines : RegistryCorrect W (state W) (RegistryImpl0 := Conns_impl ord).
Proof.
  intros k s Hk Hs. destruct (run_call_abs k s Hk Hs) as [Hrun Habs].
  exists (outcome_state (run_call world_closer ord k s)).
  split; [done|]. split; [|done]. split.
  - pose proof (run_call_wf ord k s (proj1 Hs)) as Hwf.
    simpl in Hrun. by rewrite Hrun in Hwf.
  - apply (f_equal fst) in Habs. simpl in Habs. rewrite Habs.
    destruct Hs as [_ Hnil]. unfold call_ok in Hk.
    destruct k; simpl; set_solver.
Qed.

End refinement.

(** ** Consequences for [Conns] *)

Section conns_clients.
Context `{ConnWorld W} `{!ConnWorldComm W} (ord : range_order).
Implicit Types (s : state W) (ks : list call).

(** Calls that return from a ready state have left the registry ready,
    with the members and the world the abstract registry computes. *)
Lemma run_calls_abs ks s s' :
  Conns_ready s → Forall call_ok ks →
  run_calls world_closer ord ks s = Returns () s' →
  Conns_ready s' ∧ Conns_abs s' = spec_run ks (Conns_abs s).
Proof.
  intros Hs Hks Hrun.
  destruct (calls_refine (RegistryCorrect0 := Conns_refines ord) ks s Hks Hs)
    as (s1 & Hrun1 & Hs1 & Habs).
  change (run_calls world_closer ord ks s = Returns () s1) in Hrun1.
  by assert (s1 = s') as -> by congruence.
Qed.

(** C6. Any sequence of calls on [Conns], none of which adds the nil interface,
    started in a ready state, returns in a ready state, and its members and
    world are those the abstract registry computes. *)
Theorem Conns_calls_refine ks s :
  Forall call_ok ks → Conns_ready s →
  ∃ s', run_calls world_closer ord ks s = Returns () s' ∧ Conns_ready s' ∧
        Conns_abs s' = spec_run ks (Conns_abs s).
Proof. apply (calls_refine (RegistryCorrect0 := Conns_refines ord)). Qed.

(** After any sequence of calls, a connection is a member of [Conns]
    exactly when the last call that concerns it was an [Add], or no call
    concerned it and it was a member before. *)
Theorem Conns_member_after conn ks s :
  Forall call_ok ks → Conns_ready s →
  conn ∈ members (reg (outcome_state (run_calls world_closer ord ks s))) ↔
  member_after conn ks (bool_decide (conn ∈ members (reg s))) = true.
Proof.
  intros Hks Hs.
  destruct (impl_member_after (RegistryCorrect0 := Conns_refines ord) conn ks s Hks Hs)
    as (s' & Hrun & Hmem).
  unfold run_calls. simpl in Hrun. by rewrite Hrun.
Qed.

(** [n] calls of [Add] with pairwise distinct connections on the zero value
    of [Conns] leave exactly [n] members. *)
Theorem Conns_distinct_adds (cs : list net_Conn) (w : W) :
  NoDup cs → nil_Conn ∉ cs →
  size (members (reg (outcome_state
    (run_calls world_closer ord (call_Add <$> cs) (mkState zero_Conns w))))) = length cs.
Proof.
  intros Hnd Hnil.
  destruct (impl_distinct_adds (RegistryCorrect0 := Conns_refines ord) cs
              (mkState zero_Conns w) Hnd Hnil) as (s' & Hrun & Hsize); [|done|].
  { apply zero_Conns_ready. }
  unfold run_calls. simpl in Hrun. by rewrite Hrun.
Qed.

(** C31. When no connection is added again after it was removed and [CloseAll]
    is not called, the members in the end are the initial and the added
    ones minus the removed ones. *)
Theorem Conns_added_minus_removed ks s :
  Forall call_ok ks → Conns_ready s → call_CloseAll ∉ ks → no_readd ks →
  members (reg (outcome_state (run_calls world_closer ord ks s))) =
    (members (reg s) ∪ added ks) ∖ removed ks.
Proof.
  intros Hks Hs Hca Hre.
  destruct (calls_refine (RegistryCorrect0 := Conns_refines ord) ks s Hks Hs)
    as (s' & Hrun & _ & Habs).
  unfold run_calls. simpl in Hrun. rewrite Hrun. simpl.
  apply (f_equal fst) in Habs. simpl in Habs. rewrite Habs.
  by apply spec_run_added_minus_removed.
Qed.

(** C39. The side condition cannot be dropped: whenever a connection that was
    removed is a member in the end, because it was added again, the
    members are not the initial and added connections minus the removed
    ones. *)
Theorem Conns_readd conn ks s :
  Forall call_ok ks → Conns_ready s →
  conn ∈ removed ks →
  member_after conn ks (bool_decide (conn ∈ members (reg s))) = true →
  members (reg (outcome_state (run_calls world_closer ord ks s))) ≠
    (members (reg s) ∪ added ks) ∖ removed ks.
Proof.
  intros Hks Hs Hrem Hafter Heq.
  apply (Conns_member_after conn ks s Hks Hs) in Hafter.
  rewrite Heq in Hafter. set_solver.
Qed.
End conns_clients.

(** ** The theorems at concrete inputs *)

Section witnesses.
Abbreviation counts := (gmap handle nat).
Abbreviation log := (list handle).

Lemma two_conns_ready {W} (w : W) : Conns_ready (mkState two_conns w).
Proof. split; [by split; compute_done|]. compute_done. Defined.

(** A connection added, removed and added again is a member, although it
    is among the removed ones: without the side condition of
    [Conns_added_minus_removed] the members are not the added minus the
    removed connections. *)
Example readd_counterexample :
  elements (members (reg (outcome_state
    (run_calls world_closer canonical_order readd_calls
       (mkState zero_Conns ([] : log)))))) = [conn_a] ∧
  elements (added readd_calls ∖ removed readd_calls) = [].
Proof. by vm_compute. Qed.

(** With the nil interface among the members, what [CloseAll] has closed
    when it panics depends on the order of the [range]: in one order both
    connections are closed, in the reverse order none is, and in both the
    registry still holds all three members. *)
Example CloseAll_nil_order_dependent :
  CloseAll world_closer canonical_order (mkState with_nil ([] : log)) =
    Panics nil_dereference (mkState with_nil [2; 1]%positive) ∧
  CloseAll world_closer reverse_order (mkState with_nil ([] : log)) =
    Panics nil_dereference (mkState with_nil []).
Proof. by vm_compute. Qed.

Lemma Conns_readd_witness :
  members (reg (outcome_state
    (run_calls world_closer canonical_order readd_calls
       (mkState zero_Conns (∅ : counts))))) ≠
    (members zero_Conns ∪ added readd_calls) ∖ removed readd_calls.
Proof.
  apply (Conns_readd canonical_order conn_a readd_calls (mkState zero_Conns ∅));
    [repeat constructor; by intros ?|apply zero_Conns_ready|compute_done|done].
Defined.

Lemma CloseAll_nil_order_matters_witness :
  count_of (world (outcome_state
    (CloseAll world_closer canonical_order (mkState with_nil (∅ : gmap handle nat)))))
    1%positive ≠
  count_of (world (outcome_state
    (CloseAll world_closer reverse_order (mkState with_nil (∅ : gmap handle nat)))))
    1%positive.
Proof.
  apply (CloseAll_nil_order_matters (mkState with_nil ∅) 1%positive);
    [done|compute_done..].
Defined.

Lemma Add_returns_witness :
  ∃ m, Add conn_a (mkState zero_Conns ([] : log)) =
         Returns () (mkState (mkConns Unlocked (Some m)) []) ∧
       m !! conn_a = Some true ∧
       (∀ c, c ≠ conn_a → m !! c = conns zero_Conns ≫= (.!! c)) ∧
       dom m = {[conn_a]} ∪ members zero_Conns.
Proof. exact (Add_returns conn_a (mkState zero_Conns []) eq_refl). Defined.

Lemma Remove_returns_witness :
  ∃ m, Remove conn_a (mkState two_conns ([] : log)) =
         Returns () (mkState (mkConns Unlocked m) []) ∧
       (m = None ↔ conns two_conns = None) ∧
       m ≫= (.!! conn_a) = None ∧
       (∀ c, c ≠ conn_a → m ≫= (.!! c) = conns two_conns ≫= (.!! c)) ∧
       members (mkConns Unlocked m) = members two_conns ∖ {[conn_a]}.
Proof. exact (Remove_returns conn_a (mkState two_conns []) eq_refl). Defined.

Lemma CloseAll_returns_witness :
  ∃ hs, CloseAll world_closer canonical_order (mkState two_conns ([] : log)) =
          Returns () (mkState (mkConns Unlocked (Some ∅)) (close_each hs [])) ∧
        NoDup hs ∧ conn_ref <$> hs ≡ₚ elements (members two_conns).
Proof.
  apply (CloseAll_returns canonical_order (mkState two_conns [])); [done|compute_done].
Defined.

Lemma CloseAll_nil_panics_witness :
  ∃ ks1 ks2, range_keys canonical_order with_nil = ks1 ++ nil_Conn :: ks2 ∧
    CloseAll world_closer canonical_order (mkState with_nil ([] : log)) =
      Panics nil_dereference
        (set_world (close_each (handles ks1) []) (mkState with_nil [])).
Proof.
  apply (CloseAll_nil_panics canonical_order (mkState with_nil [])); [done|compute_done].
Defined.

Lemma run_call_blocks_witness :
  run_call world_closer canonical_order call_CloseAll
    (mkState (mkConns Locked None) ([] : log)) = Blocks (mkState (mkConns Locked None) []).
Proof. by apply run_call_blocks. Defined.

Lemma CloseAll_closes_each_once_witness :
  count_of (world (outcome_state
    (CloseAll world_closer canonical_order (mkState two_conns (∅ : counts))))) 1%positive =
  count_of ∅ 1%positive + (if decide (conn_a ∈ members two_conns) then 1 else 0).
Proof.
  apply (CloseAll_closes_each_once canonical_order (mkState two_conns ∅) 1%positive);
    [done|compute_done].
Defined.

Lemma CloseAll_order_irrelevant_witness :
  CloseAll world_closer canonical_order (mkState two_conns (∅ : counts)) =
  CloseAll world_closer reverse_order (mkState two_conns ∅).
Proof. apply CloseAll_order_irrelevant; [done|compute_done]. Defined.

Lemma CloseAll_twice_witness :
  (CloseAll world_closer canonical_order ;; CloseAll world_closer canonical_order)
    (mkState two_conns ([] : log)) =
  CloseAll world_closer canonical_order (mkState two_conns []).
Proof. apply CloseAll_twice; [done|compute_done]. Defined.

Lemma CloseAll_reentrant_deadlock_witness :
  CloseAll reentrant_closer canonical_order (mkState two_conns ([] : log)) =
    Blocks (set_mutex Locked (mkState two_conns [])).
Proof. apply CloseAll_reentrant_deadlock; [done|compute_done..]. Defined.

Lemma world_closer_frame `{ConnWorld W} : closer_frame (world_closer (W := W)).
Proof. intros h s. unfold world_closer. by destruct (world_Close h (world s)). Defined.

Lemma CloseAll_releases_mutex_witness :
  match CloseAll world_closer canonical_order (mkState two_conns ([] : log)) with
  | Returns _ s' => reg s' = mkConns Unlocked (Some ∅)
  | Panics _ s' => reg s' = reg (mkState two_conns ([] : log))
  | Fatal _ s' | Blocks s' => reg s' = reg (set_mutex Locked (mkState two_conns ([] : log)))
  end.
Proof. apply CloseAll_releases_mutex; [apply world_closer_frame|done]. Defined.

Lemma Add_idempotent_witness :
  (Add conn_a ;; Add conn_a) (mkState zero_Conns ([] : log)) =
  Add conn_a (mkState zero_Conns []).
Proof. by apply Add_idempotent. Defined.

Lemma Remove_absent_noop_witness :
  Remove conn_a (mkState zero_Conns ([] : log)) = Returns () (mkState zero_Conns []).
Proof. apply Remove_absent_noop; [done|compute_done]. Defined.

Lemma Add_Remove_members_witness :
  members (reg (outcome_state
    ((Add conn_a ;; Remove conn_a) (mkState zero_Conns ([] : log))))) = members zero_Conns.
Proof. apply Add_Remove_members; [done|compute_done]. Defined.

Lemma run_calls_preserve_wf_witness :
  match run_calls world_closer canonical_order readd_calls (mkState zero_Conns ([] : log)) with
  | Returns _ s' | Panics _ s' => Conns_wf (reg s')
  | Fatal _ _ | Blocks _ => False
  end.
Proof. by apply run_calls_preserve_wf. Defined.

Lemma readd_calls_ok : Forall call_ok readd_calls.
Proof. repeat constructor; by intros ?. Defined.

Lemma Conns_calls_refine_witness :
  ∃ s', run_calls world_closer canonical_order readd_calls (mkState zero_Conns (∅ : counts)) =
          Returns () s' ∧ Conns_ready s' ∧
        Conns_abs s' = spec_run readd_calls (Conns_abs (mkState zero_Conns ∅)).
Proof. apply Conns_calls_refine; [apply readd_calls_ok|apply zero_Conns_ready]. Defined.

Lemma Conns_member_after_witness :
  conn_a ∈ members (reg (outcome_state
    (run_calls world_closer canonical_order readd_calls (mkState zero_Conns (∅ : counts))))) ↔
  member_after conn_a readd_calls (bool_decide (conn_a ∈ members zero_Conns)) = true.
Proof.
  apply (Conns_member_after canonical_order conn_a readd_calls (mkState zero_Conns ∅));
    [apply readd_calls_ok|apply zero_Conns_ready].
Defined.

Lemma Conns_added_minus_removed_witness :
  members (reg (outcome_state
    (run_calls world_closer canonical_order [call_Add conn_a; call_Remove conn_b]
       (mkState two_conns (∅ : counts))))) =
  (members two_conns ∪ added [call_Add conn_a; call_Remove conn_b]) ∖
    removed [call_Add conn_a; call_Remove conn_b].
Proof.
  apply (Conns_added_minus_removed canonical_order [call_Add conn_a; call_Remove conn_b]
           (mkState two_conns ∅)).
  - repeat constructor; by intros ?.
  - apply two_conns_ready.
  - compute_done.
  - split; [compute_done|done].
Defined.

Lemma Conns_distinct_adds_witness :
  size (members (reg (outcome_state
    (run_calls world_closer canonical_order (call_Add <$> [conn_a; conn_b])
       (mkState zero_Conns (∅ : counts)))))) = length [conn_a; conn_b].
Proof.
  apply (Conns_distinct_adds canonical_order [conn_a; conn_b] ∅); [|compute_done].
  by apply NoDup_cons_2; [compute_done|apply NoDup_singleton].
Defined.

(** [CloseAll] over two connections whose [Close] fails closes both and
    empties the registry. *)
Example CloseAll_failing_closes :
  CloseAll (failing_closer world_closer reset_by_peer) canonical_order
           (mkState two_conns (∅ : gmap handle nat)) =
    Returns () (mkState (mkConns Unlocked (Some ∅)) {[1%positive := 1; 2%positive := 1]}).
Proof. by vm_compute. Qed.

End witnesses.
