(* ===== verification/Snapshot.v ===== *)
(** * Snapshot: [CloseAll] as the specification describes it

    The specification lets [CloseAll] capture the members and clear the
    registry under the lock, release the lock, and only then call [Close]
    on the captured connections.  [CloseAll] of [src/psiphon/conn.go]
    (lines 68-75) calls [Close] while it holds the lock and replaces the
    map afterwards.  This file states the design of the specification with
    the statements of [Registry], and shows where the two agree and where
    they differ. *)

From S2P Require Import Prelude GoSem Net RegistrySpec Registry.

(** ** The design of the specification *)

Section snapshot.
Context {W : Type}.

(** Under the lock: list the keys and install a fresh map; the deferred
    [Unlock] runs before the keys are handed to the caller. *)
Definition take_all (ord : range_order) : M (state W) (list net_Conn) :=
  mutex_Lock ;;
  defer mutex_Unlock (ks ← conns_range ord; conns_make ;; mret ks).

(** Capture and clear, then close what was captured, outside the critical
    section. *)
Definition CloseAll_snapshot (close : closer) (ord : range_order) : M (state W) () :=
  ks ← take_all ord;
  range_loop ks (λ conn, call_Close close conn ;; mret ()).

(** The methods of the design: [Add] and [Remove] are those of [conn.go]. *)
Definition run_call_snapshot (close : closer) (ord : range_order) (k : call) :
    M (state W) () :=
  match k with
  | call_Add conn => Add conn
  | call_Remove conn => Remove conn
  | call_CloseAll => CloseAll_snapshot close ord
  end.

Definition run_calls_snapshot (close : closer) (ord : range_order) (ks : list call) :
    M (state W) () :=
  range_loop ks (run_call_snapshot close ord).

End snapshot.

(** The design as an implementation of [RegistrySpec], with the ready
    states and the abstraction of [Conns]. *)
Definition Snapshot_impl `{ConnWorld W} (ord : range_order) : RegistryImpl W (state W) :=
  {| impl_run := run_call_snapshot world_closer ord;
     impl_ready := Conns_ready;
     impl_abs := Conns_abs |}.

(** ** Capturing the members *)

Section take_all.
Context {W : Type}.
Implicit Types (s : state W) (ord : range_order).

Lemma take_all_run ord s :
  mutex (reg s) = Unlocked →
  take_all ord s =
    Returns (range_keys ord (reg s)) (mkState (mkConns Unlocked (Some ∅)) (world s)).
Proof.
  intros Hmu. unfold take_all, mbind at 1, M_bind at 1.
  rewrite mutex_Lock_free by done. eapply defer_returns; [done|by destruct_state s].
Qed.

Lemma take_all_blocks ord s : mutex (reg s) = Locked → take_all ord s = Blocks s.
Proof. intros Hmu. unfold take_all, mbind, M_bind. by rewrite mutex_Lock_held. Qed.

(** A connection that removes itself when it is closed finds the registry
    free and empty once the members have been captured. *)
Lemma reentrant_loop_returns ks (w : W) :
  nil_Conn ∉ ks →
  range_loop ks (λ conn, call_Close reentrant_closer conn ;; mret ())
    (mkState (mkConns Unlocked (Some ∅)) w) =
  Returns () (mkState (mkConns Unlocked (Some ∅)) w).
Proof.
  induction ks as [|[|h] ks IH]; intros Hnil; [done|set_solver|].
  cbn [range_loop call_Close]. unfold reentrant_closer, mbind, M_bind in *.
  rewrite Remove_run by done. cbn. rewrite delete_empty. apply IH. set_solver.
Qed.

End take_all.

(** ** The two designs compared *)

Section compare.
Context `{ConnWorld W}.
Implicit Types (s : state W) (ord : range_order).

(** With well-behaved connections and a caller that has the registry to
    itself, the design of the specification and the method of [conn.go]
    have the same outcome: the same connections closed in the same order,
    the registry empty and the mutex free. *)
Lemma CloseAll_snapshot_equiv ord s :
  mutex (reg s) = Unlocked → nil_Conn ∉ members (reg s) →
  CloseAll_snapshot world_closer ord s = CloseAll world_closer ord s.
Proof.
  intros Hmu Hnil. rewrite CloseAll_run by done.
  unfold CloseAll_snapshot, mbind at 1, M_bind at 1. rewrite take_all_run by done.
  rewrite close_loop_returns; [done|]. by rewrite elem_of_range_keys.
Qed.

Lemma run_call_snapshot_ready ord k s :
  Conns_ready s → run_call_snapshot world_closer ord k s = run_call world_closer ord k s.
Proof.
  intros [[Hmu _] Hnil]. destruct k; simpl; [done..|]. by apply CloseAll_snapshot_equiv.
Qed.

(** The two designs differ when the nil interface is a member.  Both
    panic at that key with the same connections closed, but the design of
    the specification has emptied the registry by then, while [CloseAll]
    of [conn.go] leaves every member in place. *)
Theorem CloseAll_snapshot_nil ord s :
  mutex (reg s) = Unlocked → nil_Conn ∈ members (reg s) →
  ∃ w, CloseAll world_closer ord s = Panics nil_dereference (mkState (reg s) w) ∧
       CloseAll_snapshot world_closer ord s =
         Panics nil_dereference (mkState (mkConns Unlocked (Some ∅)) w).
Proof.
  intros Hmu Hin. apply elem_of_range_keys with (ord := ord) in Hin.
  apply list_elem_of_split in Hin as (ks1 & ks2 & Hks).
  exists (close_each (handles ks1) (world s)).
  pose proof (NoDup_range_keys ord (reg s)) as Hnd.
  rewrite Hks in Hnd. apply NoDup_app in Hnd as (_ & Hnil & _).
  split; [by eapply CloseAll_stops_at_nil|].
  unfold CloseAll_snapshot, mbind at 1, M_bind at 1. rewrite take_all_run, Hks by done.
  rewrite close_loop_panics; [done|]. intros ?. eapply Hnil; [done|set_solver].
Qed.

End compare.

(** ** The design implements the abstract registry *)

Section snapshot_refines.
Context `{ConnWorld W} `{!ConnWorldComm W} (ord : range_order).
Implicit Types (s : state W) (ks : list call).

(** The design discharges the interface of [RegistrySpec], so the client
    theorems proved against the interface hold of it as well. *)
Lemma Snapshot_refines : RegistryCorrect W (state W) (RegistryImpl0 := Snapshot_impl ord).
Proof.
  intros k s Hk Hs. simpl. rewrite run_call_snapshot_ready by done.
  by apply (Conns_refines ord).
Qed.

(** C24. On every sequence of calls from a ready registry, with well-behaved
    connections and no nil interface added, the design of the
    specification and the methods of [conn.go] have the same outcome, and
    it is the one the abstract registry computes. *)
Theorem Snapshot_calls_equiv ks s :
  Forall call_ok ks → Conns_ready s →
  ∃ s', run_calls_snapshot world_closer ord ks s = Returns () s' ∧
        run_calls world_closer ord ks s = Returns () s' ∧
        Conns_abs s' = spec_run ks (Conns_abs s).
Proof.
  intros Hks Hs.
  destruct (calls_refine (RegistryCorrect0 := Conns_refines ord) ks s Hks Hs)
    as (s' & Hrun & _ & Habs).
  exists s'. split_and!; [|done..]. rewrite <-Hrun. clear Hrun Habs. revert s Hs.
  induction Hks as [|k ks Hk Hks IH]; intros s Hs; [done|].
  unfold run_calls_snapshot. simpl. unfold mbind, M_bind.
  rewrite run_call_snapshot_ready by done.
  destruct (Conns_refines ord k s Hk Hs) as (s1 & Hk1 & Hs1 & _).
  simpl in Hk1. rewrite Hk1. by apply IH.
Qed.

End snapshot_refines.

(** The two designs differ on connections whose [Close] calls back into
    the registry: where [CloseAll] of [conn.go] blocks at the first such
    connection with the mutex held, the design of the specification
    returns with the registry empty and the mutex free. *)
Theorem CloseAll_snapshot_reentrant {W} ord (s : state W) :
  mutex (reg s) = Unlocked → nil_Conn ∉ members (reg s) →
  CloseAll_snapshot reentrant_closer ord s =
    Returns () (mkState (mkConns Unlocked (Some ∅)) (world s)).
Proof.
  intros Hmu Hnil. unfold CloseAll_snapshot, mbind at 1, M_bind at 1.
  rewrite take_all_run by done. apply reentrant_loop_returns.
  by rewrite elem_of_range_keys.
Qed.

(** ** The theorems at concrete inputs *)

Section snapshot_witnesses.

Lemma Snapshot_calls_equiv_witness :
  ∃ s', run_calls_snapshot world_closer canonical_order
          [call_Add conn_a; call_CloseAll; call_Add conn_b]
          (mkState zero_Conns (∅ : gmap handle nat)) = Returns () s' ∧
        run_calls world_closer canonical_order
          [call_Add conn_a; call_CloseAll; call_Add conn_b]
          (mkState zero_Conns (∅ : gmap handle nat)) = Returns () s' ∧
        Conns_abs s' =
          spec_run [call_Add conn_a; call_CloseAll; call_Add conn_b]
            (Conns_abs (mkState zero_Conns (∅ : gmap handle nat))).
Proof.
  apply Snapshot_calls_equiv; [repeat constructor; by intros ?|apply zero_Conns_ready].
Defined.

Lemma CloseAll_snapshot_nil_witness :
  ∃ w, CloseAll world_closer canonical_order (mkState with_nil (∅ : gmap handle nat)) =
         Panics nil_dereference (mkState with_nil w) ∧
       CloseAll_snapshot world_closer canonical_order (mkState with_nil ∅) =
         Panics nil_dereference (mkState (mkConns Unlocked (Some ∅)) w).
Proof.
  apply (CloseAll_snapshot_nil canonical_order (mkState with_nil ∅)); [done|compute_done].
Defined.

Lemma CloseAll_snapshot_reentrant_witness :
  CloseAll_snapshot reentrant_closer canonical_order
    (mkState two_conns (∅ : gmap handle nat)) =
    Returns () (mkState (mkConns Unlocked (Some ∅)) ∅).
Proof. apply (CloseAll_snapshot_reentrant canonical_order); [done|compute_done]. Defined.

End snapshot_witnesses.
