(* ===== verification/ClosedSignal.v ===== *)
(** * ClosedSignal: the [Conn] interface and closeable connections

    [Conn] of [src/psiphon/conn.go] (lines 30-43) as a type class, the
    contract its comment states, and the closeable connection of the
    specification: an object that is Open or Closed, with at most one
    channel armed to receive a signal when it closes.  The implementing
    types are not part of [conn.go]; the implementation here follows the
    specification. *)

From stdpp Require Import strings.
From S2P Require Import Prelude GoSem Net RegistrySpec Registry.

(** ** Channels *)

(** The identity of a channel. *)
Definition chan : Type := positive.

(** A [chan struct{}] carries no data: its state is its capacity and the
    number of elements buffered in it. *)
Record chan_state : Type := mkChan {
  chan_cap : nat;
  chan_len : nat;
}.

#[export] Instance chan_state_eq_dec : EqDecision chan_state.
Proof. solve_decision. Defined.

(** [select { case ch <- struct{}{}: default: }]: the element is buffered
    when there is room and dropped otherwise; the sender never blocks. *)
Definition try_send (c : chan_state) : chan_state :=
  if decide (chan_len c < chan_cap c) then mkChan (chan_cap c) (S (chan_len c)) else c.

(** ** The interface *)

(** [type Conn interface { net.Conn; SetClosedSignal(closedSignal chan
    struct{}) (err error) }], over a world [W] of connection objects: the
    [Close] inherited from [net.Conn] and [SetClosedSignal]. *)
Class Conn (W : Type) : Type := {
  Conn_Close : handle → M W (option error);
  SetClosedSignal : handle → chan → M W (option error);
}.

(** The contract of the interface: with [is_closed] telling which objects
    are closed, [SetClosedSignal] fails on a closed connection and changes
    nothing, and succeeds on an open one without closing anything; [Close]
    returns, closes its connection and no other, and a closed connection
    never reopens. *)
Class ConnContract (W : Type) `{Conn W} (is_closed : W → handle → bool) : Prop := {
  contract_set_closed h ch w :
    is_closed w h = true → ∃ e, SetClosedSignal h ch w = Returns (Some e) w;
  contract_set_open h ch w :
    is_closed w h = false →
    ∃ w', SetClosedSignal h ch w = Returns None w' ∧
          ∀ h', is_closed w' h' = is_closed w h';
  contract_close h w :
    ∃ e w', Conn_Close h w = Returns e w' ∧
            ∀ h', is_closed w' h' = if decide (h' = h) then true else is_closed w h';
}.

(** Any implementation of [Conn] gives the registry a world to act on. *)
Definition Conn_world `{Conn W} : ConnWorld W := λ h w,
  (default None (returned (Conn_Close h w)), outcome_state (Conn_Close h w)).

(** ** The closeable connection of the specification *)

(** A connection object: whether it is closed, and the channel armed to be
    signalled when it closes. *)
Record conn_state : Type := mkConn {
  conn_closed : bool;
  conn_signal : option chan;
}.

#[export] Instance conn_state_eq_dec : EqDecision conn_state.
Proof. solve_decision. Defined.

(** A connection starts Open with no channel armed. *)
Definition fresh_conn : conn_state := mkConn false None.

(** The connection objects and the channels. *)
Record conn_world : Type := mkWorld {
  objs : gmap handle conn_state;
  chans : gmap chan chan_state;
}.

Definition obj (w : conn_world) (h : handle) : conn_state :=
  default fresh_conn (objs w !! h).

Definition is_closed (w : conn_world) (h : handle) : bool := conn_closed (obj w h).

(** The number of signals buffered in a channel. *)
Definition signals (w : conn_world) (ch : chan) : nat :=
  from_option chan_len 0 (chans w !! ch).

(** The error [SetClosedSignal] returns on a closed connection. *)
Definition AlreadyClosedError : error := "connection already closed"%string.

(** The world after a successful [SetClosedSignal]: the channel replaces
    the one armed before, if any. *)
Definition arm (h : handle) (ch : chan) (w : conn_world) : conn_world :=
  mkWorld (<[h := mkConn false (Some ch)]> (objs w)) (chans w).

(** The non-blocking send to the armed channel, if there is one. *)
Definition signal (o : option chan) (cs : gmap chan chan_state) : gmap chan chan_state :=
  from_option (λ ch, alter try_send ch cs) cs o.

(** The world after [Close]: Open becomes Closed and the armed channel is
    sent one signal; on a Closed connection nothing happens. *)
Definition shut (h : handle) (w : conn_world) : conn_world :=
  if is_closed w h then w
  else mkWorld (<[h := mkConn true (conn_signal (obj w h))]> (objs w))
               (signal (conn_signal (obj w h)) (chans w)).

(** [SetClosedSignal]: arm the channel while Open; fail, changing nothing,
    when Closed. *)
Definition closeable_SetClosedSignal (h : handle) (ch : chan) : M conn_world (option error) :=
  w ← get;
  if is_closed w h then mret (Some AlreadyClosedError)
  else put (arm h ch w) ;; mret None.

(** [Close]: always returns the nil error, without blocking. *)
Definition closeable_Close (h : handle) : M conn_world (option error) :=
  modify (shut h) ;; mret None.

#[export] Instance closeable_Conn : Conn conn_world := {|
  Conn_Close := closeable_Close;
  SetClosedSignal := closeable_SetClosedSignal;
|}.

#[export] Instance closeable_world : ConnWorld conn_world := Conn_world.

(** ** Calls through the interface *)

(** A call a goroutine makes on a connection. *)
Inductive conn_call : Type :=
| do_Close (h : handle)
| do_SetClosedSignal (h : handle) (ch : chan).

Definition run_conn_call `{Conn W} (k : conn_call) : M W (option error) :=
  match k with
  | do_Close h => Conn_Close h
  | do_SetClosedSignal h ch => SetClosedSignal h ch
  end.

(** Calls made one after the other, their errors discarded. *)
Definition run_conn_calls `{Conn W} (ks : list conn_call) : M W () :=
  range_loop ks (λ k, run_conn_call k ;; mret ()).

(** The connection a call closes, if any. *)
Definition closes (k : conn_call) (h : handle) : bool :=
  match k with do_Close h' => bool_decide (h = h') | do_SetClosedSignal _ _ => false end.

(** ** Accounting for signals *)

(** The number of connections that are closed. *)
Definition closed_count (w : conn_world) : nat :=
  size (filter (λ p, conn_closed p.2 = true) (objs w)).

(** The capacity of a channel. *)
Definition room (w : conn_world) (ch : chan) : nat :=
  from_option chan_cap 0 (chans w !! ch).

(** What a call through the interface does to the world of closeable
    connections. *)
Definition conn_step (w : conn_world) (k : conn_call) : conn_world :=
  match k with
  | do_Close h => shut h w
  | do_SetClosedSignal h ch => if is_closed w h then w else arm h ch w
  end.

(** [later w w']: from [w] to [w'] connections were closed and none
    reopened, channels kept their capacity and the signals buffered in
    them, and each channel received at most one signal for each
    connection closed, and none beyond its capacity. *)
Definition later (w w' : conn_world) : Prop :=
  closed_count w ≤ closed_count w' ∧
  ∀ ch, room w' ch = room w ch ∧ signals w ch ≤ signals w' ch ∧
        signals w' ch + closed_count w ≤ signals w ch + closed_count w' ∧
        (signals w ch ≤ room w ch → signals w' ch ≤ room w ch).

(** [quiet w ch hs]: none of the connections [hs] is going to signal the
    channel when it is closed: each is closed already or is not armed
    with it. *)
Definition quiet (w : conn_world) (ch : chan) (hs : list handle) : Prop :=
  Forall (λ h, is_closed w h = true ∨ conn_signal (obj w h) ≠ Some ch) hs.

(** ** Fixtures *)

(** Two open connections armed with the same channel of capacity 1, and a
    third one that is not armed. *)
Definition demo_world : conn_world :=
  mkWorld {[1%positive := mkConn false (Some 7%positive);
            2%positive := mkConn false (Some 7%positive);
            3%positive := fresh_conn]}
          {[7%positive := mkChan 1 0]}.


(** A registry holding the three connections of [demo_world]. *)
Definition demo_registry : state conn_world :=
  mkState (mkConns Unlocked (Some {[conn_ref 1%positive := true; conn_ref 2%positive := true;
                                    conn_ref 3%positive := true]}))
          demo_world.

(** ** Objects and channels after a step *)

Section closeable.
Implicit Types (w : conn_world) (h : handle) (ch : chan) (o : option chan).

Lemma closeable_Close_eq h w : closeable_Close h w = Returns None (shut h w).
Proof. done. Qed.

Lemma SetClosedSignal_closed h ch w :
  is_closed w h = true →
  closeable_SetClosedSignal h ch w = Returns (Some AlreadyClosedError) w.
Proof. intros Hc. unfold closeable_SetClosedSignal, mbind, M_bind, get. by rewrite Hc. Qed.

Lemma SetClosedSignal_open h ch w :
  is_closed w h = false →
  closeable_SetClosedSignal h ch w = Returns None (arm h ch w).
Proof. intros Hc. unfold closeable_SetClosedSignal, mbind, M_bind, get. by rewrite Hc. Qed.

Lemma obj_insert w h c h' cs :
  obj (mkWorld (<[h := c]> (objs w)) cs) h' = if decide (h' = h) then c else obj w h'.
Proof.
  unfold obj; simpl. rewrite lookup_insert. by repeat case_decide; simplify_eq.
Qed.

Lemma obj_arm h ch w h' :
  obj (arm h ch w) h' = if decide (h' = h) then mkConn false (Some ch) else obj w h'.
Proof. apply obj_insert. Qed.

Lemma obj_arm_eq h ch w : obj (arm h ch w) h = mkConn false (Some ch).
Proof. by rewrite obj_arm, decide_True. Qed.

Lemma obj_shut h w h' :
  obj (shut h w) h' =
    if decide (h' = h) then mkConn true (conn_signal (obj w h)) else obj w h'.
Proof.
  unfold shut. destruct (is_closed w h) eqn:Hc; [|apply obj_insert].
  case_decide as Heq; [subst|done]. unfold is_closed in Hc.
  destruct (obj w h); by simplify_eq/=.
Qed.

Lemma is_closed_arm h ch w h' :
  is_closed w h = false → is_closed (arm h ch w) h' = is_closed w h'.
Proof. intros Ho. unfold is_closed in *. rewrite obj_arm. case_decide; by subst. Qed.

Lemma is_closed_shut h w h' :
  is_closed (shut h w) h' = if decide (h' = h) then true else is_closed w h'.
Proof. unfold is_closed. rewrite obj_shut. by case_decide. Qed.

Lemma shut_closed h w : is_closed w h = true → shut h w = w.
Proof. intros Hc. unfold shut. by rewrite Hc. Qed.

Lemma shut_shut h w : shut h (shut h w) = shut h w.
Proof. apply shut_closed. by rewrite is_closed_shut, decide_True. Qed.

Lemma signal_comm o1 o2 (cs : gmap chan chan_state) :
  signal o2 (signal o1 cs) = signal o1 (signal o2 cs).
Proof.
  destruct o1 as [c1|], o2 as [c2|]; simpl; try done.
  destruct (decide (c1 = c2)) as [->|]; [done|]. by apply alter_alter_ne.
Qed.

Lemma shut_comm h1 h2 w : h1 ≠ h2 → shut h2 (shut h1 w) = shut h1 (shut h2 w).
Proof.
  intros Hne. unfold shut at 1 3.
  rewrite !is_closed_shut, !obj_shut, !decide_False by done.
  unfold shut. destruct (is_closed w h1), (is_closed w h2); simpl; try done.
  f_equal; [by apply insert_insert_ne | apply signal_comm].
Qed.

(** The signals buffered in a channel after [Close]: one more when the
    connection was open and armed with this channel and the channel has
    room, unchanged otherwise. *)
Lemma signals_shut h w ch :
  signals (shut h w) ch =
    if decide (is_closed w h = false ∧ conn_signal (obj w h) = Some ch)
    then from_option (chan_len ∘ try_send) 0 (chans w !! ch)
    else signals w ch.
Proof.
  unfold shut, signals. destruct (is_closed w h) eqn:Hc.
  { rewrite decide_False; [done|]. by intros [? _]. }
  simpl. destruct (conn_signal (obj w h)) as [ch'|]; simpl.
  - destruct (decide (ch' = ch)) as [->|Hne].
    + rewrite decide_True, lookup_alter_eq by done. by destruct (chans w !! ch).
    + rewrite decide_False, lookup_alter_ne by naive_solver. done.
  - done.
Qed.

End closeable.

(** The closeable connection of the specification implements the contract
    of the [Conn] interface. *)
#[export] Instance closeable_contract : ConnContract conn_world is_closed.
Proof.
  split.
  - intros h ch w Hc. exists AlreadyClosedError. by apply SetClosedSignal_closed.
  - intros h ch w Hc. exists (arm h ch w).
    split; [by apply SetClosedSignal_open|]. intros h'. by apply is_closed_arm.
  - intros h w. exists None, (shut h w). split; [done|]. intros h'. apply is_closed_shut.
Qed.

(** Closing two distinct closeable connections commutes, also when both
    are armed with the same channel. *)
#[export] Instance closeable_world_comm : ConnWorldComm conn_world.
Proof. intros h1 h2 w Hne. by apply shut_comm. Qed.

(** ** Clients of the interface *)

(** What the contract of [Conn] alone guarantees, for any implementation. *)
Section contract_clients.
Context `{Conn W} (is_closed : W → handle → bool) `{!ConnContract W is_closed}.
Implicit Types (w : W) (h : handle) (ch : chan) (k : conn_call).
#[local] Existing Instance Conn_world.

Lemma run_conn_call_closed k w :
  ∃ e w', run_conn_call k w = Returns e w' ∧
          ∀ h, is_closed w' h = closes k h || is_closed w h.
Proof.
  destruct k as [h|h ch]; simpl.
  - destruct (contract_close h w) as (e & w' & -> & Hw'). exists e, w'.
    split; [done|]. intros h'. rewrite Hw'. by case_bool_decide; case_decide.
  - destruct (is_closed w h) eqn:Hc.
    + destruct (contract_set_closed h ch w Hc) as (e & ->). by exists (Some e), w.
    + destruct (contract_set_open h ch w Hc) as (w' & -> & Hw'). by exists None, w'.
Qed.

(** Closed is terminal: every sequence of calls through the interface
    returns, and afterwards a connection is closed exactly when it was
    closed before or one of the calls closed it. *)
Theorem closed_after_calls (ks : list conn_call) w :
  ∃ w', run_conn_calls ks w = Returns () w' ∧
        ∀ h, is_closed w' h = existsb (λ k, closes k h) ks || is_closed w h.
Proof.
  revert w. induction ks as [|k ks IH]; intros w; [by exists w|].
  destruct (run_conn_call_closed k w) as (e & w1 & Hk & Hw1).
  destruct (IH w1) as (w' & Hks & Hw'). exists w'. split.
  - unfold run_conn_calls in *. cbn [range_loop]. unfold mbind, M_bind in *.
    by rewrite Hk.
  - intros h. rewrite Hw', Hw1. simpl. by destruct (closes k h), (existsb _ ks).
Qed.

(** In the world a [Conn] implementation gives the registry, closing a
    list of connections closes those and no other. *)
Lemma is_closed_close_each hs w h :
  is_closed (close_each hs w) h = bool_decide (h ∈ hs) || is_closed w h.
Proof.
  revert w. induction hs as [|h' hs IH]; intros w; [done|].
  rewrite close_each_cons, IH. unfold closed, world_Close, Conn_world; simpl.
  destruct (contract_close h' w) as (e & w' & -> & Hw'). simpl. rewrite Hw'.
  repeat (case_bool_decide || case_decide); set_solver.
Qed.

(** [CloseAll] on a registry of connections that implement [Conn]: when it
    returns every member is closed, and no connection outside the registry
    has changed its state. *)
Theorem CloseAll_closes_members ord (s : state W) h :
  mutex (reg s) = Unlocked → nil_Conn ∉ members (reg s) →
  is_closed (world (outcome_state (CloseAll world_closer ord s))) h =
    bool_decide (conn_ref h ∈ members (reg s)) || is_closed (world s) h.
Proof.
  intros Hmu Hnil. rewrite CloseAll_run by done. simpl.
  rewrite is_closed_close_each. f_equal. apply bool_decide_ext.
  by rewrite elem_of_handles, elem_of_range_keys.
Qed.

End contract_clients.


(** ** The closeable connection: Open, Closed, and the signal *)

Section state_machine.
Implicit Types (w : conn_world) (h : handle) (ch : chan).

(** [Close] is idempotent: a second call returns and changes nothing, so it
    sends no second signal. *)
Theorem Close_idempotent h (w : conn_world) :
  (Conn_Close h ;; Conn_Close h) w = Conn_Close h w.
Proof. simpl. unfold mbind, M_bind. by rewrite !closeable_Close_eq, shut_shut. Qed.

(** A failed [SetClosedSignal] arms nothing: the channel it was given, if it
    was not armed before, is not signalled even if [Close] is called
    again. *)
Theorem SetClosedSignal_closed_no_signal h ch w :
  conn_signal (obj w h) ≠ Some ch →
  (Conn_Close h ;; SetClosedSignal h ch ;; Conn_Close h) w = Conn_Close h w ∧
  signals (outcome_state (Conn_Close h w)) ch = signals w ch.
Proof.
  intros Hch. split.
  - simpl. unfold mbind, M_bind. rewrite closeable_Close_eq.
    rewrite SetClosedSignal_closed by by rewrite is_closed_shut, decide_True.
    by rewrite closeable_Close_eq, shut_shut.
  - simpl. rewrite signals_shut. rewrite decide_False; [done|]. by intros [_ ?].
Qed.

Lemma close_each_replicate n h w : close_each (replicate (S n) h) w = shut h w.
Proof.
  induction n as [|n IH]; [done|].
  change (replicate (S (S n)) h) with (h :: replicate (S n) h).
  rewrite close_each_cons. change (closed w h) with (shut h w).
  rewrite (close_each_cons h (replicate n h)) in *.
  change (closed ?w' h) with (shut h w') in *. by rewrite shut_shut.
Qed.

(** C37. Arming an open connection and then closing it buffers exactly one
    signal in a channel that has room, however many times [Close] is
    called and although nothing receives from the channel. *)
Theorem Close_signals_once h ch w c n :
  is_closed w h = false → chans w !! ch = Some c → chan_len c < chan_cap c →
  signals (close_each (replicate (S n) h) (outcome_state (SetClosedSignal h ch w))) ch =
    S (chan_len c).
Proof.
  intros Hopen Hch Hroom.
  change (SetClosedSignal h ch w) with (closeable_SetClosedSignal h ch w).
  rewrite SetClosedSignal_open by done. cbn [outcome_state].
  rewrite close_each_replicate, signals_shut, is_closed_arm, obj_arm_eq by done.
  rewrite decide_True by done.
  change (chans (arm h ch w)) with (chans w). rewrite Hch. simpl.
  unfold try_send. by rewrite decide_True.
Qed.


End state_machine.

(** ** At most one signal for each connection closed *)

Section accounting.
Implicit Types (w : conn_world) (h : handle) (ch : chan).

#[export] Instance later_preorder : PreOrder later.
Proof.
  split.
  - intros w. split; [done|]. intros ch. split_and!; auto with lia.
  - intros w1 w2 w3 [Hc12 H12] [Hc23 H23]. split; [lia|]. intros ch.
    destruct (H12 ch) as (Hr12 & ? & ? & ?), (H23 ch) as (Hr23 & ? & ? & ?).
    rewrite Hr12 in *. split_and!; [congruence|lia..].
Qed.

Lemma closed_filter_open w h :
  is_closed w h = false → filter (λ p, conn_closed p.2 = true) (objs w) !! h = None.
Proof.
  unfold is_closed, obj. intros Hc. apply map_lookup_filter_None.
  destruct (objs w !! h) as [c|] eqn:Hh; [right|by left].
  intros c' ?; simplify_eq/=. by rewrite Hc.
Qed.

Lemma closed_count_arm h ch w :
  is_closed w h = false → closed_count (arm h ch w) = closed_count w.
Proof.
  intros Hc. unfold closed_count, arm; simpl.
  rewrite map_filter_insert_False by done.
  by rewrite map_filter_delete, delete_id by by apply closed_filter_open.
Qed.

Lemma closed_count_shut h w :
  is_closed w h = false → closed_count (shut h w) = S (closed_count w).
Proof.
  intros Hc. unfold closed_count, shut. rewrite Hc; simpl.
  rewrite map_filter_insert_True by done.
  by rewrite map_size_insert_None by by apply closed_filter_open.
Qed.

Lemma room_shut h w ch : room (shut h w) ch = room w ch.
Proof.
  unfold room, shut. destruct (is_closed w h); [done|]. simpl.
  destruct (conn_signal (obj w h)) as [ch'|]; simpl; [|done].
  rewrite lookup_alter. case_decide; [subst|done].
  destruct (chans w !! _) as [c|]; simpl; [|done]. unfold try_send. by case_decide.
Qed.

(** [Close] buffers at most one signal, and none beyond the capacity. *)
Lemma signals_shut_le h w ch :
  signals w ch ≤ signals (shut h w) ch ≤ S (signals w ch) ∧
  (signals w ch ≤ room w ch → signals (shut h w) ch ≤ room w ch).
Proof.
  rewrite signals_shut. unfold signals, room. case_decide; [|lia].
  destruct (chans w !! ch) as [c|]; simpl; [|lia]. unfold try_send.
  case_decide; simpl; lia.
Qed.

Lemma later_shut h w : later w (shut h w).
Proof.
  destruct (is_closed w h) eqn:Hc; [by rewrite shut_closed|].
  split; [rewrite closed_count_shut by done; lia|]. intros ch.
  rewrite room_shut, closed_count_shut by done.
  pose proof (signals_shut_le h w ch). split_and!; [done|lia..|tauto].
Qed.

Lemma later_arm h ch w : is_closed w h = false → later w (arm h ch w).
Proof.
  intros Hc. split; [by rewrite closed_count_arm|]. intros ch'.
  rewrite closed_count_arm by done. done.
Qed.

Lemma later_conn_step w k : later w (conn_step w k).
Proof.
  destruct k as [h|h ch]; simpl; [apply later_shut|].
  destruct (is_closed w h) eqn:Hc; [done|by apply later_arm].
Qed.

Lemma run_conn_calls_closeable ks w :
  run_conn_calls ks w = Returns () (foldl conn_step w ks).
Proof.
  revert w. induction ks as [|k ks IH]; intros w; [done|].
  unfold run_conn_calls in *. cbn [range_loop foldl].
  unfold mbind, M_bind.
  destruct k as [h|h ch]; cbn [run_conn_call conn_step Conn_Close SetClosedSignal closeable_Conn].
  - rewrite closeable_Close_eq. apply IH.
  - destruct (is_closed w h) eqn:Hc.
    + rewrite SetClosedSignal_closed by done. apply IH.
    + rewrite SetClosedSignal_open by done. apply IH.
Qed.

Lemma later_foldl ks w : later w (foldl conn_step w ks).
Proof.
  revert w. induction ks as [|k ks IH]; intros w; simpl; [done|].
  etrans; [apply (later_conn_step w k)|apply IH].
Qed.

Lemma later_close_each hs w : later w (close_each hs w).
Proof.
  revert w. induction hs as [|h hs IH]; intros w; [done|].
  rewrite close_each_cons. etrans; [apply (later_shut h w)|apply IH].
Qed.

(** A channel with room that an open connection is armed with has
    received a signal once the connection is among those closed. *)
Lemma signals_close_each_armed hs w h ch :
  h ∈ hs → is_closed w h = false → conn_signal (obj w h) = Some ch →
  signals w ch < room w ch →
  signals w ch < signals (close_each hs w) ch.
Proof.
  revert w. induction hs as [|h' hs IH]; intros w Hin Hopen Harm Hroom; [set_solver|].
  rewrite close_each_cons. change (closed w h') with (shut h' w).
  destruct (later_close_each hs (shut h' w)) as [_ Hrest].
  destruct (Hrest ch) as (_ & Hmono & _).
  destruct (decide (h' = h)) as [->|Hne].
  - assert (signals (shut h w) ch = S (signals w ch)) as Hs; [|lia].
    rewrite signals_shut, decide_True by done. unfold signals, room in *.
    destruct (chans w !! ch) as [c|]; simpl in *; [|lia].
    unfold try_send. by rewrite decide_True.
  - pose proof (signals_shut_le h' w ch) as [[? ?] _].
    destruct (decide (signals (shut h' w) ch < room w ch)) as [Hlt|]; [|lia].
    assert (signals (shut h' w) ch < signals (close_each hs (shut h' w)) ch); [|lia].
    apply IH; [set_solver| | |by rewrite room_shut].
    + by rewrite is_closed_shut, decide_False.
    + by rewrite obj_shut, decide_False.
Qed.
Lemma conn_signal_shut h w h' : conn_signal (obj (shut h w) h') = conn_signal (obj w h').
Proof. rewrite obj_shut. case_decide; by subst. Qed.

Lemma quiet_shut h w ch hs : quiet w ch hs → quiet (shut h w) ch hs.
Proof.
  intros Hq. eapply Forall_impl; [exact Hq|]. intros h'.
  rewrite is_closed_shut, conn_signal_shut. case_decide; tauto.
Qed.

(** Closing quiet connections leaves the channel as it is. *)
Lemma signals_close_each_quiet hs w ch :
  quiet w ch hs → signals (close_each hs w) ch = signals w ch.
Proof.
  revert w. induction hs as [|h hs IH]; intros w Hq; [done|].
  apply Forall_cons in Hq as [Hh Hq]. rewrite close_each_cons.
  change (closed w h) with (shut h w). rewrite IH by by apply quiet_shut.
  rewrite signals_shut, decide_False; [done|]. intros [? ?]. destruct Hh; congruence.
Qed.

(** A channel with room receives exactly one signal when the only
    connection armed with it that is still open is among those closed. *)
Lemma signals_close_each_once hs w h ch :
  h ∈ hs → is_closed w h = false → conn_signal (obj w h) = Some ch →
  signals w ch < room w ch → quiet w ch (filter (.≠ h) hs) →
  signals (close_each hs w) ch = S (signals w ch).
Proof.
  revert w. induction hs as [|h' hs IH]; intros w Hin Hopen Harm Hroom Hq; [set_solver|].
  rewrite close_each_cons. change (closed w h') with (shut h' w).
  destruct (decide (h' = h)) as [->|Hne].
  - rewrite filter_cons_False in Hq by by intros [].
    rewrite signals_close_each_quiet.
    + rewrite signals_shut, decide_True by done. unfold signals, room in *.
      destruct (chans w !! ch) as [c|]; simpl in *; [|lia].
      unfold try_send. by rewrite decide_True.
    + apply Forall_forall. intros h' Hh'. rewrite is_closed_shut, conn_signal_shut.
      destruct (decide (h' = h)) as [->|Hne]; [by left|].
      eapply Forall_forall in Hq; [done|]. by apply list_elem_of_filter.
  - rewrite filter_cons_True in Hq by done. apply Forall_cons in Hq as [Hh' Hq].
    assert (signals (shut h' w) ch = signals w ch) as Hs.
    { rewrite signals_shut, decide_False; [done|]. intros [? ?]. destruct Hh'; congruence. }
    apply elem_of_cons in Hin as [->|Hin]; [done|].
    rewrite <-Hs. apply IH; [done| | | |by apply quiet_shut].
    + by rewrite is_closed_shut, decide_False.
    + by rewrite conn_signal_shut.
    + by rewrite Hs, room_shut.
Qed.

(** [Close] and what was closed before keep the channel a connection is
    armed with. *)
Lemma conn_signal_close_each hs w h :
  conn_signal (obj (close_each hs w) h) = conn_signal (obj w h).
Proof.
  revert w. induction hs as [|h' hs IH]; intros w; [done|].
  rewrite close_each_cons. change (closed w h') with (shut h' w).
  by rewrite IH, conn_signal_shut.
Qed.

(** [SetClosedSignal] on a closed connection changes nothing. *)
Lemma arm_closed h ch w :
  is_closed w h = true → conn_step w (do_SetClosedSignal h ch) = w.
Proof. intros Hc. simpl. by rewrite Hc. Qed.

(** [SetClosedSignal] on one connection and [Close] on another commute. *)
Lemma arm_shut_comm h h' ch w :
  h ≠ h' →
  conn_step (shut h' w) (do_SetClosedSignal h ch) =
    shut h' (conn_step w (do_SetClosedSignal h ch)).
Proof.
  intros Hne. simpl. rewrite is_closed_shut, decide_False by done.
  destruct (is_closed w h) eqn:Hh; [done|]. unfold shut.
  rewrite is_closed_arm by done. destruct (is_closed w h'); [done|].
  rewrite obj_arm, decide_False by done. unfold arm; simpl. f_equal.
  by apply insert_insert_ne.
Qed.

Lemma arm_close_each hs h ch w :
  h ∉ hs →
  conn_step (close_each hs w) (do_SetClosedSignal h ch) =
    close_each hs (conn_step w (do_SetClosedSignal h ch)).
Proof.
  revert w. induction hs as [|h' hs IH]; intros w Hh; [done|].
  rewrite !close_each_cons. change (closed ?w h') with (shut h' w).
  rewrite IH, arm_shut_comm by set_solver. done.
Qed.

(** C36. Whatever calls are made on closeable connections, they return, and
    a channel that was within its capacity stays within it and has
    received at most one signal for each connection closed by the calls:
    no interleaving of [Close] and [SetClosedSignal] signals twice for one
    connection. *)
Theorem signals_bounded (ks : list conn_call) (w : conn_world) ch :
  signals w ch ≤ room w ch →
  ∃ w', run_conn_calls ks w = Returns () w' ∧
        closed_count w ≤ closed_count w' ∧
        signals w' ch ≤ room w ch ∧
        signals w' ch ≤ signals w ch + (closed_count w' - closed_count w).
Proof.
  intros Hroom. exists (foldl conn_step w ks). split; [apply run_conn_calls_closeable|].
  destruct (later_foldl ks w) as [Hc Hch]. destruct (Hch ch) as (_ & _ & ? & ?).
  split_and!; [done|tauto|lia].
Qed.

End accounting.

(** ** The theorems at concrete inputs *)

Section signal_witnesses.

Lemma closed_after_calls_witness :
  ∃ w', run_conn_calls [do_SetClosedSignal 3 7; do_Close 3; do_SetClosedSignal 3 7]%positive
          demo_world = Returns () w' ∧
        ∀ h, is_closed w' h =
             existsb (λ k, closes k h)
               [do_SetClosedSignal 3 7; do_Close 3; do_SetClosedSignal 3 7]%positive
             || is_closed demo_world h.
Proof. exact (closed_after_calls is_closed _ demo_world). Defined.


Lemma CloseAll_closes_members_witness :
  is_closed (world (outcome_state
    (CloseAll world_closer canonical_order demo_registry))) 2%positive = true.
Proof.
  etrans; [apply (CloseAll_closes_members is_closed canonical_order demo_registry);
           [done|compute_done]|].
  by vm_compute.
Defined.

Lemma SetClosedSignal_closed_no_signal_witness :
  (Conn_Close 3%positive ;; SetClosedSignal 3%positive 7%positive ;; Conn_Close 3%positive)
    demo_world = Conn_Close 3%positive demo_world ∧
  signals (outcome_state (Conn_Close 3%positive demo_world)) 7%positive =
    signals demo_world 7%positive.
Proof. apply SetClosedSignal_closed_no_signal. by vm_compute. Defined.

Lemma Close_signals_once_witness :
  signals (close_each (replicate 3 3%positive)
             (outcome_state (SetClosedSignal 3%positive 7%positive demo_world)))
          7%positive = 1.
Proof.
  apply (Close_signals_once 3%positive 7%positive demo_world (mkChan 1 0) 2);
    [by vm_compute..|simpl; lia].
Defined.


Lemma signals_bounded_witness :
  ∃ w', run_conn_calls [do_Close 1; do_Close 2; do_Close 1]%positive demo_world =
          Returns () w' ∧
        closed_count demo_world ≤ closed_count w' ∧
        signals w' 7%positive ≤ room demo_world 7%positive ∧
        signals w' 7%positive ≤
          signals demo_world 7%positive + (closed_count w' - closed_count demo_world).
Proof. apply signals_bounded. vm_compute. lia. Defined.

End signal_witnesses.
