(* ===== verification/Session.v ===== *)
(** * Session: a caller that dials, tracks and arms a connection

    The control flow the specification describes around the registry of
    [src/psiphon/conn.go]: a caller obtains a connection from a [Dialer],
    registers it with [Add] and arms a channel with [SetClosedSignal]; a
    later [CloseAll] closes the connection, and the caller learns of it
    from the channel.  The flow is taken from the specification; the
    dialer, the registry and the connection are those of [Net],
    [Registry] and [ClosedSignal]. *)

From stdpp Require Import strings.
From S2P Require Import Prelude GoSem Net RegistrySpec Registry ClosedSignal.

(** ** The flow *)

Section session.
Context `{Conn W}.

(** [conn.SetClosedSignal(ch)] on an interface value: a call through the
    nil interface panics. *)
Definition call_SetClosedSignal (conn : net_Conn) (ch : chan) : M (state W) (option error) :=
  match conn with
  | nil_Conn => raise nil_dereference
  | conn_ref h => zoom world set_world (SetClosedSignal h ch)
  end.

(** Dial; on success register the connection and arm the channel.  The
    error is that of the dialer, or else that of [SetClosedSignal]. *)
Definition dial_tracked (dial : Dialer W) (network addr : string) (ch : chan) :
    M (state W) (net_Conn * option error) :=
  r ← zoom world set_world (dial network addr);
  match r.2 with
  | Some e => mret r
  | None => Add r.1 ;; e ← call_SetClosedSignal r.1 ch; mret (r.1, e)
  end.

End session.

(** ** Fixtures *)

(** The error of a dial without an address. *)
Definition missing_address : error := "missing address"%string.

(** A dialer for the world of closeable connections: it fails when the
    address is empty, and otherwise returns a new open connection. *)
Definition demo_dial : Dialer conn_world := λ network addr,
  w ← get;
  match addr with
  | EmptyString => mret (nil_Conn, Some missing_address)
  | _ =>
      put (mkWorld (<[fresh (dom (objs w)) := fresh_conn]> (objs w)) (chans w)) ;;
      mret (conn_ref (fresh (dom (objs w))), None)
  end.

(** A caller starts with the zero value of [Conns], no connection, and a
    channel of capacity 1 to be told of the closure. *)
Definition session_start : state conn_world :=
  mkState zero_Conns (mkWorld ∅ {[7%positive := mkChan 1 0]}).

(** The world after [demo_dial] has returned its first connection. *)
Definition session_dialed : conn_world :=
  mkWorld {[1%positive := fresh_conn]} {[7%positive := mkChan 1 0]}.

(** ** The flow, step by step *)

Section flow.
Implicit Types (s : state conn_world) (w : conn_world) (h : handle) (ch : chan).
Implicit Types (dial : Dialer conn_world) (network addr : string).

(** When the dialer fails, nothing is registered or armed. *)
Lemma dial_tracked_error dial network addr ch s conn e w1 :
  dial network addr (world s) = Returns (conn, Some e) w1 →
  dial_tracked dial network addr ch s = Returns (conn, Some e) (set_world w1 s).
Proof.
  intros Hdial. unfold dial_tracked, mbind at 1, M_bind at 1, zoom. by rewrite Hdial.
Qed.

(** When the dialer returns an open connection, the connection joins the
    members and is armed with the channel. *)
Lemma dial_tracked_run dial network addr ch s h w1 :
  mutex (reg s) = Unlocked →
  dial network addr (world s) = Returns (conn_ref h, None) w1 →
  is_closed w1 h = false →
  dial_tracked dial network addr ch s =
    Returns (conn_ref h, None)
      (mkState (mkConns Unlocked (Some (<[conn_ref h := true]> (default ∅ (conns (reg s))))))
               (arm h ch w1)).
Proof.
  intros Hmu Hdial Hopen. unfold dial_tracked, mbind at 1, M_bind at 1, zoom.
  rewrite Hdial. cbn. unfold mbind at 1, M_bind at 1.
  rewrite Add_run by done. unfold mbind, M_bind, zoom; cbn.
  change (SetClosedSignal h ch w1) with (closeable_SetClosedSignal h ch w1).
  rewrite SetClosedSignal_open by done. by destruct_state s.
Qed.

End flow.

(** ** What the caller observes *)

Section observe.
Implicit Types (s : state conn_world) (w : conn_world) (h : handle) (ch : chan).
Implicit Types (dial : Dialer conn_world) (network addr : string).

(** The flow followed by [CloseAll]: the connection dialed is armed and
    registered, and [CloseAll] then closes it with the members the
    registry held before, and empties the registry. *)
Lemma tracked_session_run dial network addr ch ord s h w1 :
  Conns_ready s →
  dial network addr (world s) = Returns (conn_ref h, None) w1 →
  is_closed w1 h = false →
  ∃ s1 hs,
    dial_tracked dial network addr ch s = Returns (conn_ref h, None) s1 ∧
    world s1 = arm h ch w1 ∧
    CloseAll world_closer ord s1 =
      Returns () (mkState (mkConns Unlocked (Some ∅)) (close_each hs (arm h ch w1))) ∧
    ∀ h', h' ∈ hs ↔ h' = h ∨ conn_ref h' ∈ members (reg s).
Proof.
  intros [[Hmu _] Hnil] Hdial Hopen.
  rewrite (dial_tracked_run dial network addr ch s h w1) by done.
  set (m := <[conn_ref h := true]> (default ∅ (conns (reg s)))).
  assert (dom m = {[conn_ref h]} ∪ members (reg s)) as Hm.
  { unfold m, members. rewrite dom_insert_L. by destruct (conns (reg s)); set_solver. }
  eexists _, (handles (range_keys ord (mkConns Unlocked (Some m)))).
  split_and!; [done..| |].
  - apply CloseAll_run; [done|]. unfold members in *; simpl. rewrite Hm. set_solver.
  - intros h'. rewrite elem_of_handles, elem_of_range_keys. unfold members at 1; simpl.
    rewrite Hm. set_solver.
Qed.

(** C28. A caller dials, registers the connection and arms a channel that has
    room; then [CloseAll] is called.  Both return; the registry is empty
    and its mutex free, the connection is closed, and the channel holds a
    signal it did not hold before: the caller is told of the closure,
    whatever else the registry held and in whatever order [CloseAll]
    visited it. *)
Theorem tracked_connection_signalled dial network addr ch ord s h w1 :
  Conns_ready s →
  dial network addr (world s) = Returns (conn_ref h, None) w1 →
  is_closed w1 h = false →
  signals w1 ch < room w1 ch →
  ∃ s', (dial_tracked dial network addr ch ;; CloseAll world_closer ord) s = Returns () s' ∧
        reg s' = mkConns Unlocked (Some ∅) ∧
        is_closed (world s') h = true ∧
        signals w1 ch < signals (world s') ch.
Proof.
  intros Hs Hdial Hopen Hroom.
  destruct (tracked_session_run dial network addr ch ord s h w1)
    as (s1 & hs & Hrun & _ & Hclose & Hhs); [done..|].
  unfold mbind at 1, M_bind at 1. rewrite Hrun, Hclose.
  eexists. split; [done|]. simpl. split; [done|].
  assert (h ∈ hs) as Hin by (apply Hhs; by left). split.
  - etrans; [apply (is_closed_close_each is_closed)|]. by rewrite bool_decide_true.
  - apply (signals_close_each_armed _ (arm h ch w1) h); [done| |by rewrite obj_arm_eq|done].
    by rewrite is_closed_arm.
Qed.

End observe.

(** ** The theorem at a concrete input *)

Section session_witnesses.

Lemma tracked_connection_signalled_witness :
  ∃ s', (dial_tracked demo_dial "tcp" "192.0.2.1:443" 7%positive ;;
         CloseAll world_closer canonical_order) session_start = Returns () s' ∧
        reg s' = mkConns Unlocked (Some ∅) ∧
        is_closed (world s') 1%positive = true ∧
        signals session_dialed 7%positive < signals (world s') 7%positive.
Proof.
  apply (tracked_connection_signalled demo_dial "tcp" "192.0.2.1:443" 7%positive
           canonical_order session_start 1%positive session_dialed);
    [apply zero_Conns_ready|by vm_compute..|vm_compute; lia].
Defined.

End session_witnesses.
