(* ===== verification/Interrupt.v ===== *)
(** * Interrupt: what the goroutines waiting on tracked connections observe

    The registry of [src/psiphon/conn.go] is there to interrupt goroutines
    (lines 45-47): a goroutine blocked in a read or write on a tracked
    connection, or waiting on the channel armed with [SetClosedSignal].
    Blocking I/O and the receive from the channel are taken from the
    specification; the registry, the connection and the flow of the caller
    are those of [Registry], [ClosedSignal] and [Session].  [CloseAll]
    makes the blocked I/O on every member fail, and the waiting receiver
    is woken exactly once. *)

From stdpp Require Import strings.
From S2P Require Import Prelude GoSem Net RegistrySpec Registry ClosedSignal Session.

(** ** Waiting on a connection *)

(** The error of I/O on a closed connection. *)
Definition ClosedConnError : error := "use of closed network connection"%string.

(** A read or write on a connection whose peer stays silent: it blocks
    while the connection is Open and fails once it is Closed. *)
Definition blocked_io (h : handle) : M conn_world (option error) :=
  w ← get;
  if is_closed w h then mret (Some ClosedConnError) else park.

(** [<-ch]: take one element out of the buffer; block when the buffer is
    empty, and for ever on a channel that does not exist. *)
Definition chan_recv (ch : chan) : M conn_world () := λ w,
  match chans w !! ch with
  | Some (mkChan cap (S n)) =>
      Returns () (mkWorld (objs w) (<[ch := mkChan cap n]> (chans w)))
  | _ => Blocks w
  end.

(** ** Fixtures *)

(** The caller of [session_start] after it has dialed, registered the
    connection and armed its channel, and the world after [CloseAll] and
    after the signal has been received. *)
Definition session_armed : state conn_world :=
  mkState (mkConns Unlocked (Some {[conn_ref 1%positive := true]}))
          (mkWorld {[1%positive := mkConn false (Some 7%positive)]}
                   {[7%positive := mkChan 1 0]}).

Definition session_closed : state conn_world :=
  mkState (mkConns Unlocked (Some ∅))
          (mkWorld {[1%positive := mkConn true (Some 7%positive)]}
                   {[7%positive := mkChan 1 1]}).

Definition session_received : conn_world :=
  mkWorld {[1%positive := mkConn true (Some 7%positive)]} {[7%positive := mkChan 1 0]}.

(** ** Blocking operations *)

Section waiting.
Implicit Types (w : conn_world) (h : handle) (ch : chan).

Lemma blocked_io_run h w :
  blocked_io h w = if is_closed w h then Returns (Some ClosedConnError) w else Blocks w.
Proof. unfold blocked_io, mbind, M_bind, get. by destruct (is_closed w h). Qed.

Lemma chan_recv_empty ch w : signals w ch = 0 → chan_recv ch w = Blocks w.
Proof.
  unfold signals, chan_recv. destruct (chans w !! ch) as [[cap [|n]]|]; by simpl.
Qed.

(** A receive from a channel that holds a signal returns and takes the
    signal out; the connections are as they were. *)
Lemma chan_recv_signalled ch w n :
  signals w ch = S n →
  ∃ w', chan_recv ch w = Returns () w' ∧ signals w' ch = n ∧ objs w' = objs w.
Proof.
  unfold signals, chan_recv. destruct (chans w !! ch) as [[cap [|n']]|]; simpl; try done.
  intros [= ->]. eexists. split; [done|]. simpl. by rewrite lookup_insert_eq.
Qed.

End waiting.

(** ** What [CloseAll] does to the goroutines that wait *)

Section interrupt.
Implicit Types (s : state conn_world) (w : conn_world) (h : handle) (ch : chan).
Implicit Types (dial : Dialer conn_world) (network addr : string).

(** [CloseAll] interrupts: once it has returned, blocked I/O on a
    connection fails exactly when the connection was a member or was
    closed before, and goes on blocking otherwise. *)
Theorem CloseAll_interrupts ord s h :
  Conns_ready s →
  ∃ s', CloseAll world_closer ord s = Returns () s' ∧
        blocked_io h (world s') =
          if bool_decide (conn_ref h ∈ members (reg s)) || is_closed (world s) h
          then Returns (Some ClosedConnError) (world s') else Blocks (world s').
Proof.
  intros [[Hmu _] Hnil]. rewrite CloseAll_run by done. eexists. split; [done|].
  rewrite blocked_io_run. simpl.
  replace (is_closed _ h) with
    (bool_decide (conn_ref h ∈ members (reg s)) || is_closed (world s) h); [done|].
  symmetry. etrans; [apply (is_closed_close_each is_closed)|]. f_equal.
  apply bool_decide_ext. by rewrite elem_of_handles, elem_of_range_keys.
Qed.

(** C29. A caller dials, registers the connection and arms an empty channel
    that has room, and waits on the channel.  The receive blocks until
    [CloseAll] is called; after [CloseAll] it returns, and a second
    receive blocks again: the caller is woken exactly once, when no other
    open member of the registry is armed with the same channel. *)
Theorem observer_woken_once dial network addr ch ord s h w1 :
  Conns_ready s →
  dial network addr (world s) = Returns (conn_ref h, None) w1 →
  is_closed w1 h = false → signals w1 ch = 0 → 0 < room w1 ch →
  (∀ h', conn_ref h' ∈ members (reg s) → h' ≠ h →
         is_closed w1 h' = true ∨ conn_signal (obj w1 h') ≠ Some ch) →
  ∃ s1 s2 w3,
    dial_tracked dial network addr ch s = Returns (conn_ref h, None) s1 ∧
    chan_recv ch (world s1) = Blocks (world s1) ∧
    CloseAll world_closer ord s1 = Returns () s2 ∧
    chan_recv ch (world s2) = Returns () w3 ∧
    chan_recv ch w3 = Blocks w3.
Proof.
  intros Hs Hdial Hopen Hempty Hroom Hothers.
  destruct (tracked_session_run dial network addr ch ord s h w1)
    as (s1 & hs & Hrun & Hw1 & Hclose & Hhs); [done..|].
  assert (signals (close_each hs (arm h ch w1)) ch = 1) as Hone.
  { rewrite <-Hempty. apply (signals_close_each_once hs (arm h ch w1) h ch).
    - apply Hhs. by left.
    - by rewrite is_closed_arm.
    - by rewrite obj_arm_eq.
    - change (signals w1 ch < room w1 ch). lia.
    - apply Forall_forall. intros h' [Hne [?|Hh']%Hhs]%list_elem_of_filter; [done|].
      rewrite is_closed_arm, obj_arm, decide_False by done. by apply Hothers. }
  destruct (chan_recv_signalled ch _ 0 Hone) as (w3 & Hrecv & Hw3 & _).
  exists s1, (mkState (mkConns Unlocked (Some ∅)) (close_each hs (arm h ch w1))), w3.
  split_and!; [done| |done|done|by apply chan_recv_empty].
  rewrite Hw1. by apply chan_recv_empty.
Qed.

End interrupt.

(** ** The theorems at concrete inputs *)

Section interrupt_witnesses.

Lemma CloseAll_interrupts_witness :
  ∃ s', CloseAll world_closer canonical_order session_armed = Returns () s' ∧
        blocked_io 1%positive (world s') =
          if bool_decide (conn_ref 1%positive ∈ members (reg session_armed))
             || is_closed (world session_armed) 1%positive
          then Returns (Some ClosedConnError) (world s') else Blocks (world s').
Proof.
  apply (CloseAll_interrupts canonical_order session_armed 1%positive).
  split; [by split; compute_done|]. compute_done.
Defined.

Lemma observer_woken_once_witness :
  ∃ s1 s2 w3,
    dial_tracked demo_dial "tcp" "192.0.2.1:443" 7%positive session_start =
      Returns (conn_ref 1%positive, None) s1 ∧
    chan_recv 7%positive (world s1) = Blocks (world s1) ∧
    CloseAll world_closer canonical_order s1 = Returns () s2 ∧
    chan_recv 7%positive (world s2) = Returns () w3 ∧
    chan_recv 7%positive w3 = Blocks w3.
Proof.
  apply (observer_woken_once demo_dial "tcp" "192.0.2.1:443" 7%positive
           canonical_order session_start 1%positive session_dialed);
    [apply zero_Conns_ready|by vm_compute..|vm_compute; lia|].
  intros h' Hh'. by apply elem_of_empty in Hh'.
Defined.

(** The caller of [session_start], run: [CloseAll] closes the connection
    and buffers the signal, the receive takes it, and the channel is empty
    again. *)
Example session_observed :
  CloseAll world_closer canonical_order session_armed = Returns () session_closed ∧
  blocked_io 1%positive (world session_armed) = Blocks (world session_armed) ∧
  blocked_io 1%positive (world session_closed) =
    Returns (Some ClosedConnError) (world session_closed) ∧
  chan_recv 7%positive (world session_closed) = Returns () session_received ∧
  chan_recv 7%positive session_received = Blocks session_received.
Proof. by vm_compute. Qed.

End interrupt_witnesses.
