(* ===== verification/Concurrent.v ===== *)
(** * Concurrent: goroutines calling the methods of [Conns]

    Each method of [src/psiphon/conn.go] is cut at its statement boundaries:
    a goroutine is at a program counter [pc], and one step executes the
    statement at that counter on the shared state, using the statements of
    [Registry] themselves.  A pool of goroutines interleaves such steps.
    Mutual exclusion and serializability hold for every [Close] that
    leaves the mutex alone ([KeepsMutex]); progress and refinement are
    shown for well-behaved connections, and the deadlock for connections
    whose [Close] calls back into the registry. *)

From S2P Require Import Prelude GoSem Net RegistrySpec Registry.

(** ** Program counters *)

(** Where a goroutine stands inside a method: before the statement named.
    [at_Unlock] is the deferred [Unlock], reached on return ([None]) or
    while panicking; [at_exit] is the end of the call. *)
Inductive pc : Type :=
| at_Add_Lock (conn : net_Conn)           (* line 54 *)
| at_Add_isnil (conn : net_Conn)          (* line 56 *)
| at_Add_make (conn : net_Conn)           (* line 57 *)
| at_Add_assign (conn : net_Conn)         (* line 59 *)
| at_Remove_Lock (conn : net_Conn)        (* line 63 *)
| at_Remove_delete (conn : net_Conn)      (* line 65 *)
| at_CloseAll_Lock                        (* line 69 *)
| at_CloseAll_range                       (* line 71 *)
| at_CloseAll_Close (ks : list net_Conn)  (* line 72, keys left to visit *)
| at_CloseAll_make                        (* line 74 *)
| at_Unlock (p : option panic)            (* lines 55, 64, 70, deferred *)
| at_exit (p : option panic).

#[export] Instance pc_eq_dec : EqDecision pc.
Proof. solve_decision. Defined.

(** The first statement of the method a call names. *)
Definition entry (k : call) : pc :=
  match k with
  | call_Add conn => at_Add_Lock conn
  | call_Remove conn => at_Remove_Lock conn
  | call_CloseAll => at_CloseAll_Lock
  end.

(** A goroutine is inside the critical section from the statement after
    [Lock] up to and including the deferred [Unlock]. *)
Definition in_critical (p : pc) : bool :=
  match p with
  | at_Add_Lock _ | at_Remove_Lock _ | at_CloseAll_Lock | at_exit _ => false
  | _ => true
  end.

(** An upper bound on the statements left in a call from a program
    counter, when the [range] of [CloseAll] finds at most [n] keys. *)
Definition pc_cost (n : nat) (p : pc) : nat :=
  match p with
  | at_Add_Lock _ => 5
  | at_Add_isnil _ => 4
  | at_Add_make _ => 3
  | at_Add_assign _ => 2
  | at_Remove_Lock _ => 3
  | at_Remove_delete _ => 2
  | at_CloseAll_Lock => 5 + n
  | at_CloseAll_range => 4 + n
  | at_CloseAll_Close ks => 3 + length ks
  | at_CloseAll_make => 2
  | at_Unlock _ => 1
  | at_exit _ => 0
  end.

Section thread.
Context {W : Type} (close : @closer W) (ord : range_order).

(** The counter after a statement of the body whose outcome is [o]: the
    next statement when it returned, the deferred [Unlock] when it
    panicked.  A statement that blocks or dies gives no step. *)
Definition after {A} (o : outcome (state W) A) (next : A → pc) : option (pc * state W) :=
  match o with
  | Returns a s => Some (next a, s)
  | Panics p s => Some (at_Unlock (Some p), s)
  | Fatal _ _ | Blocks _ => None
  end.

(** The counter after [Lock] or the deferred [Unlock]: no deferred call is
    pending behind them. *)
Definition after_mutex (o : outcome (state W) ()) (next : pc) : option (pc * state W) :=
  match o with
  | Returns _ s => Some (next, s)
  | _ => None
  end.

(** One statement of one goroutine. *)
Definition thread_step (p : pc) (s : state W) : option (pc * state W) :=
  match p with
  | at_Add_Lock conn => after_mutex (mutex_Lock s) (at_Add_isnil conn)
  | at_Add_isnil conn =>
      after (conns_is_nil s) (λ b : bool, if b then at_Add_make conn else at_Add_assign conn)
  | at_Add_make conn => after (conns_make s) (λ _, at_Add_assign conn)
  | at_Add_assign conn => after (conns_assign conn true s) (λ _, at_Unlock None)
  | at_Remove_Lock conn => after_mutex (mutex_Lock s) (at_Remove_delete conn)
  | at_Remove_delete conn => after (conns_delete conn s) (λ _, at_Unlock None)
  | at_CloseAll_Lock => after_mutex (mutex_Lock s) at_CloseAll_range
  | at_CloseAll_range => after (conns_range ord s) at_CloseAll_Close
  | at_CloseAll_Close [] => Some (at_CloseAll_make, s)
  | at_CloseAll_Close (conn :: ks) =>
      after (call_Close close conn s) (λ _, at_CloseAll_Close ks)
  | at_CloseAll_make => after (conns_make s) (λ _, at_Unlock None)
  | at_Unlock p => after_mutex (mutex_Unlock s) (at_exit p)
  | at_exit _ => None
  end.

(** [n] statements of one goroutine running alone; it stays where it is
    when it cannot step. *)
Fixpoint thread_run (n : nat) (p : pc) (s : state W) : pc * state W :=
  match n with
  | 0 => (p, s)
  | S n => match thread_step p s with
           | Some (p', s') => thread_run n p' s'
           | None => (p, s)
           end
  end.

(** The loop body of [CloseAll]. *)
Definition close_body (conn : net_Conn) : M (state W) () :=
  call_Close close conn ;; mret ().

(** How the call ends once the deferred [Unlock] has run. *)
Definition finish (p : option panic) : M (state W) () :=
  match p with None => mret () | Some p => raise p end.

(** What remains of the call from a program counter, as a program of
    [Registry]. *)
Definition rest (p : pc) : M (state W) () :=
  match p with
  | at_Add_Lock conn => Add conn
  | at_Add_isnil conn =>
      defer mutex_Unlock (
        isnil ← conns_is_nil;
        (if isnil : bool then conns_make else mret ()) ;;
        conns_assign conn true)
  | at_Add_make conn => defer mutex_Unlock (conns_make ;; conns_assign conn true)
  | at_Add_assign conn => defer mutex_Unlock (conns_assign conn true)
  | at_Remove_Lock conn => Remove conn
  | at_Remove_delete conn => defer mutex_Unlock (conns_delete conn)
  | at_CloseAll_Lock => CloseAll close ord
  | at_CloseAll_range =>
      defer mutex_Unlock (
        ks ← conns_range ord;
        range_loop ks close_body ;;
        conns_make)
  | at_CloseAll_Close ks => defer mutex_Unlock (range_loop ks close_body ;; conns_make)
  | at_CloseAll_make => defer mutex_Unlock conns_make
  | at_Unlock p => mutex_Unlock ;; finish p
  | at_exit p => finish p
  end.

(** The mutex is held exactly while the goroutine is inside the critical
    section. *)
Definition consistent (p : pc) (s : state W) : Prop :=
  mutex (reg s) = if in_critical p then Locked else Unlocked.

(** An upper bound on the statements a goroutine running alone has left in
    its call. *)
Definition steps_left (p : pc) (s : state W) : nat :=
  pc_cost (length (range_keys ord (reg s))) p.

End thread.

(** ** Pools of goroutines *)

(** The call whose [Lock] a goroutine is about to take, if it stands
    there. *)
Definition acquires (p : pc) : option call :=
  match p with
  | at_Add_Lock conn => Some (call_Add conn)
  | at_Remove_Lock conn => Some (call_Remove conn)
  | at_CloseAll_Lock => Some call_CloseAll
  | _ => None
  end.

(** A goroutine: where it stands in its current call, and the calls it has
    still to make.  It starts at [at_exit None] with all its calls to make;
    a call that panics ends the goroutine. *)
Record goroutine : Type := mkG {
  cur : pc;
  todo : list call;
}.

#[export] Instance goroutine_eq_dec : EqDecision goroutine.
Proof. solve_decision. Defined.

Definition spawn (ks : list call) : goroutine := mkG (at_exit None) ks.

(** A goroutine that has nothing left to do. *)
Definition finished (g : goroutine) : bool :=
  match cur g, todo g with
  | at_exit (Some _), _ | at_exit None, [] => true
  | _, _ => false
  end.

(** The calls a goroutine has not yet taken the lock for. *)
Definition pending (g : goroutine) : list call :=
  option_list (acquires (cur g)) ++ todo g.

(** The calls the goroutines of a pool have not yet taken the lock for. *)
Definition calls_left (gs : list goroutine) : list call := concat (pending <$> gs).

(** A goroutine that has made all its calls and returned from the last. *)
Definition returned_all (g : goroutine) : Prop := g = mkG (at_exit None) [].

Section pool.
Context {W : Type} (close : @closer W) (ord : range_order).

(** One step of the pool: some goroutine executes a statement, or starts
    its next call.  The label is the call whose [Lock] the step takes, if
    it is such a step. *)
Inductive pool_step :
  list goroutine * state W → option call → list goroutine * state W → Prop :=
| step_statement gs s i g p' s' :
    gs !! i = Some g →
    thread_step close ord (cur g) s = Some (p', s') →
    pool_step (gs, s) (acquires (cur g)) (<[i := mkG p' (todo g)]> gs, s')
| step_call gs s i k ks :
    gs !! i = Some (mkG (at_exit None) (k :: ks)) →
    pool_step (gs, s) None (<[i := mkG (entry k) ks]> gs, s).

(** Executions, with the calls in the order in which they took the lock. *)
Inductive pool_steps :
  list goroutine * state W → list call → list goroutine * state W → Prop :=
| steps_refl c : pool_steps c [] c
| steps_step c l c' ls c'' :
    pool_step c l c' → pool_steps c' ls c'' → pool_steps c (option_list l ++ ls) c''.

(** The step of goroutine [i], as a function. *)
Definition sched_step (i : nat) (c : list goroutine * state W) :
    option (option call * (list goroutine * state W)) :=
  g ← c.1 !! i;
  match cur g, todo g with
  | at_exit None, k :: ks => Some (None, (<[i := mkG (entry k) ks]> c.1, c.2))
  | _, _ =>
      '(p', s') ← thread_step close ord (cur g) c.2;
      Some (acquires (cur g), (<[i := mkG p' (todo g)]> c.1, s'))
  end.

(** Run a schedule: the goroutines named take a step each in turn; a
    goroutine that cannot step is skipped. *)
Fixpoint sched_run (sched : list nat) (c : list goroutine * state W) :
    list call * (list goroutine * state W) :=
  match sched with
  | [] => ([], c)
  | i :: sched =>
      match sched_step i c with
      | Some (l, c') => let '(ls, c'') := sched_run sched c' in (option_list l ++ ls, c'')
      | None => sched_run sched c
      end
  end.

(** Calls made one after the other, each running to its end whether it
    returns or panics. *)
Definition seq_state (ks : list call) (s : state W) : state W :=
  foldl (λ s k, outcome_state (run_call close ord k s)) s ks.

(** Goroutine [j] of the pool is inside the critical section. *)
Definition critical_at (gs : list goroutine) (j : nat) : Prop :=
  ∃ g, gs !! j = Some g ∧ in_critical (cur g) = true.

(** [view c st]: in the configuration [c] at most one goroutine is inside
    the critical section, the mutex is held exactly when one is, and [st]
    is the state the registry is in once that goroutine has left it. *)
Definition view (c : list goroutine * state W) (st : state W) : Prop :=
  match mutex (reg c.2) with
  | Unlocked => st = c.2 ∧ ∀ j, ¬ critical_at c.1 j
  | Locked =>
      ∃ i g, c.1 !! i = Some g ∧ in_critical (cur g) = true ∧
             (∀ j, critical_at c.1 j → j = i) ∧
             st = outcome_state (rest close ord (cur g) c.2)
  end.

End pool.

(** Goroutine [i] holds the lock and stands at [conn.Close()] (line 72) of
    a connection object, and no other goroutine is inside the critical
    section. *)
Definition closing_at {W} (c : list goroutine * state W) (i : nat) : Prop :=
  mutex (reg c.2) = Locked ∧
  (∃ g h ks, c.1 !! i = Some g ∧ cur g = at_CloseAll_Close (conn_ref h :: ks)) ∧
  (∀ j, critical_at c.1 j → j = i).

(** ** Fixtures *)

(** A schedule that lets [n] goroutines step in turn, [rounds] times. *)
Definition round_robin (n rounds : nat) : list nat :=
  concat (replicate rounds (seq 0 n)).

(** Three goroutines on the zero value of [Conns], over the world that
    counts [Close] calls. *)
Definition demo_calls : list (list call) :=
  [[call_Add conn_a; call_Remove conn_a]; [call_Add conn_b]; [call_CloseAll]].

Definition demo_start : state (gmap handle nat) := mkState zero_Conns ∅.

(** Scheduled in turn until all have returned: the order in which the
    calls took the lock, and the state in the end. *)
Definition demo_trace : list call :=
  [call_Add conn_a; call_Add conn_b; call_CloseAll; call_Remove conn_a].

Definition demo_end : list goroutine * state (gmap handle nat) :=
  ([mkG (at_exit None) []; mkG (at_exit None) []; mkG (at_exit None) []],
   mkState (mkConns Unlocked (Some ∅)) {[1%positive := 1; 2%positive := 1]}).

(** The same pool stopped after goroutine 0 has taken the lock. *)
Definition demo_locked : list goroutine * state (gmap handle nat) :=
  ([mkG (at_Add_isnil conn_a) [call_Remove conn_a];
    mkG (at_Add_Lock conn_b) []; mkG at_CloseAll_Lock []],
   mkState (mkConns Locked None) ∅).

(** Two goroutines that add one connection each, run until both have
    returned. *)
Definition demo_adds_end : list goroutine * state (gmap handle nat) :=
  ([mkG (at_exit None) []; mkG (at_exit None) []],
   mkState two_conns ∅).

(** One goroutine calling [CloseAll] on connections whose [Close] calls
    back into the registry, where it can no longer step. *)
Definition demo_reentrant : list goroutine * state (gmap handle nat) :=
  ([mkG (at_CloseAll_Close [conn_b; conn_a]) []],
   mkState (mkConns Locked (Some {[conn_a := true; conn_b := true]})) ∅).

(** The same [CloseAll] with a second goroutine that is going to call
    [Add]: where the first stands at [Close], and after the second has
    started its call. *)
Definition demo_waiting : list goroutine * state (gmap handle nat) :=
  ([mkG (at_CloseAll_Close [conn_b; conn_a]) []; mkG (at_exit None) [call_Add conn_a]],
   mkState (mkConns Locked (Some {[conn_a := true; conn_b := true]})) ∅).

Definition demo_waiting_Add : list goroutine * state (gmap handle nat) :=
  ([mkG (at_CloseAll_Close [conn_b; conn_a]) []; mkG (at_Add_Lock conn_a) []],
   mkState (mkConns Locked (Some {[conn_a := true; conn_b := true]})) ∅).

(** ** Proof infrastructure *)

(** Case analysis on a statement executed over well-behaved connections:
    one goal for each statement and each shape of the state, with the
    step of the goroutine computed. *)
Ltac thread_step_cases p s :=
  destruct p as [?c|?c|?c|?c|?c|?c| | |[|[|?h] ?ks]| |?r|?r]; simpl in *;
  destruct s as [[mu m] w]; simpl in *; try destruct mu; try destruct m as [m|];
  unfold world_closer in *; simpl in *; try destruct (world_Close _ _);
  simplify_eq/=.

(** ** One goroutine *)

Section thread_facts.
Context {W : Type} (close : @closer W) (ord : range_order).
Implicit Types (p : pc) (s : state W).

Lemma after_Some {A} (o : outcome (state W) A) next p' s' :
  after o next = Some (p', s') →
  (∃ a, o = Returns a s' ∧ p' = next a) ∨ (∃ e, o = Panics e s' ∧ p' = at_Unlock (Some e)).
Proof. destruct o; naive_solver. Qed.

Lemma after_mutex_Some (o : outcome (state W) ()) next p' s' :
  after_mutex o next = Some (p', s') → o = Returns () s' ∧ p' = next.
Proof. destruct o as [[]| | |]; naive_solver. Qed.

(** A step does not change what remains of the call: the program that
    remains at the new counter, run in the new state, ends as the program
    that remained at the old counter would have in the old state. *)
Theorem thread_step_rest p s p' s' :
  thread_step close ord p s = Some (p', s') →
  rest close ord p s = rest close ord p' s'.
Proof.
  destruct p as [c|c|c|c|c|c| | |[|k ks]| |r|r]; simpl; intros Hstep;
    try apply after_mutex_Some in Hstep as [Ho ->];
    try apply after_Some in Hstep as [(a & Ho & ->)|(e & Ho & ->)];
    simplify_eq/=;
    unfold Add, Remove, CloseAll, defer, close_body, mbind, M_bind in *; simpl in *;
    rewrite ?Ho; try done.
  - by destruct (conns (reg s')).
  - by destruct a.
Qed.

(** No step ends in front of a [Lock]: a goroutine gets there only by
    starting a call. *)
Lemma thread_step_not_to_Lock p s p' s' :
  thread_step close ord p s = Some (p', s') → acquires p' = None.
Proof.
  destruct p as [c|c|c|c|c|c| | |[|k ks]| |r|r]; simpl; intros Hstep;
    try apply after_mutex_Some in Hstep as [Ho ->];
    try apply after_Some in Hstep as [(a & Ho & ->)|(e & Ho & ->)];
    simplify_eq/=; try done.
  by destruct_match.
Qed.

End thread_facts.

(** ** The shape of a step *)

Section step_shape.
Context {W : Type} (close : @closer W) `{!KeepsMutex close} (ord : range_order).
Implicit Types (p : pc) (s : state W) (k : call).

(** The shape of every step: taking the lock, a statement inside the
    critical section, or the deferred [Unlock].  It is the same whatever
    [Close] does, as long as [Close] leaves the mutex alone. *)
Lemma thread_step_inv p s p' s' :
  thread_step close ord p s = Some (p', s') →
  match acquires p with
  | Some k => p = entry k ∧ in_critical p' = true ∧
              mutex (reg s) = Unlocked ∧ s' = set_mutex Locked s
  | None => in_critical p = true ∧
            if in_critical p' then mutex (reg s') = mutex (reg s)
            else mutex (reg s) = Locked ∧ mutex (reg s') = Unlocked ∧
                 ∃ r, p = at_Unlock r ∧ p' = at_exit r
  end.
Proof.
  destruct p as [c|c|c|c|c|c| | |[|[|h] ks]| |r|r]; simpl; intros Hstep;
    try (pose proof (keeps_mutex h s) as Hkeep; destruct (close h s);
         by simplify_eq/=);
    destruct_state s; try destruct mu; try destruct m; simplify_eq/=; eauto 10.
Qed.

Lemma thread_step_consistent p s p' s' :
  thread_step close ord p s = Some (p', s') →
  consistent p s → consistent p' s'.
Proof.
  intros Hstep Hc. apply thread_step_inv in Hstep. unfold consistent in *.
  destruct (acquires p) as [k|].
  - destruct Hstep as (_ & -> & _ & ->). by destruct s as [[]].
  - destruct Hstep as [Hp Hstep]. rewrite Hp in Hc.
    destruct (in_critical p'); [congruence|]. by destruct Hstep as (_ & ? & _).
Qed.

(** Outside the critical section a goroutine has no step while the mutex
    is held. *)
Lemma thread_step_locked p s :
  mutex (reg s) = Locked → in_critical p = false → thread_step close ord p s = None.
Proof. intros Hmu Hp. destruct p; try done; simpl; by rewrite mutex_Lock_held. Qed.

End step_shape.

(** ** One goroutine over well-behaved connections *)

Section solo.
Context `{ConnWorld W} (ord : range_order).
Implicit Types (p : pc) (s : state W) (k : call).

(** Every step uses up one of the statements left. *)
Lemma thread_step_decreases p s p' s' :
  thread_step world_closer ord p s = Some (p', s') →
  steps_left ord p' s' < steps_left ord p s.
Proof. intros Hstep. thread_step_cases p s; unfold range_keys; simpl; lia. Qed.

(** A goroutine that has not reached the end of its call can step, when
    the mutex is held exactly if it is inside the critical section. *)
Lemma thread_step_progress p s :
  consistent p s →
  (∃ r, p = at_exit r) ∨ is_Some (thread_step world_closer ord p s).
Proof. unfold consistent. intros Hmu. thread_step_cases p s; eauto. Qed.

(** A run that has reached the end of the call has computed what remained
    of it. *)
Lemma thread_run_rest n p s r s' :
  thread_run world_closer ord n p s = (at_exit r, s') →
  rest world_closer ord p s = finish r s'.
Proof.
  revert p s. induction n as [|n IH]; intros p s Hrun; simpl in Hrun.
  { by simplify_eq. }
  destruct (thread_step _ _ p s) as [[p1 s1]|] eqn:Hstep; [|by simplify_eq].
  rewrite (thread_step_rest _ _ _ _ _ _ Hstep). by apply IH.
Qed.

(** With enough fuel the run reaches the end of the call. *)
Lemma thread_run_exits n p s :
  consistent p s → steps_left ord p s ≤ n →
  ∃ r s', thread_run world_closer ord n p s = (at_exit r, s').
Proof.
  revert p s. induction n as [|n IH]; intros p s Hc Hn.
  - destruct p; simpl in Hn; try lia. by eexists _, _.
  - simpl. destruct (thread_step_progress p s Hc) as [[r ->]|[[p1 s1] Hstep]].
    { by eexists _, _. }
    rewrite Hstep. apply IH; [by eapply (thread_step_consistent world_closer)|].
    apply thread_step_decreases in Hstep. lia.
Qed.

(** C33. A goroutine running alone on a free registry executes its call to the
    end within [5 + number of keys] statements, and ends as the method of
    [Registry] does: same state, and panicking exactly when it panics. *)
Theorem solo_run k s n :
  mutex (reg s) = Unlocked → 5 + length (range_keys ord (reg s)) ≤ n →
  ∃ r s', thread_run world_closer ord n (entry k) s = (at_exit r, s') ∧
          run_call world_closer ord k s = finish r s'.
Proof.
  intros Hmu Hn.
  destruct (thread_run_exits n (entry k) s) as (r & s' & Hrun).
  - unfold consistent. by destruct k.
  - destruct k; simpl; lia.
  - exists r, s'. split; [done|].
    apply thread_run_rest in Hrun. by destruct k.
Qed.

End solo.

(** ** The invariant of a pool *)

(** The lemmas of this section hold whatever [Close] does, as long as it
    leaves the mutex alone. *)
Section pool_facts.
Context {W : Type} (close : @closer W) `{!KeepsMutex close} (ord : range_order).
Implicit Types (gs : list goroutine) (g : goroutine) (s st : state W) (k : call).

Lemma critical_at_insert gs i g j :
  critical_at (<[i := g]> gs) j ↔
  (j = i ∧ i < length gs ∧ in_critical (cur g) = true) ∨ (j ≠ i ∧ critical_at gs j).
Proof.
  unfold critical_at. setoid_rewrite list_lookup_insert_Some. naive_solver.
Qed.

Lemma seq_state_app ks1 ks2 s :
  seq_state close ord (ks1 ++ ks2) s = seq_state close ord ks2 (seq_state close ord ks1 s).
Proof. apply foldl_app. Qed.

Lemma outcome_state_finish r s : outcome_state (finish (W := W) r s) = s.
Proof. by destruct r. Qed.

(** Starting the next call changes nothing in the view. *)
Lemma view_step_call gs s st i k ks :
  gs !! i = Some (mkG (at_exit None) (k :: ks)) →
  view close ord (gs, s) st →
  view close ord (<[i := mkG (entry k) ks]> gs, s) st.
Proof.
  intros Hi. unfold view; simpl.
  assert (∀ j, critical_at (<[i := mkG (entry k) ks]> gs) j ↔ critical_at gs j) as Hcrit.
  { intros j. rewrite critical_at_insert. unfold critical_at.
    destruct k; simpl; naive_solver. }
  destruct (mutex (reg s)).
  - intros [-> Hno]. split; [done|]. intros j. by rewrite Hcrit.
  - intros (i0 & g0 & Hi0 & Hg0 & Huniq & ->). exists i0, g0.
    rewrite list_lookup_insert_ne by (intros ->; naive_solver).
    split_and!; [done..| |done]. intros j. rewrite Hcrit. apply Huniq.
Qed.

(** Taking the lock: the view becomes the state after the whole call. *)
Lemma view_step_acquire gs s st i g k p' s' :
  gs !! i = Some g → acquires (cur g) = Some k →
  thread_step close ord (cur g) s = Some (p', s') →
  view close ord (gs, s) st →
  view close ord (<[i := mkG p' (todo g)]> gs, s')
       (outcome_state (run_call close ord k st)).
Proof.
  intros Hi Hk Hstep. pose proof (thread_step_rest _ _ _ _ _ _ Hstep) as Hrest.
  apply (thread_step_inv close) in Hstep. rewrite Hk in Hstep.
  destruct Hstep as (Hp & Hp' & Hmu & ->). unfold view; simpl. rewrite Hmu.
  intros [-> Hno]. exists i, (mkG p' (todo g)).
  rewrite list_lookup_insert_eq by by eapply lookup_lt_Some.
  split_and!; [done..| |].
  - intros j. rewrite critical_at_insert. naive_solver.
  - simpl. rewrite <-Hrest, Hp. by destruct k.
Qed.

(** A statement inside the critical section, or the deferred [Unlock]:
    the view does not change. *)
Lemma view_step_inside gs s st i g p' s' :
  gs !! i = Some g → acquires (cur g) = None →
  thread_step close ord (cur g) s = Some (p', s') →
  view close ord (gs, s) st →
  view close ord (<[i := mkG p' (todo g)]> gs, s') st.
Proof.
  intros Hi Hk Hstep. pose proof (thread_step_rest _ _ _ _ _ _ Hstep) as Hrest.
  apply (thread_step_inv close) in Hstep. rewrite Hk in Hstep. destruct Hstep as [Hg Hstep].
  assert (critical_at gs i) as Hcrit by by exists g.
  unfold view; simpl. destruct (mutex (reg s)) eqn:Hmu; [naive_solver|].
  intros (i0 & g0 & Hi0 & Hg0 & Huniq & ->).
  assert (i0 = i) as -> by (symmetry; by apply Huniq). simplify_eq.
  destruct (in_critical p') eqn:Hp'.
  - rewrite Hstep. exists i, (mkG p' (todo g)).
    rewrite list_lookup_insert_eq by by eapply lookup_lt_Some.
    split_and!; [done..| |by rewrite Hrest].
    intros j. rewrite critical_at_insert. naive_solver.
  - destruct Hstep as (_ & -> & r & _ & ->). split.
    + rewrite Hrest. apply outcome_state_finish.
    + intros j. rewrite critical_at_insert. naive_solver.
Qed.

(** Every step of the pool maintains the view; a step that takes the lock
    for a call advances it by that call. *)
Theorem view_step c l c' st :
  pool_step close ord c l c' →
  view close ord c st →
  view close ord c' (seq_state close ord (option_list l) st).
Proof.
  destruct 1 as [gs s i g p' s' Hi Hstep|gs s i k ks Hi]; [|by apply view_step_call].
  destruct (acquires (cur g)) as [k|] eqn:Hk; simpl.
  - by eapply view_step_acquire.
  - by eapply view_step_inside.
Qed.

(** Along any execution the view is the state reached by making the calls
    one after the other, in the order in which they took the lock. *)
Theorem view_steps c ls c' st :
  pool_steps close ord c ls c' →
  view close ord c st →
  view close ord c' (seq_state close ord ls st).
Proof.
  induction 1 as [c|c l c1 ls c' Hstep _ IH] in st |- *; [done|].
  intros Hv. rewrite seq_state_app. by eapply IH, view_step.
Qed.

End pool_facts.

(** ** Executions from a pool of freshly spawned goroutines *)

Section executions.
Context `{ConnWorld W} (ord : range_order).
Implicit Types (gs : list goroutine) (g : goroutine) (s st : state W) (k : call)
  (kss : list (list call)).

Lemma view_spawn (close : @closer W) kss s :
  mutex (reg s) = Unlocked → view close ord (spawn <$> kss, s) s.
Proof.
  intros Hmu. unfold view; simpl. rewrite Hmu. split; [done|].
  intros j (g & Hg & Hc). rewrite list_lookup_fmap in Hg.
  destruct (kss !! j); by simplify_eq/=.
Qed.

Lemma calls_left_spawn kss : calls_left (spawn <$> kss) = concat kss.
Proof.
  unfold calls_left. f_equal. rewrite <-list_fmap_compose. by apply list_fmap_id.
Qed.

Lemma calls_left_returned_all gs : Forall returned_all gs → calls_left gs = [].
Proof.
  unfold calls_left. induction 1 as [|g gs -> _ IH]; [done|].
  rewrite fmap_cons. simpl. exact IH.
Qed.

Lemma calls_left_insert gs i g g' :
  gs !! i = Some g →
  pending g ++ calls_left (<[i := g']> gs) ≡ₚ pending g' ++ calls_left gs.
Proof.
  intros Hi. unfold calls_left. rewrite list_fmap_insert.
  apply concat_insert_perm. by rewrite list_lookup_fmap, Hi.
Qed.

(** No call is lost or made twice: the calls that took the lock together
    with the calls still to be made are the calls of the pool. *)
Lemma pool_step_calls (close : @closer W) c l c' :
  pool_step close ord c l c' → option_list l ++ calls_left c'.1 ≡ₚ calls_left c.1.
Proof.
  destruct 1 as [gs s i g p' s' Hi Hstep|gs s i k ks Hi]; simpl.
  - pose proof (calls_left_insert gs i g (mkG p' (todo g)) Hi) as Hins.
    pose proof (thread_step_not_to_Lock _ _ _ _ _ _ Hstep) as Hp'.
    unfold pending in Hins; simpl in Hins. rewrite Hp' in Hins; simpl in Hins.
    apply (inj (app (todo g))). rewrite <-Hins. solve_Permutation.
  - pose proof (calls_left_insert gs i _ (mkG (entry k) ks) Hi) as Hins.
    unfold pending in Hins; simpl in Hins.
    replace (option_list (acquires (entry k))) with [k] in Hins by by destruct k.
    simpl in Hins. by apply (inj (cons k)), (inj (app ks)) in Hins.
Qed.

Theorem pool_steps_calls (close : @closer W) c ls c' :
  pool_steps close ord c ls c' → ls ++ calls_left c'.1 ≡ₚ calls_left c.1.
Proof.
  induction 1 as [c|c l c1 ls c' Hstep _ IH]; [done|].
  rewrite <-(pool_step_calls _ _ _ _ Hstep), <-IH. solve_Permutation.
Qed.

(** With no goroutine inside the critical section, the view is the state
    itself. *)
Lemma view_quiescent (close : @closer W) gs s st :
  view close ord (gs, s) st → (∀ j, ¬ critical_at gs j) → s = st.
Proof.
  unfold view; simpl. intros Hv Hno. destruct (mutex (reg s)).
  - by destruct Hv as [<- _].
  - destruct Hv as (i & g & Hi & Hc & _). destruct (Hno i). by exists g.
Qed.

Lemma returned_all_quiescent gs : Forall returned_all gs → ∀ j, ¬ critical_at gs j.
Proof.
  intros Hall j (g & Hg & Hc). eapply Forall_lookup_1 in Hall; [|done].
  by rewrite Hall in Hc.
Qed.

(** A goroutine inside the critical section holds the lock, and is the
    only one inside. *)
Lemma view_exclusive (close : @closer W) gs s st i :
  view close ord (gs, s) st → critical_at gs i →
  mutex (reg s) = Locked ∧ ∀ j, critical_at gs j → j = i.
Proof.
  unfold view; simpl. intros Hv Hi. destruct (mutex (reg s)); [naive_solver|].
  destruct Hv as (i0 & _ & _ & _ & Huniq & _). split; [done|].
  intros j Hj. by rewrite (Huniq i), (Huniq j).
Qed.

(** *** Mutual exclusion *)

(** C8. In every configuration an execution reaches, at most one goroutine is
    inside the critical section, and the mutex is held when one is,
    whatever [Close] does to the connections and to the members as long
    as it leaves the mutex as it found it. *)
Theorem mutual_exclusion (close : @closer W) `{!KeepsMutex close} kss s0 ls gs s i j :
  mutex (reg s0) = Unlocked →
  pool_steps close ord (spawn <$> kss, s0) ls (gs, s) →
  critical_at gs i → critical_at gs j →
  i = j ∧ mutex (reg s) = Locked.
Proof.
  intros Hmu Hsteps Hi Hj.
  pose proof (view_steps _ ord _ _ _ _ Hsteps (view_spawn _ kss s0 Hmu)) as Hv.
  destruct (view_exclusive _ _ _ _ _ Hv Hi) as [Hs Huniq]. split; [|done].
  symmetry. by apply Huniq.
Qed.

(** C18. While a goroutine is inside the critical section, at [conn.Close()]
    of line 72 for instance, no other goroutine can execute a statement:
    a call that has been made waits at its [Lock] until the lock is
    released, however long [Close] takes.  [CloseAll] holds the lock
    while it closes the connections (lines 69-73), so every [Add] and
    [Remove] made meanwhile is stalled. *)
Theorem lock_waits (close : @closer W) `{!KeepsMutex close} kss s0 ls gs s i j g :
  mutex (reg s0) = Unlocked →
  pool_steps close ord (spawn <$> kss, s0) ls (gs, s) →
  critical_at gs i → gs !! j = Some g → j ≠ i →
  thread_step close ord (cur g) s = None.
Proof.
  intros Hmu Hsteps Hi Hj Hne.
  pose proof (view_steps _ ord _ _ _ _ Hsteps (view_spawn _ kss s0 Hmu)) as Hv.
  destruct (view_exclusive _ _ _ _ _ Hv Hi) as [Hs Huniq].
  apply thread_step_locked; [done|]. destruct (in_critical (cur g)) eqn:Hg; [|done].
  destruct Hne. apply Huniq. by exists g.
Qed.

(** *** Serializability *)

(** C4. When every goroutine has left the critical section, the registry and
    the world are in the state reached by making the calls one after the
    other in the order in which they took the lock, whatever [Close] does
    as long as it leaves the mutex as it found it. *)
Theorem serializable (close : @closer W) `{!KeepsMutex close} kss s0 ls gs s :
  mutex (reg s0) = Unlocked →
  pool_steps close ord (spawn <$> kss, s0) ls (gs, s) →
  (∀ j, ¬ critical_at gs j) →
  s = seq_state close ord ls s0.
Proof.
  intros Hmu Hsteps. apply (view_quiescent close).
  apply (view_steps _ ord _ _ _ _ Hsteps (view_spawn _ kss s0 Hmu)).
Qed.

(** When every goroutine has made all its calls, the calls that took the
    lock are the calls of the pool, each once. *)
Theorem complete_execution_calls (close : @closer W) kss s0 ls gs s :
  pool_steps close ord (spawn <$> kss, s0) ls (gs, s) →
  Forall returned_all gs →
  ls ≡ₚ concat kss.
Proof.
  intros Hsteps Hall. apply pool_steps_calls in Hsteps. simpl in Hsteps.
  by rewrite calls_left_spawn, calls_left_returned_all, app_nil_r in Hsteps.
Qed.

(** *** Absence of deadlock *)

(** In a configuration that satisfies the view, an unfinished goroutine
    means that some goroutine can step: the one inside the critical section
    when the mutex is held, the unfinished one otherwise. *)
Lemma view_progress gs s st g :
  view world_closer ord (gs, s) st → g ∈ gs → finished g = false →
  ∃ l c', pool_step world_closer ord (gs, s) l c'.
Proof.
  unfold view; simpl. intros Hv Hg Hfin. destruct (mutex (reg s)) eqn:Hs.
  - destruct Hv as [_ Hno]. apply list_elem_of_lookup in Hg as [i Hi].
    destruct g as [p ks].
    destruct (thread_step_progress ord p s) as [[r ->]|[[p' s'] Hstep]].
    + unfold consistent. destruct (in_critical p) eqn:Hp; [|done].
      destruct (Hno i). by eexists.
    + destruct r, ks as [|k ks]; try done. eexists _, _. by eapply step_call.
    + eexists _, _. by eapply (step_statement _ _ gs s i (mkG p ks)).
  - destruct Hv as (i & g0 & Hi & Hc & _).
    destruct (thread_step_progress ord (cur g0) s) as [[r Hr]|[[p' s'] Hstep]].
    + unfold consistent. by rewrite Hc.
    + by rewrite Hr in Hc.
    + eexists _, _. by eapply step_statement.
Qed.

(** As long as some goroutine has something left to do, some goroutine can
    take a step. *)
Theorem deadlock_free kss s0 ls gs s g :
  mutex (reg s0) = Unlocked →
  pool_steps world_closer ord (spawn <$> kss, s0) ls (gs, s) →
  g ∈ gs → finished g = false →
  ∃ l c', pool_step world_closer ord (gs, s) l c'.
Proof.
  intros Hmu Hsteps. eapply view_progress.
  apply (view_steps _ ord _ _ _ _ Hsteps (view_spawn _ kss s0 Hmu)).
Qed.

End executions.

(** ** Schedules *)

Section schedules.
Context {W : Type} (close : @closer W) (ord : range_order).
Implicit Types (c : list goroutine * state W) (sched : list nat).

(** The step of goroutine [i] starts its next call or executes the
    statement it stands at. *)
Lemma sched_step_inv i gs s l c' :
  sched_step close ord i (gs, s) = Some (l, c') →
  ∃ p ks, gs !! i = Some (mkG p ks) ∧
    ((∃ k ks', p = at_exit None ∧ ks = k :: ks' ∧ l = None ∧
               c' = (<[i := mkG (entry k) ks']> gs, s)) ∨
     (∃ p' s', thread_step close ord p s = Some (p', s') ∧ l = acquires p ∧
               c' = (<[i := mkG p' ks]> gs, s'))).
Proof.
  unfold sched_step; simpl.
  destruct (gs !! i) as [[p ks]|] eqn:Hi; simpl; [|done]. intros Hstep.
  exists p, ks. split; [done|].
  destruct p as [| | | | | | | | | | |[]]; try destruct ks;
    try (destruct (thread_step _ _ _ _) as [[]|] eqn:?); simplify_eq/=; eauto 10.
Qed.

Lemma sched_step_sound i c l c' :
  sched_step close ord i c = Some (l, c') → pool_step close ord c l c'.
Proof.
  destruct c as [gs s]. intros Hstep.
  apply sched_step_inv in Hstep as (p & ks & Hi & [Hc|Hc]).
  - destruct Hc as (k & ks' & -> & -> & -> & ->). by apply (step_call _ _ gs s i).
  - destruct Hc as (p' & s' & Hp & -> & ->). by apply (step_statement _ _ gs s i (mkG p ks)).
Qed.

(** A schedule yields an execution of the pool. *)
Theorem sched_run_sound sched c ls c' :
  sched_run close ord sched c = (ls, c') → pool_steps close ord c ls c'.
Proof.
  revert c ls c'. induction sched as [|i sched IH]; intros c ls c' Hrun; simpl in Hrun.
  { simplify_eq. constructor. }
  destruct (sched_step close ord i c) as [[l c1]|] eqn:Hstep; [|by apply IH].
  destruct (sched_run close ord sched c1) as [ls1 c2] eqn:Hrun1. simplify_eq.
  econstructor; [by eapply sched_step_sound|by apply IH].
Qed.

End schedules.

(** ** Concurrent calls implement the abstract registry *)

Section linearizable.
Context `{ConnWorld W} `{!ConnWorldComm W} (ord : range_order).
Implicit Types (gs : list goroutine) (s : state W) (kss : list (list call)).

Lemma seq_state_cons (close : @closer W) k ks s :
  seq_state close ord (k :: ks) s =
    seq_state close ord ks (outcome_state (run_call close ord k s)).
Proof. done. Qed.

Lemma seq_state_returns (close : @closer W) ks s s' :
  run_calls close ord ks s = Returns () s' → seq_state close ord ks s = s'.
Proof.
  revert s. induction ks as [|k ks IH]; intros s.
  { cbv [run_calls range_loop mret M_ret]. by intros [= ->]. }
  rewrite seq_state_cons. unfold run_calls; cbn [range_loop]. unfold mbind, M_bind.
  destruct (run_call close ord k s) as [[] s1| | |]; try done. apply IH.
Qed.

(** Once every goroutine of a pool started on a ready registry has
    returned, the calls that took the lock are the calls of the pool, and
    one goroutine making them in that order returns in the state the pool
    is in. *)
Lemma quiescent_run kss s0 ls gs s :
  Conns_ready s0 → Forall (Forall call_ok) kss →
  pool_steps world_closer ord (spawn <$> kss, s0) ls (gs, s) →
  Forall returned_all gs →
  ls ≡ₚ concat kss ∧ run_calls world_closer ord ls s0 = Returns () s.
Proof.
  intros Hs0 Hok Hsteps Hall.
  pose proof (pool_steps_calls ord _ _ _ _ Hsteps) as Hperm. simpl in Hperm.
  rewrite calls_left_spawn, calls_left_returned_all, app_nil_r in Hperm by done.
  split; [done|].
  destruct (calls_refine (RegistryCorrect0 := Conns_refines ord) ls s0)
    as (s' & Hrun & _); [|done|].
  { rewrite Hperm. by apply Forall_concat. }
  change (run_calls world_closer ord ls s0 = Returns () s') in Hrun.
  rewrite Hrun. f_equal. rewrite <-(seq_state_returns _ _ _ _ Hrun). symmetry.
  eapply view_quiescent; [|by apply returned_all_quiescent].
  apply (view_steps _ ord _ _ _ _ Hsteps), view_spawn. by destruct Hs0 as [[]].
Qed.

(** C9. Goroutines call the methods concurrently on a ready registry, never
    adding the nil interface.  Once all have returned, the registry is in
    the state in which one goroutine returns that makes the calls of all
    of them in some order, the order in which they took the lock; it is
    ready, and its members and the world are those the abstract registry
    computes from these calls. *)
Theorem concurrent_calls_refine kss s0 ls gs s :
  Conns_ready s0 → Forall (Forall call_ok) kss →
  pool_steps world_closer ord (spawn <$> kss, s0) ls (gs, s) →
  Forall returned_all gs →
  ls ≡ₚ concat kss ∧ run_calls world_closer ord ls s0 = Returns () s ∧
  Conns_ready s ∧ Conns_abs s = spec_run ls (Conns_abs s0).
Proof.
  intros Hs0 Hok Hsteps Hall.
  destruct (quiescent_run kss s0 ls gs s) as [Hperm Hrun]; [done..|].
  split; [done|]. split; [done|].
  apply (run_calls_abs ord ls); [done| |done]. rewrite Hperm. by apply Forall_concat.
Qed.

(** C23. [n] goroutines each add one connection, all different, to the zero
    value of [Conns]: when they have returned the registry has exactly [n]
    members. *)
Theorem concurrent_adds_size (cs : list net_Conn) (w : W) ls gs s :
  NoDup cs → nil_Conn ∉ cs →
  pool_steps world_closer ord
    (spawn <$> ((λ c, [call_Add c]) <$> cs), mkState zero_Conns w) ls (gs, s) →
  Forall returned_all gs →
  size (members (reg s)) = length cs.
Proof.
  intros Hnd Hnil Hsteps Hall.
  destruct (quiescent_run ((λ c, [call_Add c]) <$> cs)
              (mkState zero_Conns w) ls gs s) as [Hperm Hrun]; [| |done..|].
  { apply zero_Conns_ready. }
  { apply Forall_fmap, Forall_forall. intros c Hc. repeat constructor.
    intros ?; by simplify_eq. }
  rewrite concat_fmap_singleton in Hperm.
  apply Permutation_fmap_inv in Hperm as (cs' & -> & Hcs').
  destruct (impl_distinct_adds (RegistryCorrect0 := Conns_refines ord) cs'
              (mkState zero_Conns w)) as (s' & Hrun' & Hsize);
    [by rewrite Hcs'..|apply zero_Conns_ready|done|].
  change (run_calls world_closer ord (call_Add <$> cs') (mkState zero_Conns w) =
          Returns () s') in Hrun'.
  rewrite <-Hcs'. by assert (s' = s) as -> by congruence.
Qed.

End linearizable.

(** ** Re-entrant connections in a pool *)

Section reentrant_pool.
Context {W : Type} (ord : range_order).
Implicit Types (c : list goroutine * state W) (gs : list goroutine) (s : state W).

(** Once [CloseAll] stands at [Close] of a connection that calls back
    into the registry, the only steps left are goroutines starting calls:
    no statement is executed, nothing takes the lock, and the state stays
    as it is. *)
Lemma closing_at_step c l c' i :
  pool_step reentrant_closer ord c l c' → closing_at c i →
  l = None ∧ c'.2 = c.2 ∧ c'.1 !! i = c.1 !! i ∧ closing_at c' i.
Proof.
  destruct 1 as [gs s j gj p' s' Hj Hstep|gs s j k ks' Hj];
    intros (Hmu & (g & h & ks & Hi & Hcur) & Huniq); simpl in *.
  - exfalso. destruct (in_critical (cur gj)) eqn:Hc.
    + assert (j = i) as -> by (apply Huniq; by exists gj). simplify_eq.
      rewrite Hcur in Hstep. simpl in Hstep.
      by rewrite reentrant_closer_blocks in Hstep.
    + by rewrite thread_step_locked in Hstep.
  - assert (j ≠ i) as Hne by (intros ->; simplify_eq; by rewrite Hcur in *).
    rewrite list_lookup_insert_ne by done. split_and!; [done..|].
    split; [done|]. split.
    + exists g, h, ks. simpl. by rewrite list_lookup_insert_ne.
    + intros j' Hj'. apply critical_at_insert in Hj' as [(_ & _ & Hc)|[_ Hj']];
        [by destruct k|by apply Huniq].
Qed.

Lemma closing_at_steps c ls c' i :
  pool_steps reentrant_closer ord c ls c' → closing_at c i →
  ls = [] ∧ c'.2 = c.2 ∧ c'.1 !! i = c.1 !! i.
Proof.
  induction 1 as [c|c l c1 ls c' Hstep _ IH]; intros Hc; [done|].
  destruct (closing_at_step _ _ _ _ Hstep Hc) as (-> & Hs & Hi & Hc1).
  destruct (IH Hc1) as (-> & Hs' & Hi'). split_and!; [done|congruence..].
Qed.

(** C17. The deadlock is reached in any pool and is permanent.  Whatever the
    goroutines did before, once one of them stands at [Close] of a
    connection whose [Close] calls back into the registry, it holds the
    lock and stays where it is for ever: in every continuation of the
    execution no call takes the lock and the state does not change, so
    every goroutine that calls a method of the registry waits for ever. *)
Theorem reentrant_deadlock kss s0 ls gs s i g h ks ls' c' :
  mutex (reg s0) = Unlocked →
  pool_steps reentrant_closer ord (spawn <$> kss, s0) ls (gs, s) →
  gs !! i = Some g → cur g = at_CloseAll_Close (conn_ref h :: ks) →
  pool_steps reentrant_closer ord (gs, s) ls' c' →
  mutex (reg s) = Locked ∧ ls' = [] ∧ c'.2 = s ∧ c'.1 !! i = Some g.
Proof.
  intros Hmu Hsteps Hi Hcur Hnext.
  pose proof (view_steps _ ord _ _ _ _ Hsteps (view_spawn ord _ kss s0 Hmu)) as Hv.
  destruct (view_exclusive ord _ _ _ _ i Hv) as [Hs Huniq].
  { exists g. by rewrite Hcur. }
  destruct (closing_at_steps _ _ _ i Hnext) as (-> & Hs' & Hi'); [|by rewrite Hi'].
  split; [done|]. split; [by exists g, h, ks|done].
Qed.

End reentrant_pool.

(** [CloseAll] over two connections whose [Close] removes the connection
    from the registry: the goroutine takes the lock and lists the keys, and
    then no step is possible, with the mutex held and the goroutine inside
    the critical section. *)
Theorem reentrant_pool_deadlock :
  pool_steps reentrant_closer canonical_order
    ([spawn [call_CloseAll]], mkState two_conns ∅) [call_CloseAll] demo_reentrant ∧
  ∀ l c', ¬ pool_step reentrant_closer canonical_order demo_reentrant l c'.
Proof.
  split.
  - apply sched_run_sound with (sched := [0; 0; 0]). by vm_compute.
  - intros l c' Hstep.
    inversion Hstep as [gs s i g p' s' Hi Hth|gs s i k ks Hi]; subst;
      (destruct i as [|i]; [|done]); by simplify_eq/=.
Qed.

(** ** The theorems at concrete inputs *)

Section conc_witnesses.

Lemma no_critical_Forall (gs : list goroutine) :
  Forall (λ g, in_critical (cur g) = false) gs → ∀ j, ¬ critical_at gs j.
Proof.
  intros Hall j (g & Hg & Hc). eapply Forall_lookup_1 in Hall; [|done]. congruence.
Qed.

Lemma demo_steps :
  pool_steps world_closer canonical_order (spawn <$> demo_calls, demo_start)
             demo_trace demo_end.
Proof. apply sched_run_sound with (sched := round_robin 3 20). by vm_compute. Defined.

Lemma demo_locked_steps :
  pool_steps world_closer canonical_order (spawn <$> demo_calls, demo_start)
             [call_Add conn_a] demo_locked.
Proof. apply sched_run_sound with (sched := [0; 0; 1; 2]). by vm_compute. Defined.

Lemma demo_adds_steps :
  pool_steps world_closer canonical_order
    (spawn <$> ((λ c, [call_Add c]) <$> [conn_a; conn_b]), demo_start)
    [call_Add conn_a; call_Add conn_b] demo_adds_end.
Proof. apply sched_run_sound with (sched := round_robin 2 12). by vm_compute. Defined.

Lemma reentrant_deadlock_witness :
  mutex (reg demo_waiting.2) = Locked ∧ ([] : list call) = [] ∧
  demo_waiting_Add.2 = demo_waiting.2 ∧
  demo_waiting_Add.1 !! 0 = Some (mkG (at_CloseAll_Close [conn_b; conn_a]) []).
Proof.
  apply (reentrant_deadlock canonical_order [[call_CloseAll]; [call_Add conn_a]]
           (mkState two_conns ∅) [call_CloseAll] demo_waiting.1 demo_waiting.2 0
           (mkG (at_CloseAll_Close [conn_b; conn_a]) []) 2%positive [conn_a] []
           demo_waiting_Add); [done| |done..|].
  - apply sched_run_sound with (sched := [0; 0; 0]). by vm_compute.
  - apply sched_run_sound with (sched := [0; 1; 1]). by vm_compute.
Defined.

Lemma demo_calls_ok : Forall (Forall call_ok) demo_calls.
Proof. repeat constructor; by intros ?. Qed.

Lemma demo_end_returned : Forall returned_all demo_end.1.
Proof. by repeat constructor. Defined.

Lemma solo_run_witness :
  ∃ r s', thread_run world_closer canonical_order 7 (entry call_CloseAll)
            (mkState two_conns (∅ : gmap handle nat)) = (at_exit r, s') ∧
          run_call world_closer canonical_order call_CloseAll
            (mkState two_conns (∅ : gmap handle nat)) = finish r s'.
Proof. apply solo_run; [done|]. vm_compute. lia. Defined.

Lemma mutual_exclusion_witness : 0 = 0 ∧ mutex (reg demo_locked.2) = Locked.
Proof.
  apply (mutual_exclusion canonical_order world_closer demo_calls demo_start [call_Add conn_a]
           demo_locked.1 demo_locked.2 0 0 eq_refl demo_locked_steps); by eexists.
Defined.

Lemma lock_waits_witness :
  thread_step world_closer canonical_order (at_Add_Lock conn_b) demo_locked.2 = None.
Proof.
  apply (lock_waits canonical_order world_closer demo_calls demo_start [call_Add conn_a]
           demo_locked.1 demo_locked.2 0 1 (mkG (at_Add_Lock conn_b) []) eq_refl
           demo_locked_steps); [by eexists|done|done].
Defined.

Lemma serializable_witness :
  demo_end.2 = seq_state world_closer canonical_order demo_trace demo_start.
Proof.
  apply (serializable canonical_order world_closer demo_calls demo_start demo_trace demo_end.1
           demo_end.2 eq_refl demo_steps).
  apply no_critical_Forall. by repeat constructor.
Defined.

Lemma complete_execution_calls_witness : demo_trace ≡ₚ concat demo_calls.
Proof.
  apply (complete_execution_calls canonical_order world_closer demo_calls demo_start
           demo_trace demo_end.1 demo_end.2 demo_steps demo_end_returned).
Defined.

Lemma deadlock_free_witness :
  ∃ l c', pool_step world_closer canonical_order demo_locked l c'.
Proof.
  apply (deadlock_free canonical_order demo_calls demo_start [call_Add conn_a]
           demo_locked.1 demo_locked.2 (mkG (at_CloseAll_Lock) []) eq_refl
           demo_locked_steps); [|done].
  simpl. set_solver.
Defined.

Lemma concurrent_calls_refine_witness :
  demo_trace ≡ₚ concat demo_calls ∧
  run_calls world_closer canonical_order demo_trace demo_start = Returns () demo_end.2 ∧
  Conns_ready demo_end.2 ∧
  Conns_abs demo_end.2 = spec_run demo_trace (Conns_abs demo_start).
Proof.
  apply (concurrent_calls_refine canonical_order demo_calls demo_start demo_trace
           demo_end.1 demo_end.2).
  - apply zero_Conns_ready.
  - apply demo_calls_ok.
  - apply demo_steps.
  - apply demo_end_returned.
Defined.

Lemma concurrent_adds_size_witness : size (members (reg demo_adds_end.2)) = 2.
Proof.
  apply (concurrent_adds_size canonical_order [conn_a; conn_b] ∅
           [call_Add conn_a; call_Add conn_b] demo_adds_end.1 demo_adds_end.2).
  - by repeat constructor; set_solver.
  - set_solver.
  - apply demo_adds_steps.
  - by repeat constructor.
Defined.

End conc_witnesses.
