(* ===== verification/Races.v ===== *)
(** * Races: the shared memory the statements touch and its lock discipline

    The statements of [src/psiphon/conn.go] read and write two shared
    locations of a [Conns]: the field [conns], which holds the reference
    to the map, and the map it refers to.  This file lists the accesses of
    each statement, shows that the list says what the statements of
    [Registry] do, and proves that the accesses are guarded by the mutex:
    in no configuration a pool of goroutines reaches are two goroutines
    about to make conflicting accesses. *)

From S2P Require Import Prelude GoSem Net RegistrySpec Registry Concurrent.

(** ** Accesses *)

(** The shared data of [type Conns struct]: the field [conns] (line 50)
    and the contents of the map the field refers to.  The field [mutex] is
    the synchronisation object, not data. *)
Inductive location : Type :=
| field_conns
| map_contents.

Inductive access_kind : Type :=
| ReadAcc
| WriteAcc.

Definition access : Type := access_kind * location.

#[export] Instance location_eq_dec : EqDecision location.
Proof. solve_decision. Defined.

#[export] Instance access_kind_eq_dec : EqDecision access_kind.
Proof. solve_decision. Defined.

(** What the statement at a program counter does to the shared data:
    [conns.conns == nil] reads the field (line 56), [conns.conns = make(...)]
    writes it (lines 57 and 74), [conns.conns[conn] = true] and
    [delete(conns.conns, conn)] read the field and write the map (lines 59
    and 65), [range conns.conns] reads the field and the map (line 71) and
    goes on reading the map as the loop advances (lines 71-73).  [Lock],
    the deferred [Unlock] and the end of a call touch no data. *)
Definition accesses (p : pc) : list access :=
  match p with
  | at_Add_isnil _ => [(ReadAcc, field_conns)]
  | at_Add_make _ | at_CloseAll_make => [(WriteAcc, field_conns)]
  | at_Add_assign _ | at_Remove_delete _ =>
      [(ReadAcc, field_conns); (WriteAcc, map_contents)]
  | at_CloseAll_range => [(ReadAcc, field_conns); (ReadAcc, map_contents)]
  | at_CloseAll_Close _ => [(ReadAcc, map_contents)]
  | at_Add_Lock _ | at_Remove_Lock _ | at_CloseAll_Lock | at_Unlock _ | at_exit _ => []
  end.

(** Two accesses conflict when they are to the same location and one of
    them writes. *)
Definition conflict (a b : access) : Prop :=
  a.2 = b.2 ∧ (a.1 = WriteAcc ∨ b.1 = WriteAcc).

(** The statements at [p] and [q] conflict when some access of the one
    conflicts with some access of the other. *)
Definition conflicting (p q : pc) : Prop :=
  Exists (λ a, Exists (conflict a) (accesses q)) (accesses p).

(** A data race: two different goroutines are about to execute
    conflicting statements. *)
Definition racing (gs : list goroutine) (i j : nat) : Prop :=
  i ≠ j ∧ ∃ gi gj, gs !! i = Some gi ∧ gs !! j = Some gj ∧ conflicting (cur gi) (cur gj).

(** A statement writes the field, or the map. *)
Definition writes (l : location) (p : pc) : bool :=
  bool_decide ((WriteAcc, l) ∈ accesses p).

#[export] Instance conflict_dec a b : Decision (conflict a b).
Proof. unfold conflict. apply _. Defined.

#[export] Instance conflicting_dec p q : Decision (conflicting p q).
Proof. unfold conflicting. apply _. Defined.

(** ** Fixtures *)

(** Two goroutines inside [Add] at once, as they would stand if [Add] did
    not take the lock. *)
Definition unguarded_adds : list goroutine :=
  [mkG (at_Add_make conn_a) []; mkG (at_Add_isnil conn_b) []].

(** ** The accesses are those of the statements *)

Section footprint.
Context `{ConnWorld W} (ord : range_order).
Implicit Types (p : pc) (s : state W) (m : option (gmap net_Conn bool)).

(** A statement that does not write the field leaves it nil or allocated
    as it was, and one that writes neither the field nor the map leaves
    the map as it was. *)
Lemma thread_step_writes p s p' s' :
  thread_step world_closer ord p s = Some (p', s') →
  (writes field_conns p = false → is_Some (conns (reg s')) ↔ is_Some (conns (reg s))) ∧
  (writes field_conns p = false → writes map_contents p = false →
   conns (reg s') = conns (reg s)).
Proof.
  intros Hstep. thread_step_cases p s; split; try done;
    rewrite ?is_Some_alt; naive_solver.
Qed.

(** A statement that makes no access does not depend on the map: it steps
    in the same way whatever the field holds. *)
Lemma thread_step_no_access (close : @closer W) p s m :
  accesses p = [] →
  thread_step close ord p (set_conns m s) =
    prod_map id (set_conns m) <$> thread_step close ord p s.
Proof.
  intros Hp. destruct p; try done; simpl; destruct_state s; by destruct mu.
Qed.

End footprint.

(** ** Lock discipline *)

Section discipline.
Implicit Types (p q : pc) (gs : list goroutine).

(** Every statement that touches the shared data stands between [Lock]
    and the deferred [Unlock]. *)
Lemma accesses_in_critical p : accesses p ≠ [] → in_critical p = true.
Proof. by destruct p. Qed.

Lemma conflicting_in_critical p q :
  conflicting p q → in_critical p = true ∧ in_critical q = true.
Proof.
  unfold conflicting. intros Hpq. split; apply accesses_in_critical; intros Hnil.
  - by rewrite Hnil in Hpq; apply Exists_nil in Hpq.
  - rewrite Hnil in Hpq. apply Exists_exists in Hpq as (a & _ & Ha).
    by apply Exists_nil in Ha.
Qed.

(** Two racing goroutines are both inside the critical section. *)
Lemma racing_critical gs i j :
  racing gs i j → i ≠ j ∧ critical_at gs i ∧ critical_at gs j.
Proof.
  intros (Hne & gi & gj & Hi & Hj & Hc).
  apply conflicting_in_critical in Hc as [? ?]. split; [done|]. split; by eexists.
Qed.

End discipline.

(** ** Race freedom *)

Section race_freedom.
Context `{ConnWorld W} (ord : range_order).
Implicit Types (gs : list goroutine) (s : state W) (kss : list (list call)).

(** C11. The methods of [Conns] are free of data races: in no configuration
    that goroutines calling [Add], [Remove] and [CloseAll] reach are two
    of them about to make conflicting accesses to the field [conns] or to
    the map, whatever [Close] does as long as it leaves the mutex as it
    found it. *)
Theorem race_free (close : @closer W) `{!KeepsMutex close} kss s0 ls gs s i j :
  mutex (reg s0) = Unlocked →
  pool_steps close ord (spawn <$> kss, s0) ls (gs, s) →
  ¬ racing gs i j.
Proof.
  intros Hmu Hsteps (Hne & Hi & Hj)%racing_critical.
  pose proof (view_steps _ ord _ _ _ _ Hsteps (view_spawn ord _ kss s0 Hmu)) as Hv.
  destruct (view_exclusive ord _ _ _ _ _ Hv Hi) as [_ Huniq].
  by apply Hne, symmetry, Huniq.
Qed.

(** The discipline is needed: two goroutines inside [Add] at once race on
    the field. *)
Example unguarded_adds_race : racing unguarded_adds 0 1.
Proof.
  split; [done|]. exists (mkG (at_Add_make conn_a) []), (mkG (at_Add_isnil conn_b) []).
  split_and!; [done..|]. by apply (bool_decide_unpack _).
Qed.

End race_freedom.

(** ** The theorems at concrete inputs *)

Section race_witnesses.

Lemma race_free_witness :
  mutex (reg demo_start) = Unlocked ∧ ¬ racing demo_locked.1 0 1.
Proof.
  split; [done|].
  apply (race_free canonical_order world_closer demo_calls demo_start
           [call_Add conn_a] demo_locked.1 demo_locked.2); [done|apply demo_locked_steps].
Defined.

End race_witnesses.
