(* ===== verification/Wellformed.v ===== *)
(** * Wellformed: the configurations a pool of goroutines reaches

    What each statement of [src/psiphon/conn.go] needs in order not to
    panic, as a well-formedness condition on the configurations of
    [Concurrent].  Every step preserves it, so that no goroutine of a pool
    started on a ready registry panics, and a goroutine that has nothing
    left to do has returned from its last call. *)

From S2P Require Import Prelude GoSem Net RegistrySpec Registry Concurrent.

(** ** Well-formed configurations *)

(** What the statement at [p] relies on: [Add] is not storing the nil
    interface and finds the map allocated at the assignment of line 59,
    the keys the loop of [CloseAll] has still to visit are not nil (line
    72), and no panic is on its way to the caller. *)
Definition pc_ok {W} (p : pc) (s : state W) : Prop :=
  match p with
  | at_Add_Lock conn | at_Add_isnil conn | at_Add_make conn => conn ≠ nil_Conn
  | at_Add_assign conn => conn ≠ nil_Conn ∧ conns (reg s) ≠ None
  | at_CloseAll_Close ks => nil_Conn ∉ ks
  | at_Unlock r | at_exit r => r = None
  | at_Remove_Lock _ | at_Remove_delete _
  | at_CloseAll_Lock | at_CloseAll_range | at_CloseAll_make => True
  end.

(** A goroutine is well-formed when its current statement is and the calls
    it has still to make do not add the nil interface. *)
Definition goroutine_ok {W} (s : state W) (g : goroutine) : Prop :=
  pc_ok (cur g) s ∧ Forall call_ok (todo g).

(** A configuration is well-formed when the nil interface is not a member
    and every goroutine is well-formed. *)
Definition pool_ok {W} (c : list goroutine * state W) : Prop :=
  (nil_Conn ∉ members (reg c.2)) ∧ Forall (goroutine_ok c.2) c.1.

(** A goroutine that is panicking, or has ended in a panic. *)
Definition panicking (g : goroutine) : bool :=
  match cur g with
  | at_Unlock (Some _) | at_exit (Some _) => true
  | _ => false
  end.

(** The map is allocated in [s'] if it is in [s]: what every statement
    guarantees, since none makes the map nil again. *)
Definition allocated_after {W} (s s' : state W) : Prop :=
  conns (reg s) ≠ None → conns (reg s') ≠ None.

#[export] Instance pc_ok_dec {W} p (s : state W) : Decision (pc_ok p s).
Proof. destruct p; simpl; apply _. Defined.

#[export] Instance goroutine_ok_dec {W} (s : state W) g : Decision (goroutine_ok s g).
Proof. unfold goroutine_ok. apply _. Defined.

#[export] Instance pool_ok_dec {W} (c : list goroutine * state W) : Decision (pool_ok c).
Proof. unfold pool_ok. apply _. Defined.

(** ** Statements preserve well-formedness *)

Section statements.
Context `{ConnWorld W} (ord : range_order).
Implicit Types (p : pc) (s : state W).

Lemma pc_ok_allocated p s s' : allocated_after s s' → pc_ok p s → pc_ok p s'.
Proof. unfold allocated_after. destruct p; naive_solver. Qed.

(** A statement executed where it is well-formed does not panic, keeps
    the nil interface out of the members, and leaves the goroutine where
    it is well-formed again. *)
Lemma thread_step_ok p s p' s' :
  thread_step world_closer ord p s = Some (p', s') →
  nil_Conn ∉ members (reg s) → pc_ok p s →
  (nil_Conn ∉ members (reg s')) ∧ pc_ok p' s' ∧ allocated_after s s'.
Proof.
  intros Hstep Hnil Hok. pose proof (elem_of_range_keys ord (reg s) nil_Conn) as Hks.
  unfold allocated_after.
  thread_step_cases p s; unfold members in *; simpl in *;
    rewrite ?dom_insert, ?dom_delete, ?dom_empty; set_solver.
Qed.

End statements.

(** ** Steps of the pool preserve well-formedness *)

Section pool_wellformed.
Context `{ConnWorld W} (ord : range_order).
Implicit Types (c : list goroutine * state W) (gs : list goroutine) (s : state W).

Lemma entry_ok k s : call_ok k → pc_ok (entry k) s.
Proof. unfold call_ok. destruct k; simpl; [congruence|done..]. Qed.

Lemma pool_step_ok c l c' : pool_step world_closer ord c l c' → pool_ok c → pool_ok c'.
Proof.
  destruct 1 as [gs s i g p' s' Hi Hstep|gs s i k ks Hi]; intros [Hnil Hall];
    pose proof (Forall_lookup_1 _ _ _ _ Hall Hi) as [Hg Htodo]; simpl in *.
  - destruct (thread_step_ok ord _ _ _ _ Hstep Hnil Hg) as (Hnil' & Hp' & Hconns).
    split; [done|]. apply Forall_insert; [|done].
    eapply Forall_impl; [done|]. intros g' [? ?]. split; [|done].
    by eapply pc_ok_allocated.
  - split; [done|]. apply Forall_insert; [done|].
    apply Forall_cons in Htodo as [Hk Hks]. split; [by apply entry_ok|done].
Qed.

Lemma pool_steps_ok c ls c' : pool_steps world_closer ord c ls c' → pool_ok c → pool_ok c'.
Proof. induction 1; eauto using pool_step_ok. Qed.

(** A pool spawned on a ready registry with calls that do not add the nil
    interface is well-formed. *)
Lemma pool_ok_spawn kss s0 :
  Conns_ready s0 → Forall (Forall call_ok) kss → pool_ok (spawn <$> kss, s0).
Proof.
  intros [_ Hnil] Hok. split; [done|]. apply Forall_fmap.
  eapply Forall_impl; [done|]. by intros ks Hks.
Qed.

(** A well-formed goroutine is not panicking; when it has nothing left to
    do it has returned from its last call. *)
Lemma goroutine_ok_not_panicking s g : goroutine_ok s g → panicking g = false.
Proof. destruct g as [[| | | | | | | | | |[]|[]] ks]; by intros [? ?]. Qed.

Lemma goroutine_ok_finished s g : goroutine_ok s g → finished g = true → returned_all g.
Proof.
  destruct g as [p ks]. intros [Hp _]. unfold finished, returned_all; simpl.
  destruct p as [| | | | | | | | | | |[]], ks; naive_solver.
Qed.

Lemma pool_ok_finished gs s :
  pool_ok (gs, s) → Forall (λ g, finished g = true) gs → Forall returned_all gs.
Proof.
  intros [_ Hok]. simpl in Hok.
  induction Hok; inv 1; constructor; eauto using goroutine_ok_finished.
Qed.

End pool_wellformed.

(** ** Executions of well-formed pools *)

Section executions.
Context `{ConnWorld W} (ord : range_order).
Implicit Types (c : list goroutine * state W) (gs : list goroutine) (s : state W).

(** C14. Well-formedness is an invariant of the pool: an execution from a
    well-formed configuration ends in a well-formed one, in which no
    goroutine is panicking or has ended in a panic. *)
Theorem pool_ok_preserved c ls c' :
  pool_ok c → pool_steps world_closer ord c ls c' →
  pool_ok c' ∧ Forall (λ g, panicking g = false) c'.1.
Proof.
  intros Hc Hsteps. apply pool_steps_ok in Hsteps; [|done]. split; [done|].
  destruct Hsteps as [_ Hall]. eapply Forall_impl; [done|].
  exact (goroutine_ok_not_panicking c'.2).
Qed.

End executions.

(** ** The theorems at concrete inputs *)

Section wellformed_witnesses.

Lemma pool_ok_preserved_witness :
  pool_ok demo_locked ∧ Forall (λ g, panicking g = false) demo_locked.1.
Proof.
  apply (pool_ok_preserved canonical_order (spawn <$> demo_calls, demo_start)
           [call_Add conn_a] demo_locked); [|apply demo_locked_steps].
  apply pool_ok_spawn; [apply zero_Conns_ready|apply demo_calls_ok].
Defined.

End wellformed_witnesses.
