(* ===== verification/Progress.v ===== *)
(** * Progress: every execution of a pool of goroutines ends

    A bound on the number of steps any interleaving of the methods of
    [src/psiphon/conn.go] can take, and its consequences: with well-behaved
    connections every execution is finite, an execution that cannot be
    extended has brought every goroutine to the end of its calls, the
    registry never holds more connections than were there or were added,
    and a scheduler with enough fuel ends in the state of the abstract
    registry. *)

From S2P Require Import Prelude GoSem Net RegistrySpec Registry Concurrent Wellformed.

(** ** The measure *)

(** Whether a goroutine at [p] has still to store the connection of the
    [Add] it is executing. *)
Definition adds_at (p : pc) : nat :=
  match p with
  | at_Add_Lock _ | at_Add_isnil _ | at_Add_make _ | at_Add_assign _ => 1
  | _ => 0
  end.

(** The connections a list of calls adds, at most. *)
Definition adds (ks : list call) : nat := sum_list_with (λ k, adds_at (entry k)) ks.

(** The connections a goroutine may still add. *)
Definition adds_left (g : goroutine) : nat := adds_at (cur g) + adds (todo g).

(** The steps a goroutine has left, at most, when no [range] it is going
    to execute finds more than [n] keys: those of its current call, and
    for each call it has still to make one step to start it and those of
    the call. *)
Definition goroutine_cost (n : nat) (g : goroutine) : nat :=
  pc_cost n (cur g) + sum_list_with (λ k, S (pc_cost n (entry k))) (todo g).

(** The steps the calls [ks] take, at most, on a registry of [n0]
    members: one to start each call and its statements, where a [range]
    finds at most the [n0] members and the connections [ks] adds. *)
Definition calls_bound (n0 : nat) (ks : list call) : nat :=
  sum_list_with (λ k, S (pc_cost (n0 + adds ks) (entry k))) ks.

Section measure.
Context {W : Type}.
Implicit Types (c : list goroutine * state W) (gs : list goroutine) (s : state W).

(** The largest number of members the registry can come to hold: the
    members it has and the connections that may still be added. *)
Definition capacity c : nat :=
  size (members (reg c.2)) + sum_list_with adds_left c.1.

(** The bound: the steps all goroutines have left, at most. *)
Definition steps_bound c : nat :=
  sum_list_with (goroutine_cost (capacity c)) c.1.

End measure.

(** ** Executions of a given length *)

Section runs.
Context {W : Type} (close : @closer W) (ord : range_order).

(** [pool_run n c c']: the pool goes from [c] to [c'] in [n] steps. *)
Inductive pool_run : nat → list goroutine * state W → list goroutine * state W → Prop :=
| run_refl c : pool_run 0 c c
| run_step n c l c' c'' :
    pool_step close ord c l c' → pool_run n c' c'' → pool_run (S n) c c''.

(** A configuration from which no goroutine can step. *)
Definition stuck (c : list goroutine * state W) : Prop :=
  ∀ l c', ¬ pool_step close ord c l c'.

End runs.

(** ** A scheduler that runs the pool to its end *)

Section scheduler.
Context {W : Type} (close : @closer W) (ord : range_order).
Implicit Types (c : list goroutine * state W).

(** The step of the first goroutine that can take one. *)
Definition next_step c : option (option call * (list goroutine * state W)) :=
  head (omap (λ i, sched_step close ord i c) (seq 0 (length c.1))).

(** At most [fuel] steps, always of the first goroutine that can step. *)
Fixpoint run_to_end (fuel : nat) c : list goroutine * state W :=
  match fuel with
  | 0 => c
  | S fuel => match next_step c with
              | Some (_, c') => run_to_end fuel c'
              | None => c
              end
  end.

End scheduler.

(** ** Fixtures *)

(** One goroutine adding one connection to the zero value of [Conns], and
    the configuration it ends in after its six steps. *)
Definition demo_add_end : list goroutine * state (gmap handle nat) :=
  ([mkG (at_exit None) []], mkState (mkConns Unlocked (Some {[conn_a := true]})) ∅).

(** ** The cost of a call decreases with every statement *)

Section thread_cost.
Context `{ConnWorld W} (ord : range_order).
Implicit Types (p : pc) (s : state W).

Lemma pc_cost_mono n n' p : n' ≤ n → pc_cost n' p ≤ pc_cost n p.
Proof. destruct p; simpl; lia. Qed.

(** A statement uses up one of the steps of its call, whatever bound on
    the keys is taken afterwards, as long as it is no larger. *)
Lemma thread_step_cost p s p' s' n n' :
  thread_step world_closer ord p s = Some (p', s') →
  size (members (reg s)) ≤ n → n' ≤ n →
  pc_cost n' p' < pc_cost n p.
Proof.
  intros Hstep Hn Hn'. rewrite <-(length_range_keys ord) in Hn.
  thread_step_cases p s; unfold range_keys in *; simpl in *; lia.
Qed.

(** A statement does not raise the number of members the registry can
    come to hold: [Add] stores at most the one connection it had to add. *)
Lemma thread_step_capacity p s p' s' :
  thread_step world_closer ord p s = Some (p', s') →
  size (members (reg s')) + adds_at p' ≤ size (members (reg s)) + adds_at p.
Proof.
  intros Hstep. thread_step_cases p s; unfold members; simpl;
    rewrite ?size_dom, ?map_size_empty, ?size_empty; try lia;
    pose proof (map_size_insert_le m c true); pose proof (map_size_delete_le m c); lia.
Qed.

End thread_cost.

(** ** The bound decreases with every step of the pool *)

Section pool_cost.
Context `{ConnWorld W} (ord : range_order).
Implicit Types (c : list goroutine * state W) (gs : list goroutine) (s : state W).

Lemma goroutine_cost_mono n n' g : n' ≤ n → goroutine_cost n' g ≤ goroutine_cost n g.
Proof.
  intros Hn. unfold goroutine_cost. pose proof (pc_cost_mono n n' (cur g) Hn).
  assert (∀ k, S (pc_cost n' (entry k)) ≤ S (pc_cost n (entry k))) as Hk.
  { intros k. pose proof (pc_cost_mono n n' (entry k) Hn). lia. }
  apply (sum_list_with_mono _ _ (todo g)) in Hk. lia.
Qed.

(** A step of the pool does not raise the capacity. *)
Lemma pool_step_capacity c l c' :
  pool_step world_closer ord c l c' → capacity c' ≤ capacity c.
Proof.
  destruct 1 as [gs s i [p ks] p' s' Hi Hstep|gs s i k ks Hi];
    unfold capacity; cbn [fst snd cur todo] in *.
  - pose proof (sum_list_with_insert adds_left gs i _ (mkG p' ks) Hi) as Hsum.
    pose proof (thread_step_capacity ord _ _ _ _ Hstep).
    unfold adds_left at 2 4 in Hsum. cbn [cur todo] in Hsum. lia.
  - pose proof (sum_list_with_insert adds_left gs i _ (mkG (entry k) ks) Hi) as Hsum.
    assert (adds_left (mkG (entry k) ks) = adds_left (mkG (at_exit None) (k :: ks)))
      by done.
    lia.
Qed.

(** Every step of the pool lowers the bound. *)
Lemma pool_step_bound c l c' :
  pool_step world_closer ord c l c' → steps_bound c' < steps_bound c.
Proof.
  intros Hstep. pose proof (pool_step_capacity c l c' Hstep) as Hcap.
  destruct Hstep as [gs s i g p' s' Hi Hstep|gs s i k ks Hi]; unfold steps_bound; simpl;
    (eapply sum_list_with_insert_lt; [done|by intros; apply goroutine_cost_mono|]).
  - pose proof (goroutine_cost_mono _ _ (mkG (at_exit None) (todo g)) Hcap) as Hmono.
    apply (thread_step_cost ord _ _ _ _ _ _ Hstep) in Hcap as Hlt;
      [|unfold capacity; simpl; lia].
    unfold goroutine_cost in *; simpl in *. lia.
  - pose proof (goroutine_cost_mono _ _ (mkG (entry k) ks) Hcap) as Hmono.
    unfold goroutine_cost in *; simpl in *. lia.
Qed.

End pool_cost.

(** ** Termination *)

Section termination.
Context `{ConnWorld W} (ord : range_order).
Implicit Types (c : list goroutine * state W) (gs : list goroutine) (s : state W).

(** An execution of [n] steps uses up [n] of the steps the bound allows:
    no execution from [c] is longer than [steps_bound c]. *)
Lemma pool_run_bounded n c c' :
  pool_run world_closer ord n c c' → n + steps_bound c' ≤ steps_bound c.
Proof.
  induction 1 as [c|n c l c1 c' Hstep _ IH]; [done|].
  apply pool_step_bound in Hstep. lia.
Qed.

Lemma pool_run_steps (close : @closer W) n c c' :
  pool_run close ord n c c' → ∃ ls, pool_steps close ord c ls c'.
Proof.
  induction 1 as [c|n c l c1 c' Hstep _ [ls IH]].
  - exists []. constructor.
  - exists (option_list l ++ ls). by econstructor.
Qed.

(** An execution that cannot be extended has brought every goroutine to
    the end of its calls: each has returned from its last call, or has
    panicked. *)
Lemma stuck_finished kss s0 n gs s :
  mutex (reg s0) = Unlocked →
  pool_run world_closer ord n (spawn <$> kss, s0) (gs, s) →
  stuck world_closer ord (gs, s) →
  Forall (λ g, finished g = true) gs.
Proof.
  intros Hmu Hrun Hstuck. apply pool_run_steps in Hrun as [ls Hsteps].
  pose proof (view_steps _ ord _ _ _ _ Hsteps (view_spawn ord _ kss s0 Hmu)) as Hv.
  apply Forall_forall. intros g Hg. destruct (finished g) eqn:Hfin; [done|].
  destruct (view_progress ord gs s _ g Hv Hg Hfin) as (l & c' & Hstep).
  by destruct (Hstuck l c').
Qed.

Lemma pool_steps_capacity c ls c' :
  pool_steps world_closer ord c ls c' → capacity c' ≤ capacity c.
Proof.
  induction 1 as [c|c l c1 ls c' Hstep _ IH]; [done|].
  apply pool_step_capacity in Hstep. lia.
Qed.

Lemma capacity_spawn kss s0 :
  capacity (spawn <$> kss, s0) = size (members (reg s0)) + adds (concat kss).
Proof.
  unfold capacity, adds; simpl. by rewrite sum_list_with_fmap, sum_list_with_concat.
Qed.

(** The bound of a freshly spawned pool, in terms of its calls. *)
Lemma steps_bound_spawn kss s0 :
  steps_bound (spawn <$> kss, s0) = calls_bound (size (members (reg s0))) (concat kss).
Proof.
  unfold steps_bound. rewrite capacity_spawn. unfold calls_bound; simpl.
  by rewrite sum_list_with_fmap, sum_list_with_concat.
Qed.

(** C21. At no point of an execution does the registry hold more connections
    than it held at the start plus one for each [Add] among the calls,
    whatever the interleaving and whether or not a call panics. *)
Theorem members_bounded kss s0 ls gs s :
  pool_steps world_closer ord (spawn <$> kss, s0) ls (gs, s) →
  size (members (reg s)) ≤ size (members (reg s0)) + adds (concat kss).
Proof.
  intros Hsteps. apply pool_steps_capacity in Hsteps.
  rewrite capacity_spawn in Hsteps. unfold capacity in Hsteps; simpl in Hsteps. lia.
Qed.

(** C20. Every execution of a freshly spawned pool on a free registry ends: it
    takes no more steps than [calls_bound] allows, and when it cannot be
    extended every goroutine has reached the end of its calls. *)
Theorem executions_end kss s0 n gs s :
  mutex (reg s0) = Unlocked →
  pool_run world_closer ord n (spawn <$> kss, s0) (gs, s) →
  n ≤ calls_bound (size (members (reg s0))) (concat kss) ∧
  (stuck world_closer ord (gs, s) → Forall (λ g, finished g = true) gs).
Proof.
  intros Hmu Hrun. split; [|by eapply stuck_finished].
  apply pool_run_bounded in Hrun. rewrite steps_bound_spawn in Hrun. lia.
Qed.

End termination.

(** ** The scheduler reaches the end *)

Section scheduler_facts.
Context {W : Type} (close : @closer W) (ord : range_order).
Implicit Types (c : list goroutine * state W).

(** Every step of the pool is the step of some goroutine. *)
Lemma sched_step_complete c l c' :
  pool_step close ord c l c' →
  ∃ i, i < length c.1 ∧ sched_step close ord i c = Some (l, c').
Proof.
  destruct 1 as [gs s i g p' s' Hi Hstep|gs s i k ks Hi];
    exists i; (split; [by eapply lookup_lt_Some|]); unfold sched_step; simpl;
    rewrite Hi; simpl; [|done].
  rewrite Hstep. by destruct (cur g) as [| | | | | | | | | | |[]].
Qed.

Lemma next_step_Some c l c' : next_step close ord c = Some (l, c') → pool_step close ord c l c'.
Proof.
  unfold next_step. intros Hh. apply head_Some_elem_of in Hh.
  apply list_elem_of_omap in Hh as (i & _ & Hi). by apply sched_step_sound in Hi.
Qed.

Lemma next_step_None c : next_step close ord c = None → stuck close ord c.
Proof.
  unfold next_step. intros Hh l c' Hstep.
  apply sched_step_complete in Hstep as (i & Hi & Hstep).
  apply head_None in Hh.
  assert ((l, c') ∈ omap (λ i, sched_step close ord i c) (seq 0 (length c.1))) as Hin.
  { apply list_elem_of_omap. exists i. split; [|done]. apply elem_of_seq. lia. }
  rewrite Hh in Hin. by apply elem_of_nil in Hin.
Qed.

(** The scheduler makes steps of the pool, and stops early only when no
    goroutine can step. *)
Lemma run_to_end_run fuel c :
  ∃ n, n ≤ fuel ∧ pool_run close ord n c (run_to_end close ord fuel c) ∧
       (n < fuel → stuck close ord (run_to_end close ord fuel c)).
Proof.
  revert c. induction fuel as [|fuel IH]; intros c; simpl.
  { exists 0. split_and!; [done|constructor|lia]. }
  destruct (next_step close ord c) as [[l c1]|] eqn:Hnext.
  - destruct (IH c1) as (n & Hn & Hrun & Hstuck). exists (S n). split_and!; [lia| |].
    + econstructor; [by apply next_step_Some|done].
    + intros ?. apply Hstuck. lia.
  - exists 0. split_and!; [lia|constructor|]. intros _. by apply next_step_None.
Qed.

End scheduler_facts.

(** With more fuel than the bound allows steps, the scheduler stops where
    no goroutine can step. *)
Lemma run_to_end_stuck `{ConnWorld W} (ord : range_order) (c : list goroutine * state W) fuel :
  steps_bound c < fuel →
  ∃ n, pool_run world_closer ord n c (run_to_end world_closer ord fuel c) ∧
       stuck world_closer ord (run_to_end world_closer ord fuel c).
Proof.
  intros Hfuel. destruct (run_to_end_run world_closer ord fuel c) as (n & Hn & Hrun & Hstuck).
  pose proof (pool_run_bounded ord _ _ _ Hrun) as Hbound.
  exists n. split; [done|]. apply Hstuck. lia.
Qed.

(** With well-behaved connections, the scheduler given [calls_bound] steps
    or more brings every goroutine of a freshly spawned pool to the end of
    its calls. *)
Theorem run_to_end_finished `{ConnWorld W} (ord : range_order) kss (s0 : state W) fuel :
  mutex (reg s0) = Unlocked →
  calls_bound (size (members (reg s0))) (concat kss) < fuel →
  Forall (λ g, finished g = true) (run_to_end world_closer ord fuel (spawn <$> kss, s0)).1.
Proof.
  intros Hmu Hfuel. rewrite <-steps_bound_spawn in Hfuel.
  destruct (run_to_end_stuck ord _ _ Hfuel) as (n & Hrun & Hstuck).
  destruct (run_to_end _ _ _ _) as [gs s] eqn:Hend. by eapply stuck_finished.
Qed.

(** ** The scheduler implements the abstract registry *)

Section scheduler_refines.
Context `{ConnWorld W} `{!ConnWorldComm W} (ord : range_order).
Implicit Types (gs : list goroutine) (s : state W).

(** C13. Goroutines call the methods on a ready registry, never adding the nil
    interface, and are scheduled with more fuel than [calls_bound] allows
    steps.  Then every goroutine returns from all its calls, and the
    registry ends in the state that making the calls one after the other,
    in some order, returns in; its members and the connections closed are
    those the abstract registry computes for that order. *)
Theorem run_to_end_refines kss s0 fuel :
  Conns_ready s0 → Forall (Forall call_ok) kss →
  calls_bound (size (members (reg s0))) (concat kss) < fuel →
  Forall returned_all (run_to_end world_closer ord fuel (spawn <$> kss, s0)).1 ∧
  ∃ ls, ls ≡ₚ concat kss ∧
        run_calls world_closer ord ls s0 =
          Returns () (run_to_end world_closer ord fuel (spawn <$> kss, s0)).2 ∧
        Conns_abs (run_to_end world_closer ord fuel (spawn <$> kss, s0)).2 =
          spec_run ls (Conns_abs s0).
Proof.
  intros Hs0 Hok Hfuel. rewrite <-steps_bound_spawn in Hfuel.
  destruct (run_to_end_stuck ord _ _ Hfuel) as (n & Hrun & Hstuck).
  destruct (run_to_end _ _ _ _) as [gs s] eqn:Hend; simpl.
  assert (mutex (reg s0) = Unlocked) as Hmu by by destruct Hs0 as [[]].
  pose proof (stuck_finished ord _ _ _ _ _ Hmu Hrun Hstuck) as Hfin.
  apply pool_run_steps in Hrun as [ls Hsteps].
  assert (pool_ok (gs, s)) as Hpok by by eapply pool_steps_ok, pool_ok_spawn.
  apply (pool_ok_finished _ _ Hpok) in Hfin.
  split; [done|]. exists ls.
  destruct (quiescent_run ord kss s0 ls gs s) as [Hperm Hls]; [done..|].
  split_and!; [done..|].
  apply (run_calls_abs ord ls s0); [done| |done]. rewrite Hperm. by apply Forall_concat.
Qed.

End scheduler_refines.

(** ** The theorems at concrete inputs *)

Section progress_witnesses.

Lemma demo_add_run :
  pool_run world_closer canonical_order 6 (spawn <$> [[call_Add conn_a]], demo_start)
           demo_add_end.
Proof.
  repeat (eapply run_step; [apply next_step_Some; by vm_compute|]). apply run_refl.
Qed.

Lemma executions_end_witness :
  6 ≤ calls_bound (size (members (reg demo_start))) (concat [[call_Add conn_a]]) ∧
  (stuck world_closer canonical_order demo_add_end →
   Forall (λ g, finished g = true) demo_add_end.1).
Proof.
  exact (executions_end canonical_order [[call_Add conn_a]] demo_start 6 _ _
           eq_refl demo_add_run).
Defined.

Lemma members_bounded_witness :
  size (members (reg demo_end.2)) ≤ size (members (reg demo_start)) + adds (concat demo_calls).
Proof.
  exact (members_bounded canonical_order demo_calls demo_start demo_trace demo_end.1
           demo_end.2 demo_steps).
Defined.

Lemma run_to_end_finished_witness :
  Forall (λ g, finished g = true)
    (run_to_end world_closer canonical_order 30 (spawn <$> demo_calls, demo_start)).1.
Proof. apply run_to_end_finished; [done|vm_compute; lia]. Defined.

Lemma run_to_end_refines_witness :
  Forall returned_all
    (run_to_end world_closer canonical_order 30 (spawn <$> demo_calls, demo_start)).1 ∧
  ∃ ls, ls ≡ₚ concat demo_calls ∧
        run_calls world_closer canonical_order ls demo_start =
          Returns ()
            (run_to_end world_closer canonical_order 30 (spawn <$> demo_calls, demo_start)).2 ∧
        Conns_abs
          (run_to_end world_closer canonical_order 30 (spawn <$> demo_calls, demo_start)).2 =
          spec_run ls (Conns_abs demo_start).
Proof.
  apply run_to_end_refines; [apply zero_Conns_ready|apply demo_calls_ok|vm_compute; lia].
Defined.

End progress_witnesses.
