(* ===== verification/Fair.v ===== *)
(** * Fair: fair schedules bring every call to its end

    The scheduler of Go is not part of [src/psiphon/conn.go]; what the
    methods need of it is fairness.  A schedule made of rounds in each of
    which every goroutine gets a turn, with more rounds than the bound of
    [Progress] allows steps, runs every goroutine to the end of its calls:
    in each round some goroutine steps as long as one has something left
    to do, because the holder of the lock is never blocked. *)

From S2P Require Import Prelude GoSem Net RegistrySpec Registry Concurrent Wellformed Progress.

(** A round of a schedule for [n] goroutines: each of them gets a turn. *)
Definition complete_round (n : nat) (r : list nat) : Prop :=
  Forall (λ i, i ∈ r) (seq 0 n).

(** A schedule made of rounds is fair when every round is complete. *)
Definition fair (n : nat) (rs : list (list nat)) : Prop :=
  Forall (complete_round n) rs.

#[export] Instance complete_round_dec n r : Decision (complete_round n r).
Proof. unfold complete_round. apply _. Defined.

#[export] Instance fair_dec n rs : Decision (fair n rs).
Proof. unfold fair. apply _. Defined.

(** ** Schedules *)

(** Scheduling the goroutines in turn, as [round_robin] does, is fair. *)
Lemma round_robin_fair n rounds : fair n (replicate rounds (seq 0 n)).
Proof. apply Forall_replicate, Forall_forall. by intros i. Qed.

Section schedules.
Context {W : Type} (close : @closer W) (ord : range_order).
Implicit Types (c : list goroutine * state W) (sched r : list nat).

(** Running a schedule made of two parts. *)
Lemma sched_run_app sched1 sched2 c :
  sched_run close ord (sched1 ++ sched2) c =
    let '(ls1, c1) := sched_run close ord sched1 c in
    let '(ls2, c2) := sched_run close ord sched2 c1 in (ls1 ++ ls2, c2).
Proof.
  revert c. induction sched1 as [|i sched1 IH]; intros c; simpl.
  { by destruct (sched_run close ord sched2 c). }
  destruct (sched_step close ord i c) as [[l c1]|]; [|apply IH].
  rewrite IH. destruct (sched_run close ord sched1 c1) as [ls1 c2].
  destruct (sched_run close ord sched2 c2) as [ls2 c3]. by rewrite (assoc_L (++)).
Qed.

(** A goroutine that has nothing left to do takes no step. *)
Lemma finished_no_step i c :
  Forall (λ g, finished g = true) c.1 → sched_step close ord i c = None.
Proof.
  intros Hfin. unfold sched_step. destruct (c.1 !! i) as [[p ks]|] eqn:Hi; [|done].
  apply (Forall_lookup_1 _ _ _ _ Hfin) in Hi. simpl.
  by destruct p as [| | | | | | | | | | |[]], ks.
Qed.

(** Goroutines that have all finished are left as they are. *)
Lemma finished_sched_run sched c :
  Forall (λ g, finished g = true) c.1 → sched_run close ord sched c = ([], c).
Proof.
  intros Hfin. induction sched as [|i sched IH]; [done|]. simpl.
  by rewrite finished_no_step.
Qed.

(** A step does not change the number of goroutines. *)
Lemma sched_step_length i c l c' :
  sched_step close ord i c = Some (l, c') → length c'.1 = length c.1.
Proof.
  destruct c as [gs s]. intros Hstep.
  apply sched_step_inv in Hstep as (p & ks & Hi & [Hc|Hc]).
  - destruct Hc as (k & ks' & -> & -> & -> & ->). apply length_insert.
  - destruct Hc as (p' & s' & Hp & -> & ->). apply length_insert.
Qed.

End schedules.

(** ** Rounds *)

Section fairness.
Context `{ConnWorld W} (ord : range_order).
Implicit Types (c : list goroutine * state W) (sched r : list nat) (rs : list (list nat)).

(** A round leaves the pool as it is, no goroutine of the round being
    able to step, or lowers the bound on the steps that are left. *)
Lemma sched_run_round r c ls c' :
  sched_run world_closer ord r c = (ls, c') →
  length c'.1 = length c.1 ∧
  ((c' = c ∧ ls = [] ∧ ∀ i, i ∈ r → sched_step world_closer ord i c = None) ∨
   steps_bound c' < steps_bound c).
Proof.
  revert c ls c'. induction r as [|i r IH]; intros c ls c' Hrun; simpl in Hrun.
  { simplify_eq. split; [done|]. left. split_and!; [done..|]. by intros i ?%elem_of_nil. }
  destruct (sched_step world_closer ord i c) as [[l c1]|] eqn:Hstep.
  - destruct (sched_run world_closer ord r c1) as [ls1 c2] eqn:Hrun1. simplify_eq.
    destruct (IH _ _ _ Hrun1) as [Hlen Hrest].
    pose proof (sched_step_length _ _ _ _ _ _ Hstep) as Hlen1.
    apply sched_step_sound, (pool_step_bound ord) in Hstep.
    split; [congruence|]. right. destruct Hrest as [(-> & _)|?]; lia.
  - destruct (IH _ _ _ Hrun) as [Hlen Hrest]. split; [done|].
    destruct Hrest as [(-> & -> & Hnone)|?]; [left|by right].
    split_and!; [done..|]. intros j [->|?]%elem_of_cons; eauto.
Qed.

(** In a configuration that satisfies the view, goroutines that cannot
    step have all finished. *)
Lemma idle_finished c st :
  view world_closer ord c st →
  (∀ i, i < length c.1 → sched_step world_closer ord i c = None) →
  Forall (λ g, finished g = true) c.1.
Proof.
  destruct c as [gs s]. intros Hv Hidle. apply Forall_forall. intros g Hg.
  destruct (finished g) eqn:Hfin; [done|].
  destruct (view_progress ord gs s st g Hv Hg Hfin) as (l & c' & Hstep).
  apply sched_step_complete in Hstep as (i & Hi & Hstep). by rewrite Hidle in Hstep.
Qed.

(** More complete rounds than the bound allows steps bring every
    goroutine to the end of its calls. *)
Lemma rounds_finish rs c st ls c' :
  view world_closer ord c st → fair (length c.1) rs → steps_bound c < length rs →
  sched_run world_closer ord (concat rs) c = (ls, c') →
  Forall (λ g, finished g = true) c'.1.
Proof.
  revert c st ls c'. induction rs as [|r rs IH]; intros c st ls c' Hv Hfair Hb Hrun;
    simpl in *; [lia|].
  apply Forall_cons in Hfair as [Hr Hfair]. rewrite sched_run_app in Hrun.
  destruct (sched_run world_closer ord r c) as [ls1 c1] eqn:Hrun1.
  destruct (sched_run world_closer ord (concat rs) c1) as [ls2 c2] eqn:Hrun2. simplify_eq.
  destruct (sched_run_round _ _ _ _ Hrun1) as [Hlen [(-> & -> & Hnone)|Hlt]].
  - assert (Forall (λ g, finished g = true) c.1) as Hfin.
    { apply (idle_finished c st Hv). intros i Hi. apply Hnone.
      eapply Forall_forall in Hr; [done|]. apply elem_of_seq. lia. }
    rewrite finished_sched_run in Hrun2 by done. by simplify_eq.
  - apply sched_run_sound in Hrun1 as Hsteps.
    apply (IH c1 (seq_state world_closer ord ls1 st) ls2);
      [by apply (view_steps world_closer ord _ _ _ _ Hsteps)|by rewrite Hlen|lia|done].
Qed.

End fairness.

(** ** Fair schedules *)

Section fair_refines.
Context `{ConnWorld W} `{!ConnWorldComm W} (ord : range_order).
Implicit Types (gs : list goroutine) (s : state W) (rs : list (list nat)).

(** C19. Under any fair schedule that has more rounds than [calls_bound]
    allows steps, goroutines calling the methods on a ready registry
    without adding the nil interface all return from all their calls,
    and the registry ends in the state that making the calls one after
    the other, in the order in which they took the lock, returns in. *)
Theorem fair_schedule_returns kss s0 rs ls gs s :
  Conns_ready s0 → Forall (Forall call_ok) kss →
  fair (length kss) rs → calls_bound (size (members (reg s0))) (concat kss) < length rs →
  sched_run world_closer ord (concat rs) (spawn <$> kss, s0) = (ls, (gs, s)) →
  Forall returned_all gs ∧ ls ≡ₚ concat kss ∧
  run_calls world_closer ord ls s0 = Returns () s.
Proof.
  intros Hs0 Hok Hfair Hb Hrun.
  assert (mutex (reg s0) = Unlocked) as Hmu by by destruct Hs0 as [[]].
  pose proof (sched_run_sound _ _ _ _ _ _ Hrun) as Hsteps.
  assert (Forall returned_all gs) as Hall.
  { apply (pool_ok_finished gs s); [by eapply pool_steps_ok, pool_ok_spawn|].
    apply (rounds_finish ord rs (spawn <$> kss, s0) s0 ls (gs, s));
      [by apply view_spawn| | |done].
    - simpl. by rewrite length_fmap.
    - by rewrite steps_bound_spawn. }
  split; [done|]. by apply (quiescent_run ord kss s0 ls gs s).
Qed.

End fair_refines.

(** ** The theorem at a concrete input *)

Section fair_witnesses.

Lemma fair_schedule_returns_witness :
  Forall returned_all demo_end.1 ∧ demo_trace ≡ₚ concat demo_calls ∧
  run_calls world_closer canonical_order demo_trace demo_start = Returns () demo_end.2.
Proof.
  apply (fair_schedule_returns canonical_order demo_calls demo_start
           (replicate 25 (seq 0 3)) demo_trace demo_end.1 demo_end.2);
    [apply zero_Conns_ready|apply demo_calls_ok|apply round_robin_fair
    |vm_compute; lia|by vm_compute].
Defined.

End fair_witnesses.
