(* ===== verification/Trace.v ===== *)
(** * Trace: executions with their schedule

    Executions of a pool of goroutines in which every step names the
    goroutine that takes it.  The calls of one goroutine take the lock in
    the order in which the goroutine makes them, each between its
    invocation and its return, so the order in which the calls of
    [src/psiphon/conn.go] take the lock is an interleaving of the
    programs of the goroutines that respects real time, and the registry
    ends in the state this interleaving reaches when it is run by one
    goroutine. *)

From S2P Require Import Prelude GoSem Net RegistrySpec Registry Concurrent Progress.

(** ** Schedules and their traces *)

(** A step of an execution: the goroutine that takes it and the call whose
    [Lock] the step takes, if it is such a step. *)
Definition event : Type := nat * option call.

(** The calls of a trace in the order in which they took the lock. *)
Definition lock_order (tr : list event) : list call := omap snd tr.

(** The steps goroutine [i] takes in a trace. *)
Definition steps_of (i : nat) (tr : list event) : list event :=
  filter (λ e, e.1 = i) tr.

(** The calls of goroutine [i] in the order in which they took the lock. *)
Definition calls_of (i : nat) (tr : list event) : list call :=
  lock_order (steps_of i tr).

(** The number of its calls a goroutine spawned with [ks] has made. *)
Definition invoked (ks : list call) (g : goroutine) : nat := length ks - length (todo g).

(** The number of its calls it has returned from, normally or in a
    panic: all it has made, but for the one it is inside of. *)
Definition returned_from (ks : list call) (g : goroutine) : nat :=
  invoked ks g - (if cur g is at_exit _ then 0 else 1).

(** The position in a trace of the step at which goroutine [i] takes the
    lock for its call number [n], counted from 0. *)
Fixpoint lock_index (i n : nat) (tr : list event) : option nat :=
  match tr with
  | [] => None
  | e :: tr =>
      match (if decide (e.1 = i) then e.2 else None), n with
      | Some _, 0 => Some 0
      | Some _, S n => S <$> lock_index i n tr
      | None, _ => S <$> lock_index i n tr
      end
  end.

Section exec.
Context {W : Type} (close : @closer W) (ord : range_order).

(** Executions in which each step is the step of the goroutine named. *)
Inductive pool_exec :
  list goroutine * state W → list event → list goroutine * state W → Prop :=
| exec_refl c : pool_exec c [] c
| exec_step c i l c' tr c'' :
    sched_step close ord i c = Some (l, c') → pool_exec c' tr c'' →
    pool_exec c ((i, l) :: tr) c''.

(** Run a schedule and record the steps taken; a goroutine that cannot
    step is skipped. *)
Fixpoint sched_trace (sched : list nat) (c : list goroutine * state W) :
    list event * (list goroutine * state W) :=
  match sched with
  | [] => ([], c)
  | i :: sched =>
      match sched_step close ord i c with
      | Some (l, c') => let '(tr, c'') := sched_trace sched c' in ((i, l) :: tr, c'')
      | None => sched_trace sched c
      end
  end.

End exec.

(** ** Fixtures *)

(** The steps of the three goroutines of [demo_calls] scheduled in turn
    until all have returned: who took each step, and the call whose [Lock]
    it took. *)
Definition demo_events : list event :=
  [(0, None); (1, None); (2, None); (0, Some (call_Add conn_a)); (0, None); (0, None);
   (0, None); (0, None); (1, Some (call_Add conn_b)); (0, None); (1, None); (1, None);
   (1, None); (2, Some call_CloseAll); (2, None); (2, None); (2, None); (2, None);
   (2, None); (2, None); (0, Some (call_Remove conn_a)); (0, None); (0, None)].

(** [CloseAll] on a registry of two connections races with the [Add] of a
    third: the steps when the two goroutines are scheduled in turn, and
    the configuration in the end. *)
Definition race_calls : list (list call) :=
  [[call_CloseAll]; [call_Add (conn_ref 3%positive)]].

Definition race_events : list event :=
  [(0, None); (1, None); (0, Some call_CloseAll); (0, None); (0, None); (0, None);
   (0, None); (0, None); (0, None); (1, Some (call_Add (conn_ref 3%positive)));
   (1, None); (1, None); (1, None)].

Definition race_end : list goroutine * state (gmap handle nat) :=
  ([mkG (at_exit None) []; mkG (at_exit None) []],
   mkState (mkConns Unlocked (Some {[conn_ref 3%positive := true]}))
           {[1%positive := 1; 2%positive := 1]}).

(** One goroutine adds a connection and returns before another starts to
    remove it: the steps up to the return of [Add], where the goroutines
    stand then, and the steps of [Remove]. *)
Definition handover_calls : list (list call) := [[call_Add conn_a]; [call_Remove conn_a]].

Definition handover_done : list event :=
  [(0, None); (0, Some (call_Add conn_a)); (0, None); (0, None); (0, None); (0, None)].

Definition handover_mid : list goroutine * state (gmap handle nat) :=
  ([mkG (at_exit None) []; mkG (at_exit None) [call_Remove conn_a]],
   mkState (mkConns Unlocked (Some {[conn_a := true]})) ∅).

Definition handover_rest : list event :=
  [(1, None); (1, Some (call_Remove conn_a)); (1, None); (1, None)].

(** ** Traces *)

Section trace_facts.
Implicit Types (tr : list event) (i n a : nat).

Lemma lock_order_cons i l tr : lock_order ((i, l) :: tr) = option_list l ++ lock_order tr.
Proof. unfold lock_order. by destruct l. Qed.

Lemma calls_of_cons i j l tr :
  calls_of i ((j, l) :: tr) = (if decide (j = i) then option_list l else []) ++ calls_of i tr.
Proof.
  unfold calls_of, steps_of. rewrite filter_cons; simpl.
  destruct (decide (j = i)); [apply lock_order_cons|done].
Qed.

(** The calls of a goroutine appear in the lock order in the order in
    which the goroutine took the lock for them. *)
Lemma calls_of_sublist i tr : calls_of i tr `sublist_of` lock_order tr.
Proof. apply omap_sublist, sublist_filter. Qed.

(** The calls of a trace made of two parts. *)
Lemma lock_order_app tr1 tr2 : lock_order (tr1 ++ tr2) = lock_order tr1 ++ lock_order tr2.
Proof. apply omap_app. Qed.

Lemma calls_of_app i tr1 tr2 : calls_of i (tr1 ++ tr2) = calls_of i tr1 ++ calls_of i tr2.
Proof. unfold calls_of, steps_of, lock_order. by rewrite filter_app, omap_app. Qed.

(** The position of a call lies inside the trace. *)
Lemma lock_index_lt i n tr a : lock_index i n tr = Some a → a < length tr.
Proof.
  revert n a. induction tr as [|[j l] tr IH]; intros n a Ha; simpl in *; [done|].
  destruct (decide (j = i)), l, n; simplify_eq/=; try lia;
    apply fmap_Some in Ha as (a' & Ha'%IH & ->); lia.
Qed.

(** The step at the position of a call is a step of its goroutine that
    takes the lock, for the call with that number among those the
    goroutine took the lock for. *)
Lemma lock_index_call i n tr a :
  lock_index i n tr = Some a →
  ∃ k, tr !! a = Some (i, Some k) ∧ calls_of i tr !! n = Some k.
Proof.
  revert n a. induction tr as [|[j l] tr IH]; intros n a Ha; simpl in *; [done|].
  rewrite calls_of_cons.
  destruct (decide (j = i)), l, n; simplify_eq/=; eauto;
    apply fmap_Some in Ha as (a' & Ha'%IH & ->); done.
Qed.

(** A call has a position exactly when its goroutine has taken the lock
    for it. *)
Lemma lock_index_Some i n tr : is_Some (lock_index i n tr) ↔ n < length (calls_of i tr).
Proof.
  revert n. induction tr as [|[j l] tr IH]; intros n; simpl.
  { rewrite is_Some_alt. simpl. lia. }
  rewrite calls_of_cons, length_app.
  destruct (decide (j = i)), l, n; simpl; rewrite ?fmap_is_Some, ?IH; try lia.
  rewrite is_Some_alt. lia.
Qed.

(** In a trace made of two parts, the calls that took the lock in the
    first part keep their position, and the others are found in the
    second part. *)
Lemma lock_index_app i n tr1 tr2 :
  lock_index i n (tr1 ++ tr2) =
    match lock_index i n tr1 with
    | Some a => Some a
    | None => (λ a, length tr1 + a) <$> lock_index i (n - length (calls_of i tr1)) tr2
    end.
Proof.
  revert n. induction tr1 as [|[j l] tr1 IH]; intros n; simpl.
  { rewrite Nat.sub_0_r. by destruct (lock_index i n tr2). }
  rewrite calls_of_cons, length_app.
  destruct (decide (j = i)), l, n; simpl; rewrite ?IH, ?Nat.sub_0_r; try done;
    destruct (lock_index i _ tr1); simpl; try done;
    by rewrite <-option_fmap_compose.
Qed.

End trace_facts.

(** ** Executions and traces *)

Section exec_facts.
Context {W : Type} (close : @closer W) (ord : range_order).
Implicit Types (c : list goroutine * state W) (gs : list goroutine) (s : state W).
Implicit Types (tr : list event).

(** Forgetting who took the steps gives an execution of the pool, and
    every execution of the pool arises so. *)
Lemma pool_exec_steps c tr c' :
  pool_exec close ord c tr c' → pool_steps close ord c (lock_order tr) c'.
Proof.
  induction 1 as [c|c i l c1 tr c' Hstep _ IH]; [constructor|].
  rewrite lock_order_cons. econstructor; [by eapply sched_step_sound|done].
Qed.

Lemma pool_steps_exec c ls c' :
  pool_steps close ord c ls c' → ∃ tr, pool_exec close ord c tr c' ∧ lock_order tr = ls.
Proof.
  induction 1 as [c|c l c1 ls c' Hstep _ (tr & IH & <-)].
  - exists []. split; [constructor|done].
  - apply sched_step_complete in Hstep as (i & _ & Hstep).
    exists ((i, l) :: tr). split; [by econstructor|apply lock_order_cons].
Qed.

Lemma sched_trace_sound sched c tr c' :
  sched_trace close ord sched c = (tr, c') → pool_exec close ord c tr c'.
Proof.
  revert c tr c'. induction sched as [|i sched IH]; intros c tr c' Hrun; simpl in Hrun.
  { simplify_eq. constructor. }
  destruct (sched_step close ord i c) as [[l c1]|] eqn:Hstep; [|by apply IH].
  destruct (sched_trace close ord sched c1) as [tr1 c2] eqn:Hrun1. simplify_eq.
  econstructor; [done|by apply IH].
Qed.

(** Executions compose. *)
Lemma pool_exec_app c tr1 c1 tr2 c2 :
  pool_exec close ord c tr1 c1 → pool_exec close ord c1 tr2 c2 →
  pool_exec close ord c (tr1 ++ tr2) c2.
Proof. induction 1; [done|]. intros. simpl. econstructor; eauto. Qed.

(** A step of goroutine [i] moves the call it takes the lock for from the
    calls goroutine [i] has still to take the lock for to the trace, and
    leaves the other goroutines as they are. *)
Lemma sched_step_pending i gs s l c' :
  sched_step close ord i (gs, s) = Some (l, c') →
  ∃ g g', gs !! i = Some g ∧ c'.1 = <[i := g']> gs ∧
          option_list l ++ pending g' = pending g.
Proof.
  intros Hstep. apply sched_step_inv in Hstep as (p & ks & Hi & [Hc|Hc]).
  - destruct Hc as (k & ks' & -> & -> & -> & ->).
    exists (mkG (at_exit None) (k :: ks')), (mkG (entry k) ks').
    split_and!; [done..|]. by destruct k.
  - destruct Hc as (p' & s' & Hp & -> & ->). exists (mkG p ks), (mkG p' ks).
    split_and!; [done..|]. unfold pending; simpl.
    by rewrite (thread_step_not_to_Lock _ _ _ _ _ _ Hp).
Qed.

(** Along an execution, the calls goroutine [i] has taken the lock for,
    followed by those it has still to take it for, are the calls it had
    to take it for at the start. *)
Lemma pool_exec_pending c tr c' i g :
  pool_exec close ord c tr c' → c.1 !! i = Some g →
  ∃ g', c'.1 !! i = Some g' ∧ calls_of i tr ++ pending g' = pending g.
Proof.
  intros Hexec. revert g.
  induction Hexec as [c|[gs s] j l c1 tr c' Hstep _ IH]; intros g Hi.
  { by exists g. }
  apply sched_step_pending in Hstep as (gj & gj' & Hj & Hc1 & Hpend).
  rewrite calls_of_cons. simpl in Hi. destruct (decide (j = i)) as [->|Hne].
  - destruct (IH gj') as (g' & Hg' & Hcalls).
    { rewrite Hc1. apply list_lookup_insert_eq. by eapply lookup_lt_Some. }
    exists g'. split; [done|]. simplify_eq. by rewrite <-Hpend, <-Hcalls, (assoc_L (++)).
  - destruct (IH g) as (g' & Hg' & Hcalls).
    { rewrite Hc1. by rewrite list_lookup_insert_ne. }
    by exists g'.
Qed.

End exec_facts.

(** ** Real-time order *)

Section real_time.
Context {W : Type} (close : @closer W) (ord : range_order).
Implicit Types (gs : list goroutine) (s : state W) (tr : list event).

(** The calls a goroutine has taken the lock for are those it has
    returned from and, when it is inside the critical section, the one it
    is inside of: a call takes the lock between its invocation and its
    return. *)
Lemma pool_exec_interval kss s0 tr gs s i ks g :
  pool_exec close ord (spawn <$> kss, s0) tr (gs, s) →
  kss !! i = Some ks → gs !! i = Some g →
  returned_from ks g ≤ length (calls_of i tr) ≤ invoked ks g.
Proof.
  intros Hexec Hi Hg.
  apply (pool_exec_pending close ord _ _ _ i (spawn ks)) in Hexec as (g' & Hg' & Hcalls);
    [|simpl; by rewrite list_lookup_fmap, Hi].
  simplify_eq/=. change (pending (spawn ks)) with ks in Hcalls.
  apply (f_equal length) in Hcalls. unfold returned_from, invoked, pending in *.
  rewrite !length_app in Hcalls. destruct g' as [p ks']; simpl in *.
  destruct p; simpl in *; lia.
Qed.

(** C15. The order in which the calls take the lock respects real time:
    a call that has returned took the lock before it returned, for the
    call its goroutine was given at that place, and a call that had not
    been made by then takes the lock, if ever, afterwards, whatever the
    connections do and however the execution goes on. *)
Theorem real_time_order kss s0 tr1 gs s tr2 i j ksi ksj gi gj n m :
  pool_exec close ord (spawn <$> kss, s0) tr1 (gs, s) →
  kss !! i = Some ksi → kss !! j = Some ksj → gs !! i = Some gi → gs !! j = Some gj →
  n < returned_from ksi gi → invoked ksj gj ≤ m →
  ∃ a k, lock_index i n (tr1 ++ tr2) = Some a ∧ a < length tr1 ∧ ksi !! n = Some k ∧
         tr1 !! a = Some (i, Some k) ∧
         ∀ b, lock_index j m (tr1 ++ tr2) = Some b → length tr1 ≤ b.
Proof.
  intros Hexec Hi Hj Hgi Hgj Hn Hm.
  pose proof (pool_exec_interval _ _ _ _ _ _ _ _ Hexec Hi Hgi) as [Hret _].
  pose proof (pool_exec_interval _ _ _ _ _ _ _ _ Hexec Hj Hgj) as [_ Hinv].
  destruct (proj2 (lock_index_Some i n tr1)) as [a Ha]; [lia|].
  destruct (lock_index_call _ _ _ _ Ha) as (k & Hk & Hcall).
  exists a, k. rewrite !lock_index_app, Ha. split_and!; [done|by eapply lock_index_lt| |done|].
  - apply (pool_exec_pending close ord _ _ _ i (spawn ksi)) in Hexec as (g' & _ & Hks);
      [|simpl; by rewrite list_lookup_fmap, Hi].
    change (pending (spawn ksi)) with ksi in Hks. rewrite <-Hks.
    by apply lookup_app_l_Some.
  - destruct (lock_index j m tr1) as [b'|] eqn:Hb.
    { assert (m < length (calls_of j tr1)) by by apply lock_index_Some. lia. }
    intros b (b' & _ & ->)%fmap_Some. lia.
Qed.

End real_time.

(** ** Program order and linearizability *)

Section linearization.
Context `{ConnWorld W} `{!ConnWorldComm W} (ord : range_order).
Implicit Types (gs : list goroutine) (s : state W) (tr : list event).

(** At every point of an execution, whatever the connections do, the
    calls a goroutine has taken the lock for followed by those it has
    still to take it for are the calls it was spawned with, in their
    order: a goroutine takes the lock for its calls in program order. *)
Theorem program_order (close : @closer W) kss s0 tr gs s i ks :
  pool_exec close ord (spawn <$> kss, s0) tr (gs, s) → kss !! i = Some ks →
  ∃ g, gs !! i = Some g ∧ calls_of i tr ++ pending g = ks.
Proof.
  intros Hexec Hi.
  apply (pool_exec_pending close ord _ _ _ i (spawn ks)) in Hexec; [done|].
  simpl. by rewrite list_lookup_fmap, Hi.
Qed.

(** Once all goroutines have returned, the registry is in the state one
    goroutine reaches that makes the calls in the order in which they took
    the lock, its members and the connections closed are those of the
    abstract registry, and that order is an interleaving of the programs
    of the goroutines: the calls of each goroutine occur in it in the
    order in which the goroutine made them. *)
Theorem pool_linearizable kss s0 tr gs s :
  Conns_ready s0 → Forall (Forall call_ok) kss →
  pool_exec world_closer ord (spawn <$> kss, s0) tr (gs, s) →
  Forall returned_all gs →
  run_calls world_closer ord (lock_order tr) s0 = Returns () s ∧
  Conns_abs s = spec_run (lock_order tr) (Conns_abs s0) ∧
  ∀ i ks, kss !! i = Some ks → calls_of i tr = ks ∧ ks `sublist_of` lock_order tr.
Proof.
  intros Hs0 Hok Hexec Hall.
  destruct (quiescent_run ord kss s0 (lock_order tr) gs s) as [Hperm Hrun];
    [done..|by apply pool_exec_steps|done|].
  split; [done|]. split.
  { apply (run_calls_abs ord (lock_order tr) s0); [done| |done].
    rewrite Hperm. by apply Forall_concat. }
  intros i ks Hi.
  apply (pool_exec_pending _ _ _ _ _ i (spawn ks)) in Hexec as (g & Hg & Hcalls);
    [|simpl; by rewrite list_lookup_fmap, Hi].
  rewrite (Forall_lookup_1 _ _ _ _ Hall Hg), app_nil_r in Hcalls.
  change (calls_of i tr = ks) in Hcalls. split; [done|].
  rewrite <-Hcalls. apply calls_of_sublist.
Qed.

(** C22. [CloseAll] races with the [Add] of a connection by another goroutine.
    When both have returned, either [CloseAll] took the lock first, and
    then the connection is the only member and has not been closed; or
    [Add] took it first, and then the connection has been closed with the
    others and the registry is empty.  Nothing else can happen. *)
Theorem CloseAll_races_Add (c : net_Conn) s0 tr gs s :
  Conns_ready s0 → c ≠ nil_Conn →
  pool_exec world_closer ord (spawn <$> [[call_CloseAll]; [call_Add c]], s0) tr (gs, s) →
  Forall returned_all gs →
  (lock_order tr = [call_CloseAll; call_Add c] ∧ members (reg s) = {[c]} ∧
   world s = close_each (handles (elements (members (reg s0)))) (world s0)) ∨
  (lock_order tr = [call_Add c; call_CloseAll] ∧ members (reg s) = ∅ ∧
   world s = close_each (handles (elements ({[c]} ∪ members (reg s0)))) (world s0)).
Proof.
  intros Hs0 Hc Hexec Hall.
  assert (Forall (Forall call_ok) [[call_CloseAll]; [call_Add c]]) as Hok.
  { repeat constructor; [done|]. by intros [= ->]. }
  destruct (quiescent_run ord [[call_CloseAll]; [call_Add c]] s0 (lock_order tr) gs s)
    as [Hperm Hrun]; [done..|by apply pool_exec_steps|done|].
  apply (run_calls_abs ord) in Hrun as [_ Habs];
    [|done|rewrite Hperm; by apply Forall_concat].
  simpl in Hperm. symmetry in Hperm. apply Permutation_length_2_inv in Hperm as [Hl|Hl];
    rewrite Hl in *; [left|right]; (split; [done|]);
    unfold Conns_abs in Habs; simplify_eq/=; split; set_solver.
Qed.

End linearization.

(** ** The theorems at concrete inputs *)

Section trace_witnesses.

Lemma demo_exec :
  pool_exec world_closer canonical_order (spawn <$> demo_calls, demo_start)
            demo_events demo_end.
Proof. apply sched_trace_sound with (sched := round_robin 3 20). by vm_compute. Defined.

Lemma program_order_witness :
  ∃ g, demo_end.1 !! 0 = Some g ∧
       calls_of 0 demo_events ++ pending g = [call_Add conn_a; call_Remove conn_a].
Proof.
  exact (program_order canonical_order world_closer demo_calls demo_start demo_events
           demo_end.1 demo_end.2 0 _ demo_exec eq_refl).
Defined.

Lemma pool_linearizable_witness :
  run_calls world_closer canonical_order (lock_order demo_events) demo_start =
    Returns () demo_end.2 ∧
  Conns_abs demo_end.2 = spec_run (lock_order demo_events) (Conns_abs demo_start) ∧
  ∀ i ks, demo_calls !! i = Some ks →
          calls_of i demo_events = ks ∧ ks `sublist_of` lock_order demo_events.
Proof.
  apply (pool_linearizable canonical_order demo_calls demo_start demo_events demo_end.1
           demo_end.2).
  - apply zero_Conns_ready.
  - apply demo_calls_ok.
  - apply demo_exec.
  - apply demo_end_returned.
Defined.

Lemma race_exec :
  pool_exec world_closer canonical_order (spawn <$> race_calls, mkState two_conns ∅)
            race_events race_end.
Proof. apply sched_trace_sound with (sched := round_robin 2 12). by vm_compute. Defined.

Lemma CloseAll_races_Add_witness :
  (lock_order race_events = [call_CloseAll; call_Add (conn_ref 3%positive)] ∧
   members (reg race_end.2) = {[conn_ref 3%positive]} ∧
   world race_end.2 =
     close_each (handles (elements (members two_conns))) (∅ : gmap handle nat)) ∨
  (lock_order race_events = [call_Add (conn_ref 3%positive); call_CloseAll] ∧
   members (reg race_end.2) = ∅ ∧
   world race_end.2 =
     close_each (handles (elements ({[conn_ref 3%positive]} ∪ members two_conns)))
                (∅ : gmap handle nat)).
Proof.
  apply (CloseAll_races_Add canonical_order (conn_ref 3%positive) (mkState two_conns ∅)
           race_events race_end.1 race_end.2).
  - apply two_conns_ready.
  - by intros [=].
  - apply race_exec.
  - by repeat constructor.
Defined.

Lemma handover_exec :
  pool_exec world_closer canonical_order (spawn <$> handover_calls, demo_start)
            handover_done handover_mid.
Proof. apply sched_trace_sound with (sched := replicate 6 0). by vm_compute. Defined.

Lemma real_time_order_witness :
  ∃ a k, lock_index 0 0 (handover_done ++ handover_rest) = Some a ∧
         a < length handover_done ∧ [call_Add conn_a] !! 0 = Some k ∧
         handover_done !! a = Some (0, Some k) ∧
         ∀ b, lock_index 1 0 (handover_done ++ handover_rest) = Some b →
              length handover_done ≤ b.
Proof.
  apply (real_time_order world_closer canonical_order handover_calls demo_start
           handover_done handover_mid.1 handover_mid.2 handover_rest 0 1
           [call_Add conn_a] [call_Remove conn_a]
           (mkG (at_exit None) []) (mkG (at_exit None) [call_Remove conn_a]) 0 0);
    [apply handover_exec|done..|by vm_compute|by vm_compute].
Defined.

End trace_witnesses.
