(* ===== verification/Interleave.v ===== *)
(** * Interleave: the orders in which concurrent calls can take the lock

    The order in which the calls of a pool of goroutines take the lock of
    [Conns] ([src/psiphon/conn.go], lines 54, 63 and 69) is an
    interleaving of the programs of the goroutines, and every interleaving
    is the order of some execution: a goroutine that is about to make a
    call on a free registry can run it to its end before any other
    goroutine moves.  The executions of [Concurrent] thus allow every
    serialization of the calls and no other order.  Interleavings are
    defined for lists of any type, with an enumeration that computes
    them. *)

From S2P Require Import Prelude GoSem Net RegistrySpec Registry Concurrent Progress Trace.

(** [interleaved kss ls]: the list [ls] is an interleaving of the lists
    [kss]: it takes the first element that is left of one of them, again
    and again, until none is left. *)
Inductive interleaved {A : Type} : list (list A) → list A → Prop :=
| interleaved_done kss : Forall (λ ks, ks = []) kss → interleaved kss []
| interleaved_next kss i k ks ls :
    kss !! i = Some (k :: ks) → interleaved (<[i := ks]> kss) ls →
    interleaved kss (k :: ls).

(** The interleavings of the lists [kss] that take [n] elements. *)
Fixpoint interleavings_of {A} (n : nat) (kss : list (list A)) : list (list A) :=
  match n with
  | 0 => [[]]
  | S n =>
      i ← seq 0 (length kss);
      match kss !! i with
      | Some (k :: ks) => cons k <$> interleavings_of n (<[i := ks]> kss)
      | _ => []
      end
  end.

(** All interleavings of the lists [kss]. *)
Definition interleavings {A} (kss : list (list A)) : list (list A) :=
  interleavings_of (length (concat kss)) kss.

(** ** Fixtures *)

(** [CloseAll] racing with the [Add] of a third connection, in the order
    in which [Add] takes the lock first. *)
Definition race_Add_first : list call := [call_Add (conn_ref 3%positive); call_CloseAll].

(** ** Interleavings *)

Section interleavings.
Context {A : Type}.
Implicit Types (kss : list (list A)) (ks ls : list A).

Lemma concat_Forall_nil kss : Forall (λ ks, ks = []) kss → concat kss = [].
Proof. induction 1 as [|? kss -> _ IH]; [done|exact IH]. Qed.

(** An interleaving has the elements of the lists, each once. *)
Lemma interleaved_perm kss ls : interleaved kss ls → ls ≡ₚ concat kss.
Proof.
  induction 1 as [kss Hnil|kss i k ks ls Hi _ IH].
  - by rewrite concat_Forall_nil.
  - by rewrite IH, (concat_insert_tail kss i k ks).
Qed.

(** Taking the first element of one of the lists leaves one element less. *)
Lemma length_concat_insert kss i k ks :
  kss !! i = Some (k :: ks) →
  length (concat kss) = S (length (concat (<[i := ks]> kss))).
Proof.
  intros Hi. by rewrite (concat_insert_tail kss i k ks Hi).
Qed.

Lemma concat_nil_Forall kss : length (concat kss) = 0 → Forall (λ ks, ks = []) kss.
Proof.
  induction kss as [|ks kss IH]; [done|]. rewrite concat_cons, length_app.
  intros Hlen. constructor; [apply length_zero_iff_nil; lia|apply IH; lia].
Qed.

Lemma interleavings_of_spec n kss ls :
  length (concat kss) = n → ls ∈ interleavings_of n kss ↔ interleaved kss ls.
Proof.
  revert kss ls. induction n as [|n IH]; intros kss ls Hn; simpl.
  - rewrite list_elem_of_singleton. split.
    + intros ->. by apply interleaved_done, concat_nil_Forall.
    + inversion 1 as [|? i k ks ls' Hi _]; [done|].
      apply length_concat_insert in Hi. lia.
  - rewrite list_elem_of_bind. split.
    + intros (i & Hls & _). destruct (kss !! i) as [[|k ks]|] eqn:Hi;
        try by apply elem_of_nil in Hls.
      apply list_elem_of_fmap in Hls as (ls' & -> & Hls').
      apply (interleaved_next kss i k ks); [done|]. apply IH; [|done].
      apply length_concat_insert in Hi. lia.
    + inversion 1 as [? Hnil|? i k ks ls' Hi Hrest]; simplify_eq.
      { by rewrite concat_Forall_nil in Hn. }
      exists i. rewrite Hi. split.
      * apply list_elem_of_fmap. exists ls'. split; [done|]. apply IH; [|done].
        apply length_concat_insert in Hi. lia.
      * apply elem_of_seq. apply lookup_lt_Some in Hi. lia.
Qed.

(** The enumeration lists exactly the interleavings. *)
Lemma interleavings_spec kss ls : ls ∈ interleavings kss ↔ interleaved kss ls.
Proof. by apply interleavings_of_spec. Qed.

#[export] Instance interleaved_dec `{EqDecision A} kss ls : Decision (interleaved kss ls).
Proof.
  refine (cast_if (decide (ls ∈ interleavings kss))); by rewrite <-interleavings_spec.
Defined.

End interleavings.

(** ** Every lock order is an interleaving *)

Section sound.
Context {W : Type} (close : @closer W) (ord : range_order).
Implicit Types (c : list goroutine * state W) (gs : list goroutine) (s : state W).
Implicit Types (tr : list event).

(** The order in which the calls take the lock in an execution that ends
    with all goroutines returned is an interleaving of the calls the
    goroutines had still to take the lock for. *)
Lemma pool_exec_interleaved c tr c' :
  pool_exec close ord c tr c' → Forall returned_all c'.1 →
  interleaved (pending <$> c.1) (lock_order tr).
Proof.
  induction 1 as [c|[gs s] i l c1 tr c' Hstep _ IH]; intros Hall.
  { constructor. apply Forall_fmap. eapply Forall_impl; [done|]. by intros g ->. }
  apply sched_step_pending in Hstep as (g & g' & Hi & Hc1 & Hpend).
  specialize (IH Hall). rewrite Hc1, list_fmap_insert in IH.
  rewrite lock_order_cons. destruct l as [k|]; simpl in *.
  - apply (interleaved_next _ i k (pending g')); [|done].
    rewrite list_lookup_fmap, Hi. simpl. by rewrite <-Hpend.
  - rewrite Hpend, list_insert_id in IH; [done|]. by rewrite list_lookup_fmap, Hi.
Qed.

End sound.

(** ** Every interleaving is a lock order *)

Section complete.
Context `{ConnWorld W} `{!ConnWorldComm W} (ord : range_order).
Implicit Types (c : list goroutine * state W) (gs : list goroutine) (s : state W).
Implicit Types (tr : list event) (kss : list (list call)).

(** The statements one goroutine executes when it runs alone are an
    execution of the pool in which the others stand still. *)
Lemma thread_run_exec n gs s i p ks p' s' :
  gs !! i = Some (mkG p ks) →
  thread_run world_closer ord n p s = (p', s') →
  ∃ tr, pool_exec world_closer ord (gs, s) tr (<[i := mkG p' ks]> gs, s') ∧
        lock_order tr ++ option_list (acquires p') = option_list (acquires p).
Proof.
  revert gs p s. induction n as [|n IH]; intros gs p s Hi Hrun; simpl in Hrun.
  { simplify_eq. exists []. rewrite list_insert_id by done. split; [constructor|done]. }
  destruct (thread_step _ _ p s) as [[p1 s1]|] eqn:Hstep.
  - destruct (IH (<[i := mkG p1 ks]> gs) p1 s1) as (tr & Hexec & Hl); [|done|].
    { apply list_lookup_insert_eq. by eapply lookup_lt_Some. }
    rewrite list_insert_insert_eq in Hexec. exists ((i, acquires p) :: tr). split.
    + econstructor; [|done]. unfold sched_step; simpl. rewrite Hi; simpl.
      rewrite Hstep. by destruct p as [| | | | | | | | | | |[]].
    + rewrite lock_order_cons, <-(assoc_L (++)), Hl.
      by rewrite (thread_step_not_to_Lock _ _ _ _ _ _ Hstep), app_nil_r.
  - simplify_eq. exists []. rewrite list_insert_id by done. split; [constructor|done].
Qed.

(** A goroutine that is about to make a call on a ready registry can make
    it without any other goroutine taking a step in between. *)
Lemma solo_call_exec gs s i k ks :
  gs !! i = Some (mkG (at_exit None) (k :: ks)) → Conns_ready s → call_ok k →
  ∃ tr s', pool_exec world_closer ord (gs, s) tr (<[i := mkG (at_exit None) ks]> gs, s') ∧
           lock_order tr = [k] ∧ Conns_ready s'.
Proof.
  intros Hi Hs Hk.
  destruct (Conns_refines ord k s Hk Hs) as (s1 & Hrun & Hs1 & _).
  change (run_call world_closer ord k s = Returns () s1) in Hrun.
  destruct (thread_run_exits ord (steps_left ord (entry k) s) (entry k) s)
    as (r & s' & Hsolo); [unfold consistent; destruct Hs as [[-> _] _]; by destruct k|done|].
  pose proof (thread_run_rest _ _ _ _ _ _ Hsolo) as Hrest.
  replace (rest world_closer ord (entry k) s) with (run_call world_closer ord k s) in Hrest
    by by destruct k.
  rewrite Hrun in Hrest. destruct r; cbv [finish raise mret M_ret] in Hrest; simplify_eq.
  destruct (thread_run_exec _ (<[i := mkG (entry k) ks]> gs) s i _ ks _ _
              (list_lookup_insert_eq _ _ _ (lookup_lt_Some _ _ _ Hi)) Hsolo)
    as (tr & Hexec & Hl).
  rewrite list_insert_insert_eq in Hexec. exists ((i, None) :: tr), s'.
  split_and!; [|rewrite lock_order_cons; simpl in *; rewrite app_nil_r in Hl;
                by destruct k|done].
  econstructor; [|done]. unfold sched_step; simpl. by rewrite Hi.
Qed.

(** Every interleaving of the programs of the goroutines is the order in
    which the calls take the lock in some execution. *)
Lemma interleaved_exec kss ls s0 :
  interleaved kss ls → Conns_ready s0 → Forall (Forall call_ok) kss →
  ∃ tr gs s, pool_exec world_closer ord (spawn <$> kss, s0) tr (gs, s) ∧
             Forall returned_all gs ∧ lock_order tr = ls.
Proof.
  intros Hil. revert s0. induction Hil as [kss Hnil|kss i k ks ls Hi _ IH]; intros s0 Hs0 Hok.
  { exists [], (spawn <$> kss), s0. split_and!; [constructor| |done].
    apply Forall_fmap. eapply Forall_impl; [exact Hnil|]. by intros ks ->. }
  pose proof (Forall_lookup_1 _ _ _ _ Hok Hi) as [Hk Hks]%Forall_cons.
  destruct (solo_call_exec (spawn <$> kss) s0 i k ks) as (tr1 & s1 & Hexec1 & Hl1 & Hs1);
    [by rewrite list_lookup_fmap, Hi|done..|].
  destruct (IH s1) as (tr & gs & s & Hexec & Hall & Hl); [done|by apply Forall_insert|].
  exists (tr1 ++ tr), gs, s. split_and!; [|done|].
  - eapply pool_exec_app; [done|]. by rewrite list_fmap_insert in Hexec.
  - by rewrite lock_order_app, Hl1, Hl.
Qed.

(** C12. The orders in which concurrent calls can take the lock are exactly
    the interleavings of the programs of the goroutines. *)
Theorem lock_orders_interleavings kss ls s0 :
  Conns_ready s0 → Forall (Forall call_ok) kss →
  (∃ tr gs s, pool_exec world_closer ord (spawn <$> kss, s0) tr (gs, s) ∧
              Forall returned_all gs ∧ lock_order tr = ls) ↔
  interleaved kss ls.
Proof.
  intros Hs0 Hok. split; [|by intros; apply interleaved_exec].
  intros (tr & gs & s & Hexec & Hall & <-).
  apply pool_exec_interleaved in Hexec; [|done]. simpl in Hexec.
  rewrite <-list_fmap_compose in Hexec. by rewrite list_fmap_id in Hexec.
Qed.

(** Both outcomes of the race of [CloseAll] with an [Add] happen: there is
    an execution in which [CloseAll] takes the lock first and one in which
    [Add] does. *)
Corollary race_orders_possible (conn : net_Conn) s0 ls :
  Conns_ready s0 → conn ≠ nil_Conn →
  ls = [call_CloseAll; call_Add conn] ∨ ls = [call_Add conn; call_CloseAll] →
  ∃ tr gs s,
    pool_exec world_closer ord (spawn <$> [[call_CloseAll]; [call_Add conn]], s0) tr (gs, s) ∧
    Forall returned_all gs ∧ lock_order tr = ls.
Proof.
  intros Hs0 Hc Hls. apply interleaved_exec; [|done|].
  - destruct Hls as [-> | ->];
      [apply (interleaved_next _ 0 _ []); [done|]; apply (interleaved_next _ 1 _ [])
      |apply (interleaved_next _ 1 _ []); [done|]; apply (interleaved_next _ 0 _ [])];
      try done; apply interleaved_done; by repeat constructor.
  - repeat constructor; [done|]. by intros [= ->].
Qed.

End complete.

(** ** The theorem at a concrete input *)

Section interleave_witnesses.

Lemma race_Add_first_interleaved : interleaved race_calls race_Add_first.
Proof.
  apply (interleaved_next _ 1 _ []); [done|]. apply (interleaved_next _ 0 _ []); [done|].
  apply interleaved_done. by repeat constructor.
Defined.

Lemma lock_orders_interleavings_witness :
  (∃ tr gs s,
     pool_exec world_closer canonical_order
       (spawn <$> race_calls, mkState two_conns (∅ : gmap handle nat)) tr (gs, s) ∧
     Forall returned_all gs ∧ lock_order tr = race_Add_first) ↔
  interleaved race_calls race_Add_first.
Proof.
  apply (lock_orders_interleavings canonical_order race_calls race_Add_first
           (mkState two_conns (∅ : gmap handle nat))); [apply two_conns_ready|].
  repeat constructor; by intros [=].
Defined.

End interleave_witnesses.
