(* ===== verification/SessionRace.v ===== *)
(** * SessionRace: a caller that registers a connection while CloseAll runs

    The two declarations of [src/psiphon/conn.go] meet when a goroutine
    that has dialed a connection registers it with [Add] and arms it with
    [SetClosedSignal] while another goroutine calls [CloseAll].  The
    methods of the registry are serialized by the mutex ([Concurrent]);
    [SetClosedSignal] takes no lock of the registry, and may fall between
    two calls of [Close] of the loop of [CloseAll].  This file shows that
    it then has the effect it has before or after the whole loop, lists
    the interleavings of the two goroutines, and what the caller finds in
    each: the error of [SetClosedSignal] tells it exactly when no signal
    is going to come. *)

From stdpp Require Import strings.
From S2P Require Import Prelude GoSem Net RegistrySpec Registry ClosedSignal Session Interleave.

(** ** Operations *)

(** An operation of a goroutine of the session: a call of a method of the
    registry, or [conn.SetClosedSignal(ch)]. *)
Inductive op : Type :=
| op_call (k : call)
| op_arm (conn : net_Conn) (ch : chan).

(** One operation, with the error it returns. *)
Definition run_op (ord : range_order) (o : op) : M (state conn_world) (option error) :=
  match o with
  | op_call k => run_call world_closer ord k ;; mret None
  | op_arm conn ch => call_SetClosedSignal conn ch
  end.

(** Operations made one after the other, with the errors they return. *)
Fixpoint run_ops (ord : range_order) (os : list op) :
    M (state conn_world) (list (option error)) :=
  match os with
  | [] => mret []
  | o :: os => e ← run_op ord o; es ← run_ops ord os; mret (e :: es)
  end.

(** What the caller of [dial_tracked] does once it has its connection. *)
Definition tracked_ops (conn : net_Conn) (ch : chan) : list op :=
  [op_call (call_Add conn); op_arm conn ch].

#[export] Instance op_eq_dec : EqDecision op.
Proof. solve_decision. Defined.

(** ** Fixtures *)

(** The caller of [session_start] after its dial has returned, and the
    interleaving in which [CloseAll] falls between its [Add] and its
    [SetClosedSignal]. *)
Definition session_after_dial : state conn_world := mkState zero_Conns session_dialed.

Definition CloseAll_between : list op :=
  [op_call (call_Add (conn_ref 1%positive)); op_call call_CloseAll;
   op_arm (conn_ref 1%positive) 7%positive].

(** ** Running operations *)

Section ops.
Context (ord : range_order).
Implicit Types (s : state conn_world) (w : conn_world) (h : handle) (ch : chan).
Implicit Types (o : op) (os : list op).

(** A sequence of operations, one operation at a time. *)
Lemma run_ops_step o os s e s1 es s2 :
  run_op ord o s = Returns e s1 → run_ops ord os s1 = Returns es s2 →
  run_ops ord (o :: os) s = Returns (e :: es) s2.
Proof.
  intros Ho Hos. cbn [run_ops]. unfold mbind, M_bind. rewrite Ho.
  fold (run_ops ord os). by rewrite Hos.
Qed.

(** [Add] and [CloseAll] on a free registry, and [SetClosedSignal] on an
    open and on a closed connection. *)
Lemma run_op_Add conn s :
  mutex (reg s) = Unlocked →
  run_op ord (op_call (call_Add conn)) s =
    Returns None (set_conns (Some (<[conn := true]> (default ∅ (conns (reg s))))) s).
Proof. intros Hmu. unfold run_op, mbind, M_bind; simpl. by rewrite Add_run. Qed.

Lemma run_op_CloseAll s :
  mutex (reg s) = Unlocked → nil_Conn ∉ members (reg s) →
  run_op ord (op_call call_CloseAll) s =
    Returns None (mkState (mkConns Unlocked (Some ∅))
                          (close_each (handles (range_keys ord (reg s))) (world s))).
Proof. intros Hmu Hnil. unfold run_op, mbind, M_bind; simpl. by rewrite CloseAll_run. Qed.

Lemma run_op_arm h ch s :
  run_op ord (op_arm (conn_ref h) ch) s =
    Returns (if is_closed (world s) h then Some AlreadyClosedError else None)
            (set_world (conn_step (world s) (do_SetClosedSignal h ch)) s).
Proof.
  unfold run_op, call_SetClosedSignal, zoom, conn_step.
  change (SetClosedSignal h ch (world s)) with (closeable_SetClosedSignal h ch (world s)).
  destruct (is_closed (world s) h) eqn:Hc.
  - rewrite SetClosedSignal_closed by done. by destruct s.
  - by rewrite SetClosedSignal_open.
Qed.

Lemma run_op_arm_open h ch s :
  is_closed (world s) h = false →
  run_op ord (op_arm (conn_ref h) ch) s = Returns None (set_world (arm h ch (world s)) s).
Proof. intros Hc. rewrite run_op_arm. simpl. by rewrite Hc. Qed.

Lemma run_op_arm_closed h ch s :
  is_closed (world s) h = true →
  run_op ord (op_arm (conn_ref h) ch) s = Returns (Some AlreadyClosedError) s.
Proof. intros Hc. rewrite run_op_arm. simpl. rewrite Hc. by destruct s. Qed.

End ops.

(** ** [CloseAll] is atomic for [SetClosedSignal] *)

Section atomic.
Implicit Types (w : conn_world) (h : handle) (ch : chan) (hs : list handle).

(** [CloseAll] is atomic for [SetClosedSignal]: a [SetClosedSignal]
    that another goroutine makes while the loop of line 71 is running,
    after the connections [hs1] and before the connections [hs2], has
    the effect and the result it has after the whole loop, when its
    connection is among [hs1], and before the whole loop otherwise. *)
Lemma arm_between_closes hs1 hs2 h ch w :
  close_each hs2 (conn_step (close_each hs1 w) (do_SetClosedSignal h ch)) =
    (if decide (h ∈ hs1) then conn_step (close_each (hs1 ++ hs2) w) (do_SetClosedSignal h ch)
     else close_each (hs1 ++ hs2) (conn_step w (do_SetClosedSignal h ch))) ∧
  is_closed (close_each hs1 w) h =
    (if decide (h ∈ hs1) then is_closed (close_each (hs1 ++ hs2) w) h else is_closed w h).
Proof.
  pose proof (is_closed_close_each is_closed hs1 w h) as H1.
  pose proof (is_closed_close_each is_closed (hs1 ++ hs2) w h) as H12.
  destruct (decide (h ∈ hs1)) as [Hh|Hh]; cbv iota.
  - rewrite bool_decide_true in H1 by done.
    rewrite bool_decide_true in H12 by set_solver. simpl in H1, H12.
    split; [|etrans; [exact H1|symmetry; exact H12]].
    by rewrite !arm_closed, close_each_app.
  - rewrite bool_decide_false in H1 by done.
    rewrite (arm_close_each hs1), close_each_app by done. split; [done|exact H1].
Qed.

End atomic.

(** ** The three places at which [CloseAll] can fall *)

Section race.
Context (ord : range_order).
Implicit Types (s : state conn_world) (w : conn_world) (h : handle) (ch : chan).
Implicit Types (o : op) (os : list op) (es : list (option error)).

(** The members and their handles once a connection has been added. *)
Lemma added_keys s h :
  nil_Conn ∉ members (reg s) →
  let c := mkConns Unlocked (Some (<[conn_ref h := true]> (default ∅ (conns (reg s))))) in
  (nil_Conn ∉ members c) ∧ h ∈ handles (range_keys ord c).
Proof.
  intros Hnil c. assert (members c = {[conn_ref h]} ∪ members (reg s)) as Hc.
  { unfold c, members; simpl. rewrite dom_insert_L. by destruct (conns (reg s)); set_solver. }
  rewrite elem_of_handles, elem_of_range_keys, Hc. set_solver.
Qed.

(** [CloseAll] before the connection is registered: the connection
    survives, open, a member, and armed. *)
Lemma race_CloseAll_first s h ch :
  Conns_ready s → conn_ref h ∉ members (reg s) → is_closed (world s) h = false →
  ∃ s', run_ops ord (op_call call_CloseAll :: tracked_ops (conn_ref h) ch) s =
          Returns [None; None; None] s' ∧
        reg s' = mkConns Unlocked (Some {[conn_ref h := true]}) ∧
        is_closed (world s') h = false ∧ conn_signal (obj (world s') h) = Some ch.
Proof.
  intros [[Hmu _] Hnil] Hnew Hopen.
  assert (is_closed (close_each (handles (range_keys ord (reg s))) (world s)) h = false)
    as Hstill.
  { etrans; [apply (is_closed_close_each is_closed)|]. rewrite Hopen, bool_decide_false; [done|].
    by rewrite elem_of_handles, elem_of_range_keys. }
  eexists. split.
  - eapply run_ops_step; [by apply run_op_CloseAll|].
    eapply run_ops_step; [by apply run_op_Add|].
    eapply run_ops_step; [apply run_op_arm_open; exact Hstill|done].
  - simpl. split_and!; [by rewrite insert_empty| |by rewrite obj_arm_eq].
    by rewrite is_closed_arm.
Qed.

(** [CloseAll] between [Add] and [SetClosedSignal]: the connection is
    closed and no longer a member, and [SetClosedSignal] tells the
    caller so; the call has armed nothing. *)
Lemma race_CloseAll_between s h ch :
  Conns_ready s →
  ∃ s', run_ops ord [op_call (call_Add (conn_ref h)); op_call call_CloseAll;
                     op_arm (conn_ref h) ch] s =
          Returns [None; None; Some AlreadyClosedError] s' ∧
        reg s' = mkConns Unlocked (Some ∅) ∧
        is_closed (world s') h = true ∧
        conn_signal (obj (world s') h) = conn_signal (obj (world s) h).
Proof.
  intros [[Hmu _] Hnil]. destruct (added_keys s h Hnil) as [Hnil' Hin].
  set (hs := handles (range_keys ord _)) in Hin.
  assert (is_closed (close_each hs (world s)) h = true) as Hclosed.
  { etrans; [apply (is_closed_close_each is_closed)|]. by rewrite bool_decide_true. }
  eexists. split.
  - eapply run_ops_step; [by apply run_op_Add|].
    eapply run_ops_step; [by apply run_op_CloseAll|].
    eapply run_ops_step; [apply run_op_arm_closed; exact Hclosed|done].
  - simpl. split_and!; [done..|]. apply conn_signal_close_each.
Qed.

(** [CloseAll] after [SetClosedSignal]: the connection is closed and the
    channel is signalled. *)
Lemma race_CloseAll_last s h ch :
  Conns_ready s → is_closed (world s) h = false →
  signals (world s) ch < room (world s) ch →
  ∃ s', run_ops ord (tracked_ops (conn_ref h) ch ++ [op_call call_CloseAll]) s =
          Returns [None; None; None] s' ∧
        reg s' = mkConns Unlocked (Some ∅) ∧
        is_closed (world s') h = true ∧
        signals (world s) ch < signals (world s') ch.
Proof.
  intros [[Hmu _] Hnil] Hopen Hroom. destruct (added_keys s h Hnil) as [Hnil' Hin].
  set (hs := handles (range_keys ord _)) in Hin.
  eexists. split.
  - eapply run_ops_step; [by apply run_op_Add|].
    eapply run_ops_step; [by apply run_op_arm_open|].
    eapply run_ops_step; [by apply run_op_CloseAll|done].
  - simpl. fold hs. split_and!; [done| |].
    + etrans; [apply (is_closed_close_each is_closed)|]. by rewrite bool_decide_true.
    + apply (signals_close_each_armed hs (arm h ch (world s)) h);
        [done|by rewrite is_closed_arm|by rewrite obj_arm_eq|done].
Qed.

End race.

(** ** The race *)

Section session_race.
Context (ord : range_order).
Implicit Types (s : state conn_world) (w : conn_world) (h : handle) (ch : chan).
Implicit Types (os : list op) (es : list (option error)).

(** The three places at which [CloseAll] can fall. *)
Lemma tracked_interleavings conn ch :
  interleavings [tracked_ops conn ch; [op_call call_CloseAll]] =
    [tracked_ops conn ch ++ [op_call call_CloseAll];
     [op_call (call_Add conn); op_call call_CloseAll; op_arm conn ch];
     op_call call_CloseAll :: tracked_ops conn ch].
Proof. reflexivity. Qed.

(** The operations of [tracked_ops] are what [dial_tracked] does after a
    successful dial. *)
Lemma dial_tracked_ops (dial : Dialer conn_world) network addr ch s h w1 :
  dial network addr (world s) = Returns (conn_ref h, None) w1 →
  dial_tracked dial network addr ch s =
    (es ← run_ops ord (tracked_ops (conn_ref h) ch);
     mret (conn_ref h, default None (es !! 1))) (set_world w1 s).
Proof.
  intros Hdial. unfold dial_tracked, mbind at 1, M_bind at 1, zoom. rewrite Hdial.
  cbn. unfold mbind, M_bind.
  destruct (Add (conn_ref h) (set_world w1 s)) as [[] s1| | |]; try done.
  cbv [mret M_ret]. by destruct (zoom _ _ _ s1).
Qed.

(** C30. A caller has dialed a connection and goes on to register it and
    to arm its channel, while another goroutine calls [CloseAll].
    Wherever [CloseAll] falls, every operation returns and the mutex is
    free in the end, and one of three things has happened.  [CloseAll]
    came before [Add]: the connection is open, a member, and armed.  It
    came between [Add] and [SetClosedSignal]: the connection is closed,
    and [SetClosedSignal] has failed with [AlreadyClosedError] and armed
    nothing.  It came last: the connection is closed and the channel has
    been signalled.  The caller never waits for a signal that will not
    come. *)
Theorem session_races_CloseAll s h ch os :
  Conns_ready s → conn_ref h ∉ members (reg s) → is_closed (world s) h = false →
  signals (world s) ch < room (world s) ch →
  interleaved [tracked_ops (conn_ref h) ch; [op_call call_CloseAll]] os →
  ∃ es s', run_ops ord os s = Returns es s' ∧ mutex (reg s') = Unlocked ∧
    ((os = op_call call_CloseAll :: tracked_ops (conn_ref h) ch ∧ es = [None; None; None] ∧
      members (reg s') = {[conn_ref h]} ∧ is_closed (world s') h = false ∧
      conn_signal (obj (world s') h) = Some ch) ∨
     (os = [op_call (call_Add (conn_ref h)); op_call call_CloseAll; op_arm (conn_ref h) ch] ∧
      es = [None; None; Some AlreadyClosedError] ∧
      members (reg s') = ∅ ∧ is_closed (world s') h = true ∧
      conn_signal (obj (world s') h) = conn_signal (obj (world s) h)) ∨
     (os = tracked_ops (conn_ref h) ch ++ [op_call call_CloseAll] ∧ es = [None; None; None] ∧
      members (reg s') = ∅ ∧ is_closed (world s') h = true ∧
      signals (world s) ch < signals (world s') ch)).
Proof.
  intros Hs Hnew Hopen Hroom Hil%interleavings_spec.
  rewrite tracked_interleavings in Hil.
  apply elem_of_cons in Hil as [->|Hil]; [|apply elem_of_cons in Hil as [->|Hil]];
    [| |apply list_elem_of_singleton in Hil as ->].
  - destruct (race_CloseAll_last ord s h ch) as (s' & Hrun & Hreg & Hc & Hsig); [done..|].
    exists [None; None; None], s'. rewrite Hreg. split_and!; [done..|]. right. right.
    split_and!; try done; unfold members; simpl; apply dom_empty_L.
  - destruct (race_CloseAll_between ord s h ch) as (s' & Hrun & Hreg & Hc & Harm); [done|].
    exists [None; None; Some AlreadyClosedError], s'. rewrite Hreg.
    split_and!; [done..|]. right. left.
    split_and!; try done; unfold members; simpl; apply dom_empty_L.
  - destruct (race_CloseAll_first ord s h ch) as (s' & Hrun & Hreg & Hc & Harm); [done..|].
    exists [None; None; None], s'. rewrite Hreg. split_and!; [done..|]. left.
    split_and!; try done; unfold members; simpl; apply dom_singleton_L.
Qed.

End session_race.

(** ** The theorem at a concrete input *)

Section race_witnesses.

Lemma CloseAll_between_interleaved :
  interleaved [tracked_ops (conn_ref 1%positive) 7%positive; [op_call call_CloseAll]]
              CloseAll_between.
Proof. apply interleavings_spec. rewrite tracked_interleavings. set_solver. Defined.

Lemma session_races_CloseAll_witness :
  ∃ es s', run_ops canonical_order CloseAll_between session_after_dial = Returns es s' ∧
           mutex (reg s') = Unlocked ∧ es = [None; None; Some AlreadyClosedError] ∧
           is_closed (world s') 1%positive = true.
Proof.
  destruct (session_races_CloseAll canonical_order session_after_dial 1%positive 7%positive
              CloseAll_between) as (es & s' & Hrun & Hmu & Hcases);
    [apply zero_Conns_ready|compute_done|by vm_compute|vm_compute; lia
    |apply CloseAll_between_interleaved|].
  exists es, s'. split_and!; [done..| |];
    destruct Hcases as [(Hos & _)|[(_ & ? & _ & ? & _)|(Hos & _)]]; by simplify_eq.
Defined.

End race_witnesses.
