(* ===== verification/SnapshotPool.v ===== *)
(** * SnapshotPool: the design of the specification under concurrent callers

    [Snapshot] states the [CloseAll] the specification recommends: capture
    and clear the members under the lock, release the lock, then call
    [Close] on what was captured.  This file lets several callers use that
    design at once.  The critical sections of [Add], [Remove] and of the
    capture are steps of their own, as the mutex makes them; each [Close]
    of a captured connection is a step outside any critical section, so
    the calls of other workers come between the closes of one [CloseAll].
    The theorems show that the design still implements the abstract
    registry, that no worker ever waits for another, that every
    execution ends, and that complete executions of the design and of
    the methods of [src/psiphon/conn.go] leave the same registries in
    the same orders of calls.  In [conn.go] the closes are made with the
    lock held (lines 69-73), and callers wait ([Concurrent]). *)

From S2P Require Import Prelude GoSem Net RegistrySpec Registry Snapshot.
From S2P Require Import Concurrent Trace Interleave.

(** ** Workers *)

(** A caller of the design: the connections its [CloseAll] has captured
    and not yet closed, and the calls it is going to make after them. *)
Record worker : Type := mkWorker {
  captured : list net_Conn;
  ahead : list call
}.

#[export] Instance worker_eq_dec : EqDecision worker.
Proof. solve_decision. Defined.

(** A worker that is going to make the calls [ks]. *)
Definition fresh (ks : list call) : worker := mkWorker [] ks.

(** A worker that has made all its calls and closed all it captured. *)
Definition idle (g : worker) : Prop := g = mkWorker [] [].

#[export] Instance idle_dec g : Decision (idle g).
Proof. unfold idle. apply _. Defined.

(** The call whose critical section the next step of the worker is, if
    the step is one. *)
Definition section_of (g : worker) : option call :=
  match captured g with
  | [] => head (ahead g)
  | _ :: _ => None
  end.

(** The connections captured and not yet closed, and the calls still to
    be made, of all workers. *)
Definition to_close (gs : list worker) : list net_Conn := concat (captured <$> gs).

Definition to_call (gs : list worker) : list call := concat (ahead <$> gs).

(** ** The pool *)

Section snap_pool.
Context {W : Type} (close : @closer W) (ord : range_order).

(** The worker after a step whose outcome is [o]; a step that blocks,
    panics or dies is no step of the pool. *)
Definition on_return {A} (o : outcome (state W) A) (next : A → worker) :
    option (worker * state W) :=
  match o with
  | Returns a s => Some (next a, s)
  | _ => None
  end.

(** One step of a worker: [Close] on the first captured connection when
    there is one; otherwise the critical section of its next call, which
    for [CloseAll] is [take_all] and hands the worker what it captured. *)
Definition worker_step (g : worker) (s : state W) : option (worker * state W) :=
  match captured g, ahead g with
  | conn :: cs, ks => on_return (call_Close close conn s) (λ _, mkWorker cs ks)
  | [], call_Add conn :: ks => on_return (Add conn s) (λ _, mkWorker [] ks)
  | [], call_Remove conn :: ks => on_return (Remove conn s) (λ _, mkWorker [] ks)
  | [], call_CloseAll :: ks => on_return (take_all ord s) (λ cs, mkWorker cs ks)
  | [], [] => None
  end.

(** One step of the pool, labelled with the call whose critical section
    it is. *)
Inductive snap_step :
  list worker * state W → option call → list worker * state W → Prop :=
| snap_step_worker gs s i g g' s' :
    gs !! i = Some g → worker_step g s = Some (g', s') →
    snap_step (gs, s) (section_of g) (<[i := g']> gs, s').

(** Executions, with the calls in the order of their critical sections. *)
Inductive snap_steps :
  list worker * state W → list call → list worker * state W → Prop :=
| snap_refl c : snap_steps c [] c
| snap_trans c l c' ls c'' :
    snap_step c l c' → snap_steps c' ls c'' → snap_steps c (option_list l ++ ls) c''.

(** The step of worker [i], as a function. *)
Definition snap_sched_step (i : nat) (c : list worker * state W) :
    option (option call * (list worker * state W)) :=
  g ← c.1 !! i;
  '(g', s') ← worker_step g c.2;
  Some (section_of g, (<[i := g']> c.1, s')).

(** Run a schedule: the workers named take a step each in turn; a worker
    that cannot step is skipped. *)
Fixpoint snap_sched_run (sched : list nat) (c : list worker * state W) :
    list call * (list worker * state W) :=
  match sched with
  | [] => ([], c)
  | i :: sched =>
      match snap_sched_step i c with
      | Some (l, c') =>
          let '(ls, c'') := snap_sched_run sched c' in (option_list l ++ ls, c'')
      | None => snap_sched_run sched c
      end
  end.

(** The step of the first worker that is not done. *)
Definition snap_next (c : list worker * state W) :
    option (option call * (list worker * state W)) :=
  '(i, _) ← list_find (λ g, ¬ idle g) c.1; snap_sched_step i c.

(** Step the first worker that is not done until all are, or the fuel is
    used up. *)
Fixpoint snap_run_to_end (fuel : nat) (c : list worker * state W) :
    list call * (list worker * state W) :=
  match fuel, snap_next c with
  | S fuel, Some (l, c') =>
      let '(ls, c'') := snap_run_to_end fuel c' in (option_list l ++ ls, c'')
  | _, _ => ([], c)
  end.

End snap_pool.

(** ** A bound on the steps *)

(** A call of [Add] takes a step and makes the registry one member
    larger, which a later [CloseAll] has to close; the other calls take
    their own step. *)
Definition call_weight (k : call) : nat :=
  match k with
  | call_Add _ => 2
  | _ => 1
  end.

(** The steps a configuration has left at most: one for each captured
    connection, one for each member, which a [CloseAll] may capture, and
    those of the calls to come. *)
Definition potential {W} (c : list worker * state W) : nat :=
  length (to_close c.1) + size (members (reg c.2)) + sum_list_with call_weight (to_call c.1).

(** ** What a configuration stands for *)

(** The abstract registry a configuration stands for: the members, and
    the world as it is once the captured connections have been closed. *)
Definition snap_abs `{ConnWorld W} (c : list worker * state W) : gset net_Conn * W :=
  (members (reg c.2), close_each (handles (to_close c.1)) (world c.2)).

(** A closer that returns, in a ready state, when called in a ready
    state: connections whose [Close] acts on the world only, and
    connections whose [Close] calls [Remove] on the registry, are such. *)
Class ReturnsReady {W} (close : @closer W) : Prop :=
  closer_ready : ∀ h s, Conns_ready s → ∃ e s', close h s = Returns e s' ∧ Conns_ready s'.

(** What holds between the steps: the registry is ready, no worker has
    captured the nil interface and none is going to add it. *)
Definition snap_ok {W} (c : list worker * state W) : Prop :=
  Conns_ready c.2 ∧ Forall (λ g, (nil_Conn ∉ captured g) ∧ Forall call_ok (ahead g)) c.1.

(** ** Fixtures *)

(** One worker calls [CloseAll] on a registry that tracks two connections
    while another adds a third, over the world that counts [Close]
    calls. *)
Definition snap_calls : list (list call) :=
  [[call_CloseAll]; [call_Add (conn_ref 3%positive)]].

Definition snap_start : state (gmap handle nat) := mkState two_conns ∅.

(** The first worker has captured the two connections and closed neither
    yet; the second has added its connection and is done. *)
Definition snap_overtaken : list worker * state (gmap handle nat) :=
  ([mkWorker [conn_b; conn_a] []; mkWorker [] []],
   mkState (mkConns Unlocked (Some {[conn_ref 3%positive := true]})) ∅).

(** Both workers are done. *)
Definition snap_end : list worker * state (gmap handle nat) :=
  ([mkWorker [] []; mkWorker [] []],
   mkState (mkConns Unlocked (Some {[conn_ref 3%positive := true]}))
           {[1%positive := 1; 2%positive := 1]}).

(** ** The critical sections on a ready registry *)

Section ready.
Context {W : Type}.
Implicit Types (s : state W) (conn : net_Conn).

(** Each critical section returns on a ready registry, leaves it ready
    and the world as it was, and acts on the members as the abstract
    registry does. *)
Lemma Add_ready conn s :
  conn ≠ nil_Conn → Conns_ready s →
  ∃ s', Add conn s = Returns () s' ∧ Conns_ready s' ∧
        members (reg s') = {[conn]} ∪ members (reg s) ∧ world s' = world s.
Proof.
  intros Hc [[Hmu Hwf] Hnil]. pose proof (Add_members conn s Hmu) as Hm.
  rewrite Add_run in Hm |- * by done. eexists. split; [done|]. simpl in Hm.
  split_and!; [|done|by destruct_state s]. split; [|set_solver].
  destruct_state s. by apply (Conns_wf_insert Unlocked).
Qed.

Lemma Remove_ready conn s :
  Conns_ready s →
  ∃ s', Remove conn s = Returns () s' ∧ Conns_ready s' ∧
        members (reg s') = members (reg s) ∖ {[conn]} ∧ world s' = world s.
Proof.
  intros [[Hmu Hwf] Hnil]. pose proof (Remove_members conn s Hmu) as Hm.
  rewrite Remove_run in Hm |- * by done. eexists. split; [done|]. simpl in Hm.
  split_and!; [|done|by destruct_state s]. split; [|set_solver].
  destruct_state s. by apply (Conns_wf_delete Unlocked).
Qed.

Lemma take_all_ready ord s :
  Conns_ready s →
  ∃ s', take_all ord s = Returns (range_keys ord (reg s)) s' ∧ Conns_ready s' ∧
        members (reg s') = ∅ ∧ world s' = world s.
Proof.
  intros [[Hmu Hwf] Hnil]. rewrite take_all_run by done. eexists. split; [done|].
  split_and!; [|apply dom_empty_L|done].
  split; [split; [done|apply map_Forall_empty]|]. unfold members; simpl. set_solver.
Qed.

End ready.

(** ** Closers *)

Section closers.
Context `{ConnWorld W}.

#[export] Instance world_closer_ready : ReturnsReady (world_closer (W := W)).
Proof.
  intros h s Hs. unfold world_closer. destruct (world_Close h (world s)) as [e w].
  by exists e, (set_world w s).
Qed.

#[export] Instance reentrant_closer_ready : ReturnsReady (reentrant_closer (W := W)).
Proof.
  intros h s Hs. destruct (Remove_ready (conn_ref h) s Hs) as (s' & Hrun & Hs' & _).
  exists None, s'. unfold reentrant_closer, mbind, M_bind. by rewrite Hrun.
Qed.

End closers.

(** ** Steps of a worker *)

Section worker_facts.
Context `{ConnWorld W} (close : @closer W) `{!ReturnsReady close} (ord : range_order).
Implicit Types (g : worker) (s : state W) (gs : list worker).

Lemma on_return_Some {A} (o : outcome (state W) A) next g' s' :
  on_return o next = Some (g', s') ↔ ∃ a, o = Returns a s' ∧ g' = next a.
Proof. destruct o; simpl; naive_solver. Qed.

(** A step takes the call whose critical section it is off the calls to
    come, and no other. *)
Lemma worker_step_ahead g s g' s' :
  worker_step close ord g s = Some (g', s') →
  ahead g = option_list (section_of g) ++ ahead g'.
Proof.
  unfold worker_step, section_of. destruct g as [[|conn cs] ks]; simpl.
  - destruct ks as [|[conn|conn|] ks]; [done|..]; by intros (a & _ & ->)%on_return_Some.
  - by intros (a & _ & ->)%on_return_Some.
Qed.

(** A worker that has something left to do takes its step in every ready
    state: it never waits for another worker. *)
Lemma worker_step_ready g s :
  Conns_ready s → nil_Conn ∉ captured g → Forall call_ok (ahead g) → ¬ idle g →
  ∃ g' s', worker_step close ord g s = Some (g', s') ∧ Conns_ready s' ∧
           (nil_Conn ∉ captured g') ∧ Forall call_ok (ahead g').
Proof.
  intros Hs Hnil Hok Hdone. unfold worker_step.
  destruct g as [[|[|h] cs] ks]; simpl in *; [|set_solver|].
  - destruct ks as [|k ks]; [done|].
    apply Forall_cons in Hok as [Hk Hok]. destruct k as [conn|conn|].
    + destruct (Add_ready conn s) as (s' & -> & Hs' & _); [by intros ->|done|].
      simpl. naive_solver.
    + destruct (Remove_ready conn s Hs) as (s' & -> & Hs' & _). simpl. naive_solver.
    + destruct (take_all_ready ord s Hs) as (s' & -> & Hs' & _). cbn [on_return].
      eexists _, _. split; [done|]. split_and!; [done| |done].
      cbn [captured]. rewrite elem_of_range_keys. apply Hs.
  - destruct (closer_ready h s Hs) as (e & s' & -> & Hs'). simpl.
    eexists _, _. split; [done|]. split_and!; [done|set_solver|done].
Qed.

(** What a step does on a ready registry, with well-behaved connections:
    it closes the first of the captured connections, or it is the
    critical section of the next call and acts on the members as the
    abstract registry does, capturing them when the call is [CloseAll]. *)
Lemma worker_step_inv g s g' s' :
  Conns_ready s → nil_Conn ∉ captured g → Forall call_ok (ahead g) →
  worker_step world_closer ord g s = Some (g', s') →
  (∃ h cs, captured g = conn_ref h :: cs ∧ g' = mkWorker cs (ahead g) ∧
           reg s' = reg s ∧ world s' = closed (world s) h) ∨
  (∃ k ks, captured g = [] ∧ ahead g = k :: ks ∧ ahead g' = ks ∧
           world s' = world s ∧ members (reg s') = (spec_step k (Conns_abs s)).1 ∧
           captured g' = if decide (k = call_CloseAll) then range_keys ord (reg s) else []).
Proof.
  intros Hs Hnil Hok. unfold worker_step.
  destruct g as [[|[|h] cs] ks]; simpl in *.
  - destruct ks as [|k ks]; [done|]. apply Forall_cons in Hok as [Hk Hok].
    intros Hstep. right. exists k, ks. split; [done|]. split; [done|].
    destruct k as [conn|conn|].
    + destruct (Add_ready conn s) as (s1 & Hrun & _ & Hm & Hw); [by intros ->|done|].
      rewrite Hrun in Hstep. by simplify_eq/=.
    + destruct (Remove_ready conn s Hs) as (s1 & Hrun & _ & Hm & Hw).
      rewrite Hrun in Hstep. by simplify_eq/=.
    + destruct (take_all_ready ord s Hs) as (s1 & Hrun & _ & Hm & Hw).
      rewrite Hrun in Hstep. by simplify_eq/=.
  - set_solver.
  - unfold world_closer. destruct (world_Close h (world s)) as [e w] eqn:Hcl.
    intros ?; simplify_eq/=. left. exists h, cs. split_and!; try done.
    unfold closed. by rewrite Hcl.
Qed.

End worker_facts.

(** ** Configurations *)

Section bookkeeping.
Implicit Types (g : worker) (gs : list worker).

Lemma to_close_insert gs i g g' :
  gs !! i = Some g →
  captured g ++ to_close (<[i := g']> gs) ≡ₚ captured g' ++ to_close gs.
Proof.
  intros Hi. unfold to_close. rewrite list_fmap_insert.
  apply concat_insert_perm. by rewrite list_lookup_fmap, Hi.
Qed.

Lemma to_call_insert gs i g g' :
  gs !! i = Some g →
  ahead g ++ to_call (<[i := g']> gs) ≡ₚ ahead g' ++ to_call gs.
Proof.
  intros Hi. unfold to_call. rewrite list_fmap_insert.
  apply concat_insert_perm. by rewrite list_lookup_fmap, Hi.
Qed.

Lemma to_call_fresh kss : to_call (fresh <$> kss) = concat kss.
Proof. unfold to_call. by rewrite <-list_fmap_compose, list_fmap_id. Qed.

Lemma to_close_fresh kss : to_close (fresh <$> kss) = [].
Proof. unfold to_close. induction kss as [|ks kss IH]; [done|exact IH]. Qed.

Lemma to_call_idle gs : Forall idle gs → to_call gs = [].
Proof. unfold to_call. induction 1 as [|g gs -> _ IH]; [done|exact IH]. Qed.

Lemma to_close_idle gs : Forall idle gs → to_close gs = [].
Proof. unfold to_close. induction 1 as [|g gs -> _ IH]; [done|exact IH]. Qed.

Lemma snap_ok_fresh {W} kss (s : state W) :
  Conns_ready s → Forall (Forall call_ok) kss → snap_ok (fresh <$> kss, s).
Proof.
  intros Hs Hok. split; [done|]. apply Forall_fmap. simpl.
  eapply Forall_impl; [exact Hok|]. intros ks Hks. split; [set_solver|done].
Qed.

End bookkeeping.

(** ** Executions with any closer that returns *)

Section snap_facts.
Context `{ConnWorld W} (close : @closer W) `{!ReturnsReady close} (ord : range_order).
Implicit Types (g : worker) (s : state W) (gs : list worker) (kss : list (list call)).

Lemma worker_step_not_idle g s g' s' :
  worker_step close ord g s = Some (g', s') → ¬ idle g.
Proof. by intros Hstep ->. Qed.

Lemma snap_step_ok c l c' : snap_ok c → snap_step close ord c l c' → snap_ok c'.
Proof.
  intros [Hs Hgs]. destruct 1 as [gs s i g g' s' Hi Hstep]. simpl in *.
  destruct (Forall_lookup_1 _ _ _ _ Hgs Hi) as [Hnil Hok].
  destruct (worker_step_ready close ord g s) as (g1 & s1 & Hstep1 & Hs1 & Hg1);
    [done..|by eapply worker_step_not_idle|].
  simplify_eq. split; [done|]. by apply Forall_insert.
Qed.

Lemma snap_steps_ok c ls c' : snap_ok c → snap_steps close ord c ls c' → snap_ok c'.
Proof. induction 2; eauto using snap_step_ok. Qed.

(** No call is lost or made twice. *)
Lemma snap_step_calls c l c' :
  snap_step close ord c l c' → option_list l ++ to_call c'.1 ≡ₚ to_call c.1.
Proof.
  destruct 1 as [gs s i g g' s' Hi Hstep]. simpl.
  pose proof (to_call_insert gs i g g' Hi) as Hins.
  rewrite (worker_step_ahead _ _ _ _ _ _ Hstep) in Hins.
  apply (inj (app (ahead g'))). rewrite <-Hins. solve_Permutation.
Qed.

Lemma snap_steps_app c ls1 c' ls2 c'' :
  snap_steps close ord c ls1 c' → snap_steps close ord c' ls2 c'' →
  snap_steps close ord c (ls1 ++ ls2) c''.
Proof.
  induction 1 as [c|c l c1 ls c' Hstep _ IH]; intros Hsteps; [done|].
  rewrite <-(assoc_L (++)). econstructor; eauto.
Qed.

(** The order of the critical sections is an interleaving of the programs
    of the workers. *)
Lemma snap_steps_interleaved c ls c' :
  snap_steps close ord c ls c' → Forall idle c'.1 → interleaved (ahead <$> c.1) ls.
Proof.
  induction 1 as [c|c l c' ls c'' Hstep _ IH]; intros Hidle.
  { constructor. apply Forall_fmap. eapply Forall_impl; [exact Hidle|]. by intros g ->. }
  specialize (IH Hidle). destruct Hstep as [gs s i g g' s' Hi Hstep]. simpl in *.
  rewrite list_fmap_insert in IH. apply worker_step_ahead in Hstep.
  destruct (section_of g) as [k|]; simpl in *.
  - apply (interleaved_next _ i k (ahead g')); [|done].
    by rewrite list_lookup_fmap, Hi, <-Hstep.
  - rewrite <-Hstep, list_insert_id in IH; [done|]. by rewrite list_lookup_fmap, Hi.
Qed.

Lemma snap_steps_calls c ls c' :
  snap_steps close ord c ls c' → ls ++ to_call c'.1 ≡ₚ to_call c.1.
Proof.
  induction 1 as [c|c l c' ls c'' Hstep _ IH]; [done|].
  by rewrite <-(snap_step_calls _ _ _ Hstep), <-IH, (assoc_L (++)).
Qed.

(** C27. In the design of the specification no caller waits for another:
    in every configuration that workers calling [Add], [Remove] and
    [CloseAll] reach from a ready registry, every worker that is not done
    can take its next step at once, whether it is the critical section
    of a call or the [Close] of a captured connection.  This holds for
    connections whose [Close] acts on the world only and for connections
    whose [Close] calls back into the registry.  Under [CloseAll] of
    [conn.go] every other caller waits while the connections are closed
    ([Concurrent.lock_waits]). *)
Theorem snapshot_never_waits kss s0 ls gs s i g :
  Conns_ready s0 → Forall (Forall call_ok) kss →
  snap_steps close ord (fresh <$> kss, s0) ls (gs, s) →
  gs !! i = Some g → ¬ idle g →
  ∃ g' s', worker_step close ord g s = Some (g', s') ∧
           snap_step close ord (gs, s) (section_of g) (<[i := g']> gs, s').
Proof.
  intros Hs0 Hok Hsteps Hi Hg.
  destruct (snap_steps_ok _ _ _ (snap_ok_fresh kss s0 Hs0 Hok) Hsteps) as [Hs Hgs].
  destruct (Forall_lookup_1 _ _ _ _ Hgs Hi) as [Hnil Hcalls]. simpl in *.
  destruct (worker_step_ready close ord g s) as (g' & s' & Hstep & _); [done..|].
  exists g', s'. split; [done|]. by econstructor.
Qed.

End snap_facts.

(** ** The pool implements the abstract registry *)

Section pool_refines.
Context `{ConnWorld W} `{!ConnWorldComm W} (ord : range_order).
Implicit Types (g : worker) (s : state W) (gs : list worker) (kss : list (list call)).
Implicit Types (c : list worker * state W).

(** Closing a captured connection does not change what the configuration
    stands for; a critical section changes it as the abstract registry
    says. *)
Lemma snap_step_abs c l c' :
  snap_ok c → snap_step world_closer ord c l c' →
  snap_abs c' = spec_run (option_list l) (snap_abs c).
Proof.
  intros [Hs Hgs]. destruct 1 as [gs s i g g' s' Hi Hstep]. simpl in *.
  destruct (Forall_lookup_1 _ _ _ _ Hgs Hi) as [Hnil Hok].
  pose proof (to_close_insert gs i g g' Hi) as Hins.
  unfold snap_abs, section_of; simpl.
  destruct (worker_step_inv ord g s g' s' Hs Hnil Hok Hstep)
    as [(h & cs & Hg & -> & -> & ->)|(k & ks & Hg & Hks & _ & -> & -> & Hg')];
    rewrite Hg in *; simpl in *.
  - f_equal. assert (to_close gs ≡ₚ conn_ref h :: to_close (<[i := mkWorker cs (ahead g)]> gs))
      as -> by (apply (inj (app cs)); rewrite <-Hins; solve_Permutation). done.
  - rewrite Hks, Hg' in *. simpl. destruct k as [conn|conn|]; simpl in *.
    + by rewrite Hins.
    + by rewrite Hins.
    + f_equal. rewrite Hins. unfold handles.
      rewrite omap_app, (comm (++)), close_each_app.
      apply close_each_Permutation, (handles_perm _ _ (range_keys_elements ord _)).
Qed.

Theorem snap_steps_abs c ls c' :
  snap_ok c → snap_steps world_closer ord c ls c' →
  snap_abs c' = spec_run ls (snap_abs c).
Proof.
  intros Hc Hsteps. induction Hsteps as [c|c l c' ls c'' Hstep _ IH]; [done|].
  rewrite spec_run_app, <-(snap_step_abs c l c') by done.
  eauto using snap_step_ok, world_closer_ready.
Qed.

(** Once every worker is done, every call has had its critical section,
    the registry is ready, and it is the abstract registry after the
    calls in the order of their critical sections. *)
Lemma snap_quiescent kss s0 ls gs s :
  Conns_ready s0 → Forall (Forall call_ok) kss →
  snap_steps world_closer ord (fresh <$> kss, s0) ls (gs, s) →
  Forall idle gs →
  ls ≡ₚ concat kss ∧ Conns_ready s ∧ Conns_abs s = spec_run ls (Conns_abs s0).
Proof.
  intros Hs0 Hok Hsteps Hall.
  pose proof (snap_ok_fresh kss s0 Hs0 Hok) as Hc0.
  pose proof (snap_steps_calls _ ord _ _ _ Hsteps) as Hperm. simpl in Hperm.
  rewrite to_call_fresh, to_call_idle, app_nil_r in Hperm by done.
  pose proof (snap_steps_abs _ _ _ Hc0 Hsteps) as Habs.
  unfold snap_abs in Habs; simpl in Habs.
  rewrite to_close_fresh, to_close_idle in Habs by done.
  by destruct (snap_steps_ok _ ord _ _ _ Hc0 Hsteps) as [Hs _].
Qed.

(** C25. Workers call the methods of the design of the specification
    concurrently on a ready registry, never adding the nil interface, and
    the closes of one [CloseAll] interleave with the calls of the others.
    Once all are done, every call has had its critical section, the
    registry is ready, and its members and the world are those the
    abstract registry computes from the calls in the order of their
    critical sections: what the methods of [conn.go] leave when one
    goroutine calls them in that order. *)
Theorem snapshot_pool_refines kss s0 ls gs s :
  Conns_ready s0 → Forall (Forall call_ok) kss →
  snap_steps world_closer ord (fresh <$> kss, s0) ls (gs, s) →
  Forall idle gs →
  ls ≡ₚ concat kss ∧ Conns_ready s ∧ Conns_abs s = spec_run ls (Conns_abs s0) ∧
  ∃ s', run_calls world_closer ord ls s0 = Returns () s' ∧ Conns_abs s' = Conns_abs s.
Proof.
  intros Hs0 Hok Hsteps Hall.
  destruct (snap_quiescent kss s0 ls gs s) as (Hperm & Hs & Habs); [done..|].
  split_and!; [done..|].
  destruct (calls_refine (RegistryCorrect0 := Conns_refines ord) ls s0)
    as (s' & Hrun & _ & Habs'); [|done|].
  { rewrite Hperm. by apply Forall_concat. }
  exists s'. split; [done|]. by etrans; [exact Habs'|].
Qed.

End pool_refines.

(** ** The orders of the critical sections *)

Section orders.
Context `{ConnWorld W} (ord : range_order).
Implicit Types (g : worker) (s : state W) (gs : list worker) (kss : list (list call)).

Lemma worker_step_Close h cs ks s :
  worker_step world_closer ord (mkWorker (conn_ref h :: cs) ks) s =
    Some (mkWorker cs ks, set_world (closed (world s) h) s).
Proof.
  unfold worker_step, world_closer, closed; simpl. by destruct (world_Close h (world s)).
Qed.

(** A worker closes what it has captured, in as many steps, before any
    other worker moves. *)
Lemma close_captured_steps gs s i cs ks :
  gs !! i = Some (mkWorker cs ks) → nil_Conn ∉ cs →
  snap_steps world_closer ord (gs, s) []
    (<[i := mkWorker [] ks]> gs, set_world (close_each (handles cs) (world s)) s).
Proof.
  revert gs s. induction cs as [|[|h] cs IH]; intros gs s Hi Hnil.
  - rewrite list_insert_id by done. destruct s. constructor.
  - set_solver.
  - eapply (snap_trans world_closer ord _ None _ []).
    + eapply (snap_step_worker world_closer ord gs s i (mkWorker (conn_ref h :: cs) ks) _ _ Hi),
        worker_step_Close.
    + specialize (IH (<[i := mkWorker cs ks]> gs) (set_world (closed (world s) h) s)).
      rewrite list_insert_insert_eq in IH. destruct s. apply IH; [|set_solver].
      apply list_lookup_insert_eq. by eapply lookup_lt_Some.
Qed.

(** Every interleaving of the programs is the order of the critical
    sections of an execution: the one in which each worker closes what
    it captured before the next call is made. *)
Lemma interleaved_snap_steps kss ls s0 :
  Conns_ready s0 → Forall (Forall call_ok) kss → interleaved kss ls →
  ∃ gs s, snap_steps world_closer ord (fresh <$> kss, s0) ls (gs, s) ∧ Forall idle gs.
Proof.
  intros Hs0 Hok Hl. revert s0 Hs0 Hok.
  induction Hl as [kss Hnil|kss i k ks ls Hi _ IH]; intros s0 Hs0 Hok.
  { exists (fresh <$> kss), s0. split; [constructor|].
    apply Forall_fmap. eapply Forall_impl; [exact Hnil|]. by intros ? ->. }
  assert ((fresh <$> kss) !! i = Some (fresh (k :: ks))) as Hgi
    by by rewrite list_lookup_fmap, Hi.
  pose proof (Forall_lookup_1 _ _ _ _ Hok Hi) as Hkks.
  destruct (worker_step_ready world_closer ord (fresh (k :: ks)) s0)
    as ([cs ks'] & s1 & Hstep & Hs1 & Hnil & Hks'); [done|set_solver|done..|].
  pose proof (worker_step_ahead _ _ _ _ _ _ Hstep) as Hks. simpl in Hks, Hnil.
  injection Hks as <-.
  destruct (IH (set_world (close_each (handles cs) (world s1)) s1))
    as (gs & s & Hsteps & Hidle); [by destruct s1|apply Forall_insert; by inv Hkks|].
  exists gs, s. split; [|done].
  eapply (snap_trans world_closer ord _ (Some k) _ ls);
    [exact (snap_step_worker world_closer ord _ _ i (fresh (k :: ks)) _ _ Hgi Hstep)|].
  pose proof (close_captured_steps (<[i := mkWorker cs ks]> (fresh <$> kss)) s1 i cs ks) as Hcl.
  rewrite list_insert_insert_eq in Hcl. rewrite list_fmap_insert in Hsteps.
  eapply (snap_steps_app _ _ _ [] _ ls); [|exact Hsteps].
  apply Hcl; [|done]. apply list_lookup_insert_eq. by eapply lookup_lt_Some.
Qed.

(** The orders in which the critical sections of complete executions
    occur are exactly the interleavings of the programs of the workers. *)
Theorem snapshot_orders_interleavings kss ls s0 :
  Conns_ready s0 → Forall (Forall call_ok) kss →
  (∃ gs s, snap_steps world_closer ord (fresh <$> kss, s0) ls (gs, s) ∧ Forall idle gs) ↔
  interleaved kss ls.
Proof.
  intros Hs0 Hok. split; [|by apply interleaved_snap_steps].
  intros (gs & s & Hsteps & Hidle).
  apply (snap_steps_interleaved world_closer ord) in Hsteps; [|done]. simpl in Hsteps.
  by rewrite <-list_fmap_compose, list_fmap_id in Hsteps.
Qed.

End orders.

(** ** The two designs under concurrent callers *)

Section designs.
Context `{ConnWorld W} `{!ConnWorldComm W} (ord : range_order).
Implicit Types (s : state W) (kss : list (list call)) (a : gset net_Conn * W).

(** The complete executions of goroutines calling the methods of
    [conn.go]: their lock orders are the interleavings of the programs,
    and the registry they leave is the abstract one after the calls in
    lock order. *)
Lemma pool_outcomes kss ls s0 a :
  Conns_ready s0 → Forall (Forall call_ok) kss →
  (∃ gs s, pool_steps world_closer ord (spawn <$> kss, s0) ls (gs, s) ∧
           Forall returned_all gs ∧ Conns_abs s = a) ↔
  interleaved kss ls ∧ a = spec_run ls (Conns_abs s0).
Proof.
  intros Hs0 Hok.
  assert (∀ gs s, pool_steps world_closer ord (spawn <$> kss, s0) ls (gs, s) →
            Forall returned_all gs → Conns_abs s = spec_run ls (Conns_abs s0)) as Habs.
  { intros gs s Hsteps Hall.
    destruct (quiescent_run ord kss s0 ls gs s) as [Hperm Hrun]; [done..|].
    apply (run_calls_abs ord ls); [done| |done]. rewrite Hperm. by apply Forall_concat. }
  split.
  - intros (gs & s & Hsteps & Hall & <-). split; [|by eapply Habs].
    apply pool_steps_exec in Hsteps as (tr & Hexec & <-).
    apply pool_exec_interleaved in Hexec; [|done]. simpl in Hexec.
    by rewrite <-list_fmap_compose, list_fmap_id in Hexec.
  - intros [Hl ->].
    destruct (interleaved_exec ord kss ls s0) as (tr & gs & s & Hexec & Hall & <-); [done..|].
    apply pool_exec_steps in Hexec. exists gs, s. split_and!; [done..|by eapply Habs].
Qed.

(** The same holds of the complete executions of workers calling the
    methods of the design of the specification. *)
Lemma snap_outcomes kss ls s0 a :
  Conns_ready s0 → Forall (Forall call_ok) kss →
  (∃ gs s, snap_steps world_closer ord (fresh <$> kss, s0) ls (gs, s) ∧
           Forall idle gs ∧ Conns_abs s = a) ↔
  interleaved kss ls ∧ a = spec_run ls (Conns_abs s0).
Proof.
  intros Hs0 Hok. split.
  - intros (gs & s & Hsteps & Hall & <-).
    destruct (snap_quiescent ord kss s0 ls gs s) as (_ & _ & Habs); [done..|].
    split; [|done]. apply (snapshot_orders_interleavings ord kss ls s0 Hs0 Hok); eauto.
  - intros [Hl ->].
    destruct (interleaved_snap_steps ord kss ls s0) as (gs & s & Hsteps & Hall); [done..|].
    destruct (snap_quiescent ord kss s0 ls gs s) as (_ & _ & Habs); [done..|]. eauto 6.
Qed.

(** C26. The two designs cannot be told apart by what complete executions
    leave: the calls of concurrent callers can take effect in the same
    orders, and leave the same members and the same connections closed,
    whether [CloseAll] closes the connections under the lock, as
    [conn.go] does, or after it has released it. *)
Theorem designs_agree kss ls s0 a :
  Conns_ready s0 → Forall (Forall call_ok) kss →
  (∃ gs s, pool_steps world_closer ord (spawn <$> kss, s0) ls (gs, s) ∧
           Forall returned_all gs ∧ Conns_abs s = a) ↔
  (∃ gs s, snap_steps world_closer ord (fresh <$> kss, s0) ls (gs, s) ∧
           Forall idle gs ∧ Conns_abs s = a).
Proof. intros Hs0 Hok. by rewrite pool_outcomes, snap_outcomes. Qed.

End designs.

(** ** Termination *)

Section snap_termination.
Context `{ConnWorld W} (ord : range_order).
Implicit Types (c : list worker * state W).

(** A critical section makes up for the members it adds or captures. *)
Lemma spec_step_size k (a : gset net_Conn * W) :
  size (spec_step k a).1 + (if decide (k = call_CloseAll) then size a.1 else 0) <
  size a.1 + call_weight k.
Proof.
  assert (∀ conn, size (a.1 ∖ {[conn]}) ≤ size a.1) as Hsub
    by (intros; apply subseteq_size; set_solver).
  destruct k as [conn|conn|]; try specialize (Hsub conn); cbn [spec_step fst call_weight];
    case_decide; try done;
    rewrite ?size_union_alt, ?size_singleton, ?size_empty; lia.
Qed.

(** Every step uses up some of the potential. *)
Lemma snap_step_decreases c l c' :
  snap_ok c → snap_step world_closer ord c l c' → potential c' < potential c.
Proof.
  intros [Hs Hgs]. destruct 1 as [gs s i g g' s' Hi Hstep]. simpl in *.
  destruct (Forall_lookup_1 _ _ _ _ Hgs Hi) as [Hnil Hok].
  pose proof (to_close_insert gs i g g' Hi) as Hcl%Permutation_length.
  pose proof (to_call_insert gs i g g' Hi) as Hca.
  apply (sum_list_with_Permutation_proper call_weight) in Hca.
  rewrite !length_app in Hcl. rewrite !sum_list_with_app in Hca.
  unfold potential; simpl.
  destruct (worker_step_inv ord g s g' s' Hs Hnil Hok Hstep)
    as [(h & cs & Hg & -> & -> & _)|(k & ks & Hg & Hks & Hks' & _ & -> & Hg')];
    rewrite Hg in *; simpl in *; [lia|].
  rewrite Hks, Hks', Hg' in *. pose proof (spec_step_size k (Conns_abs s)) as Hk.
  simpl in Hca. cbn [Conns_abs fst] in Hk |- *.
  destruct (decide _); rewrite ?length_range_keys in Hcl; simpl in Hcl; lia.
Qed.

(** The executions of the pool are finite. *)
Theorem snapshot_pool_terminates :
  well_founded (λ c' c, snap_ok c ∧ ∃ l, snap_step world_closer ord c l c').
Proof.
  apply (well_founded_lt_compat _ potential). intros c' c [Hc [l Hstep]].
  by eapply snap_step_decreases.
Qed.

End snap_termination.

(** ** Schedules *)

Section snap_schedules.
Context {W : Type} (close : @closer W) (ord : range_order).
Implicit Types (c : list worker * state W) (sched : list nat).

Lemma snap_sched_step_sound i c l c' :
  snap_sched_step close ord i c = Some (l, c') → snap_step close ord c l c'.
Proof.
  destruct c as [gs s]. unfold snap_sched_step; simpl.
  destruct (gs !! i) as [g|] eqn:Hi; simpl; [|done].
  destruct (worker_step close ord g s) as [[g' s']|] eqn:Hstep; simpl; [|done].
  intros ?; simplify_eq. by econstructor.
Qed.

(** A schedule yields an execution of the pool. *)
Theorem snap_sched_run_sound sched c ls c' :
  snap_sched_run close ord sched c = (ls, c') → snap_steps close ord c ls c'.
Proof.
  revert c ls c'. induction sched as [|i sched IH]; intros c ls c' Hrun; simpl in Hrun.
  { simplify_eq. constructor. }
  destruct (snap_sched_step close ord i c) as [[l c1]|] eqn:Hstep; [|by apply IH].
  destruct (snap_sched_run close ord sched c1) as [ls1 c2] eqn:Hrun1. simplify_eq.
  econstructor; [by eapply snap_sched_step_sound|by apply IH].
Qed.

Lemma snap_next_Some c l c' :
  snap_next close ord c = Some (l, c') → snap_step close ord c l c'.
Proof.
  unfold snap_next. destruct (list_find _ _) as [[i g]|]; simpl; [|done].
  apply snap_sched_step_sound.
Qed.

(** On a configuration between critical sections, no step is left only
    when every worker is done. *)
Lemma snap_next_None `{!ReturnsReady close} c :
  snap_ok c → snap_next close ord c = None → Forall idle c.1.
Proof.
  intros [Hs Hgs]. unfold snap_next, snap_sched_step.
  destruct (list_find _ _) as [[i g]|] eqn:Hfind; simpl.
  - apply list_find_Some in Hfind as (Hi & Hg & _). rewrite Hi; simpl.
    destruct (Forall_lookup_1 _ _ _ _ Hgs Hi) as [Hnil Hok].
    by destruct (worker_step_ready close ord g c.2) as (g' & s' & -> & _).
  - intros _. apply list_find_None in Hfind.
    eapply Forall_impl; [exact Hfind|]. intros g Hg. by apply dec_stable.
Qed.

End snap_schedules.

(** ** The pool reaches its end *)

Section snap_run.
Context `{ConnWorld W} (ord : range_order).
Implicit Types (c : list worker * state W).

(** Stepping the first worker that is not done, for as many steps as the
    potential allows, is an execution of the pool at the end of which
    every worker is done. *)
Theorem snap_run_to_end_idle fuel c ls c' :
  snap_ok c → potential c ≤ fuel →
  snap_run_to_end world_closer ord fuel c = (ls, c') →
  snap_steps world_closer ord c ls c' ∧ Forall idle c'.1.
Proof.
  revert c ls c'. induction fuel as [|fuel IH]; intros c ls c' Hc Hfuel; simpl;
    destruct (snap_next world_closer ord c) as [[l c1]|] eqn:Hnext;
    try (intros ?; simplify_eq; split;
         [constructor|by apply (snap_next_None world_closer ord)]).
  - apply snap_next_Some, (snap_step_decreases ord) in Hnext; [lia|done].
  - apply snap_next_Some in Hnext.
    pose proof (snap_step_decreases ord _ _ _ Hc Hnext).
    destruct (snap_run_to_end _ _ fuel c1) as [ls1 c2] eqn:Hrun. intros ?; simplify_eq.
    destruct (IH c1 ls1 c') as [Hsteps Hdone];
      [by eapply snap_step_ok, Hnext; [apply _|]|lia|done|].
    split; [by econstructor|done].
Qed.

End snap_run.

(** ** The theorems at concrete inputs *)

Section snap_witnesses.

(** An [Add] that returns while the connections a [CloseAll] has captured
    are still open. *)
Lemma snap_overtaken_steps :
  snap_steps world_closer canonical_order (fresh <$> snap_calls, snap_start)
             [call_CloseAll; call_Add (conn_ref 3%positive)] snap_overtaken.
Proof. apply snap_sched_run_sound with (sched := [0; 1]). by vm_compute. Defined.

Lemma snap_end_steps :
  snap_steps world_closer canonical_order (fresh <$> snap_calls, snap_start)
             [call_CloseAll; call_Add (conn_ref 3%positive)] snap_end.
Proof. apply snap_sched_run_sound with (sched := [0; 1; 0; 0]). by vm_compute. Defined.

Lemma snap_calls_ok : Forall (Forall call_ok) snap_calls.
Proof. repeat constructor; by intros ?. Defined.

Lemma snapshot_never_waits_witness :
  ∃ g' s',
    worker_step world_closer canonical_order (mkWorker [conn_b; conn_a] []) snap_overtaken.2 =
      Some (g', s') ∧
    snap_step world_closer canonical_order snap_overtaken None
      (<[0 := g']> snap_overtaken.1, s').
Proof.
  apply (snapshot_never_waits world_closer canonical_order snap_calls snap_start
           [call_CloseAll; call_Add (conn_ref 3%positive)] snap_overtaken.1 snap_overtaken.2 0
           (mkWorker [conn_b; conn_a] []));
    [apply two_conns_ready|apply snap_calls_ok|apply snap_overtaken_steps|done|done].
Defined.

Lemma designs_agree_witness :
  ∃ gs s, pool_steps world_closer canonical_order (spawn <$> snap_calls, snap_start)
            [call_CloseAll; call_Add (conn_ref 3%positive)] (gs, s) ∧
          Forall returned_all gs ∧ Conns_abs s = Conns_abs snap_end.2.
Proof.
  apply (designs_agree canonical_order snap_calls _ snap_start (Conns_abs snap_end.2));
    [apply two_conns_ready|apply snap_calls_ok|].
  exists snap_end.1, snap_end.2.
  split_and!; [apply snap_end_steps|by repeat constructor|done].
Defined.

Lemma snapshot_pool_refines_witness :
  [call_CloseAll; call_Add (conn_ref 3%positive)] ≡ₚ concat snap_calls ∧
  Conns_ready snap_end.2 ∧
  Conns_abs snap_end.2 =
    spec_run [call_CloseAll; call_Add (conn_ref 3%positive)] (Conns_abs snap_start) ∧
  ∃ s', run_calls world_closer canonical_order
          [call_CloseAll; call_Add (conn_ref 3%positive)] snap_start = Returns () s' ∧
        Conns_abs s' = Conns_abs snap_end.2.
Proof.
  apply (snapshot_pool_refines canonical_order snap_calls snap_start _ snap_end.1);
    [apply two_conns_ready|apply snap_calls_ok|apply snap_end_steps|by repeat constructor].
Defined.

End snap_witnesses.
